(** * chatgpt-to-claude: conversation reconstruction, rendering, splitting,
      clustering and output paths

    A shallow embedding of the JavaScript pipeline under [site/js]
    ([parser.js], [content-handlers.js], [splitter.js],
    [synthesis/topic-clusterer.js], [organizer.js]) together with the
    properties its specification states about it.

    Conventions.
    - A JavaScript string is the list of its UTF-16 code units ([jsstring]).
    - An optional field of a JSON object is an [option]; [None] stands for a
      field that is absent, [null] or [undefined].
    - A loop that the source writes as [while (true)] over pointers found in
      the input takes a fuel argument; running out of fuel is the outcome
      [Timeout], which stands for a run that does not return. *)

From Stdlib Require Import ZArith NArith QArith List String Ascii Bool Lia.
From Stdlib Require Import Permutation DecimalString DecimalNat Sorted.
From Equations Require Import Equations.
From Equations.Prop Require Logic.
From stdpp Require Import base option list gmap.

Import ListNotations.
Local Open Scope nat_scope.

(* ===================================================================== *)
(** * JavaScript strings and objects *)
(* ===================================================================== *)

Module JS.

(** A string is its sequence of UTF-16 code units. *)
Definition jsstring : Type := list N.

(** An ASCII literal. *)
Definition lit (s : string) : jsstring :=
  List.map N_of_ascii (list_ascii_of_string s).

(** [o || d] for an optional string field: the empty string is falsy. *)
Definition or_str (o : option jsstring) (d : jsstring) : jsstring :=
  match o with
  | Some (c :: s) => c :: s
  | _ => d
  end.

(** Truthiness of an optional string field. *)
Definition truthy (o : option jsstring) : bool :=
  match o with
  | Some (_ :: _) => true
  | _ => false
  end.

(** [String(n)] for a non-negative integer. *)
Definition decimal (n : nat) : jsstring :=
  lit (NilEmpty.string_of_uint (Nat.to_uint n)).

Definition in_range (lo hi c : N) : bool := ((lo <=? c) && (c <=? hi))%N.

(** ECMAScript WhiteSpace and LineTerminator code points: what [\s]
    matches and what [trim] strips. *)
Definition is_space (c : N) : bool :=
  in_range 9 13 c || (c =? 32)%N || (c =? 160)%N || (c =? 5760)%N
  || in_range 8192 8202 c || (c =? 8232)%N || (c =? 8233)%N
  || (c =? 8239)%N || (c =? 8287)%N || (c =? 12288)%N || (c =? 65279)%N.

(** [\w] without the unicode flag: [A-Za-z0-9_]. *)
Definition is_word (c : N) : bool :=
  in_range 48 57 c || in_range 65 90 c || in_range 97 122 c || (c =? 95)%N.

Fixpoint skip_while (p : N -> bool) (s : jsstring) : jsstring :=
  match s with
  | [] => []
  | c :: r => if p c then skip_while p r else s
  end.

Definition skip_while_end (p : N -> bool) (s : jsstring) : jsstring :=
  rev (skip_while p (rev s)).

(** [s.trim()] *)
Definition trim (s : jsstring) : jsstring :=
  skip_while_end is_space (skip_while is_space s).

Fixpoint is_prefix (p s : jsstring) : bool :=
  match p, s with
  | [], _ => true
  | _ :: _, [] => false
  | a :: p', b :: s' => (a =? b)%N && is_prefix p' s'
  end.

(** [s.includes(p)] *)
Fixpoint includes (s p : jsstring) : bool :=
  is_prefix p s ||
  match s with
  | [] => false
  | _ :: s' => includes s' p
  end.

(** [s.lastIndexOf(String.fromCharCode(c))]; [None] is [-1]. *)
Fixpoint lastIndexOf (c : N) (s : jsstring) : option nat :=
  match s with
  | [] => None
  | d :: r =>
      match lastIndexOf c r with
      | Some i => Some (S i)
      | None => if (d =? c)%N then Some 0 else None
      end
  end.

(** The own property [k] of an object given by its entries; [None] when
    the object has no such key. *)
Fixpoint assoc {V : Type} (k : jsstring) (l : list (jsstring * V)) : option V :=
  match l with
  | [] => None
  | (k', v) :: rest => if bool_decide (k' = k) then Some v else assoc k rest
  end.

(** The property names every plain object inherits from
    [Object.prototype].  Reading [obj[k]] for such a [k] that is not an
    own key of [obj] yields the inherited member, not [undefined]. *)
Definition inherited_names : list jsstring :=
  List.map lit
    [ "constructor"; "__defineGetter__"; "__defineSetter__";
      "hasOwnProperty"; "__lookupGetter__"; "__lookupSetter__";
      "isPrototypeOf"; "propertyIsEnumerable"; "toString"; "valueOf";
      "__proto__"; "toLocaleString" ]%string.

Definition inherited (k : jsstring) : bool :=
  bool_decide (k ∈ inherited_names).

(** A value read from JSON where the program expects a number. *)
#[warnings="-register-all"] Inductive JsValue : Type :=
| JNull
| JUndefined
| JBool (b : bool)
| JNumber (q : Q)
| JString (s : jsstring)
| JArray (elements : list JsValue)
| JObject (entries : list (jsstring * JsValue)).

(** [Number(v)] throws a [TypeError] for some values that JSON can hold.
    To convert an object, [valueOf] is called first and, as it does not
    return a primitive, [toString] next.  The [valueOf] an object gets from
    [Object.prototype] returns the object itself, and an own [valueOf] read
    from JSON is not callable and is passed over.  An own [toString] read
    from JSON is not callable either, and then nothing is left to call.
    An array converts through [Array.prototype.join], which converts every
    element other than [null] to a string, and throws when an element does:
    an object with an own [toString], or an array that holds one in turn. *)
Fixpoint Number_throws (v : JsValue) : bool :=
  match v with
  | JObject entries => bool_decide (is_Some (assoc (lit "toString") entries))
  | JArray elements => existsb Number_throws elements
  | _ => false
  end.

(** Outcome of a computation that may fail to produce a value: [Timeout]
    is a run that never returns (the fuel of a [while (true)] loop ran
    out), [Anomaly] a run that leaves the data model (a [TypeError], or a
    value that is not of the expected shape). *)
Inductive Res (A : Type) : Type :=
| Ok (a : A)
| Timeout
| Anomaly.
Arguments Ok {A} a.
Arguments Timeout {A}.
Arguments Anomaly {A}.

#[global] Instance Res_ret : MRet Res := fun A a => Ok a.

#[global] Instance Res_bind : MBind Res := fun A B k r =>
  match r with
  | Ok a => k a
  | Timeout => Timeout
  | Anomaly => Anomaly
  end.

(** A JavaScript [Set] of strings, as the list of its members in
    insertion order. *)
Definition Set_add (s : list jsstring) (x : jsstring) : list jsstring :=
  if bool_decide (x ∈ s) then s else s ++ [x].

Definition Set_from (xs : list jsstring) : list jsstring :=
  fold_left Set_add xs [].

End JS.
Export JS.


(* ===================================================================== *)
(** * content-handlers.js: rendering a content payload *)
(* ===================================================================== *)

Module ContentHandlers.

(** The keys of [CONTENT_TYPES]. *)
Inductive ContentType : Type :=
| TEXT | CODE | EXECUTION_OUTPUT | BROWSING_DISPLAY | BROWSING_QUOTE
| MULTIMODAL_TEXT | UNKNOWN.

Definition CONTENT_TYPES (t : ContentType) : jsstring :=
  match t with
  | TEXT => lit "text"
  | CODE => lit "code"
  | EXECUTION_OUTPUT => lit "execution_output"
  | BROWSING_DISPLAY => lit "tether_browsing_display"
  | BROWSING_QUOTE => lit "tether_quote"
  | MULTIMODAL_TEXT => lit "multimodal_text"
  | UNKNOWN => lit "unknown"
  end.

(** An object found in a [parts] array. *)
Record StructuredPart : Type := {
  part_content_type : option jsstring;
  asset_pointer : option jsstring;
  name : option jsstring;
  part_text : option jsstring
}.

(** An entry of a [parts] array: a string, an object, or anything else
    ([null], a number, a boolean). *)
Inductive Part : Type :=
| PString (s : jsstring)
| PObject (o : StructuredPart)
| POther.

(** The [content] object of a raw message. *)
Record RawContent : Type := {
  content_type : option jsstring;
  parts : option (list Part);
  text : option jsstring;
  language : option jsstring;
  result : option jsstring;
  title : option jsstring;
  url : option jsstring
}.

(** [{}] *)
Definition empty_content : RawContent :=
  {| content_type := None; parts := None; text := None; language := None;
     result := None; title := None; url := None |}.

(** The fields a fragment carries besides [contentType] and [text]. *)
Inductive Extra : Type :=
| NoExtra
| ImageRef (pointer : option jsstring)
| Language (l : jsstring)
| Citation (ctitle curl : jsstring).

Record Fragment : Type := {
  contentType : ContentType;
  frag_text : jsstring;
  extra : Extra
}.

Definition handleStructuredPart (part : StructuredPart) : list Fragment :=
  let ct := or_str (part_content_type part) [] in
  if includes ct (lit "image") then
    let pointer := or_str (asset_pointer part) [] in
    [ {| contentType := TEXT;
         frag_text := match pointer with
                      | [] => lit "[Image]"
                      | _ => lit "[Image: " ++ pointer ++ lit "]"
                      end;
         extra := ImageRef (match pointer with [] => None | _ => Some pointer end) |} ]
  else if bool_decide (ct = lit "file") || includes ct (lit "file") then
    let name := or_str (name part) (lit "unnamed_file") in
    [ {| contentType := TEXT;
         frag_text := lit "[File: " ++ name ++ lit "]";
         extra := NoExtra |} ]
  else if truthy (part_text part) then
    [ {| contentType := TEXT; frag_text := or_str (part_text part) [];
         extra := NoExtra |} ]
  else [].

(** [typeof part === 'string' && part.trim()] *)
Definition nonblank (s : jsstring) : bool :=
  match trim s with [] => false | _ => true end.

(** One turn of the loop shared by [handleText] and
    [handleMultimodalText]. *)
Definition text_part (part : Part) : list Fragment :=
  match part with
  | PString s =>
      if nonblank s
      then [ {| contentType := TEXT; frag_text := s; extra := NoExtra |} ]
      else []
  | PObject o => handleStructuredPart o
  | POther => []
  end.

Definition handleText (content : RawContent) : list Fragment :=
  flat_map text_part (default [] (parts content)).

Definition handleMultimodalText (content : RawContent) : list Fragment :=
  flat_map text_part (default [] (parts content)).

Definition handleCode (content : RawContent) : list Fragment :=
  let codeText := or_str (text content) [] in
  let language := or_str (language content) (lit "python") in
  [ {| contentType := CODE; frag_text := codeText; extra := Language language |} ].

Definition handleExecutionOutput (content : RawContent) : list Fragment :=
  match or_str (text content) [] with
  | [] => []
  | output =>
      [ {| contentType := EXECUTION_OUTPUT; frag_text := output; extra := NoExtra |} ]
  end.

Definition handleBrowsingDisplay (content : RawContent) : list Fragment :=
  match or_str (result content) [] with
  | [] => []
  | res =>
      [ {| contentType := BROWSING_DISPLAY; frag_text := res; extra := NoExtra |} ]
  end.

Definition handleBrowsingQuote (content : RawContent) : list Fragment :=
  let title := or_str (title content) [] in
  let text := or_str (text content) [] in
  let url := or_str (url content) [] in
  [ {| contentType := BROWSING_QUOTE; frag_text := text; extra := Citation title url |} ].

(** One turn of the loop over [parts] in [handleUnknown]. *)
Definition unknown_part (part : Part) : list Fragment :=
  match part with
  | PString s =>
      if nonblank s
      then [ {| contentType := UNKNOWN; frag_text := s; extra := NoExtra |} ]
      else []
  | _ => []
  end.

Definition handleUnknown (content : RawContent) : list Fragment :=
  let parts := default [] (parts content) in
  let text := or_str (text content) [] in
  let ctName := or_str (content_type content) (lit "unknown") in
  let result :=
    match text with
    | _ :: _ => [ {| contentType := UNKNOWN; frag_text := text; extra := NoExtra |} ]
    | [] => flat_map unknown_part parts
    end in
  match result with
  | [] =>
      [ {| contentType := UNKNOWN;
           frag_text := lit "[Unsupported content type: " ++ ctName ++ lit "]";
           extra := NoExtra |} ]
  | _ => result
  end.

(** What [HANDLERS[contentType] || handleUnknown] evaluates to.
    [HANDLERS] is a plain object, so a content type that names a member of
    [Object.prototype] selects that member ([Inherited]) rather than
    [handleUnknown]. *)
Inductive Handler : Type :=
| Own (h : RawContent -> list Fragment)
| Inherited.

Definition HANDLERS : list (jsstring * (RawContent -> list Fragment)) :=
  [ (lit "text", handleText);
    (lit "code", handleCode);
    (lit "execution_output", handleExecutionOutput);
    (lit "tether_browsing_display", handleBrowsingDisplay);
    (lit "tether_quote", handleBrowsingQuote);
    (lit "multimodal_text", handleMultimodalText) ].

Definition select_handler (contentType : jsstring) : Handler :=
  match assoc contentType HANDLERS with
  | Some h => Own h
  | None => if inherited contentType then Inherited else Own handleUnknown
  end.

(** [renderContent].  A member of [Object.prototype] called in place of a
    handler throws a [TypeError] or returns something that is not a list
    of fragments; both are the outcome [Anomaly]. *)
Definition renderContent (rawContent : RawContent) : Res (list Fragment) :=
  let contentType := or_str (content_type rawContent) (lit "text") in
  match select_handler contentType with
  | Own handler => Ok (handler rawContent)
  | Inherited => Anomaly
  end.

End ContentHandlers.
Export ContentHandlers.

(* ===================================================================== *)
(** * parser.js: tree traversal and conversation assembly *)
(* ===================================================================== *)

Module Parser.

Definition VALID_ROLES : list jsstring :=
  [lit "user"; lit "assistant"; lit "system"; lit "tool"].

Record Author : Type := { role : option jsstring }.

(** [is_user_system_message] holds the truthiness of the field. *)
Record Metadata : Type := {
  is_user_system_message : bool;
  model_slug : option jsstring;
  model : option jsstring
}.

Record RawMessage : Type := {
  raw_id : option jsstring;
  author : option Author;
  content : option RawContent;
  metadata : option Metadata;
  raw_create_time : JsValue
}.

Record RawNode : Type := {
  parent : option jsstring;
  children : option (list jsstring);
  message : option RawMessage
}.

(** The [mapping] object, as its entries in the order of
    [Object.entries]; a key occurs once. *)
Definition Mapping : Type := list (jsstring * RawNode).

Record RawConversation : Type := {
  rc_id : option jsstring;
  rc_title : option jsstring;
  create_time : JsValue;
  update_time : JsValue;
  mapping : option Mapping
}.

(** The result of [parseTimestamp]: [null], or the [Date] object
    [new Date(Number(ts) * 1000)].  The time value of the [Date] is a
    floating-point function of [ts] and is kept symbolic. *)
Inductive Timestamp : Type :=
| TsNull
| TsDate (ts : JsValue).

Record Message : Type := {
  msg_id : jsstring;
  authorRole : jsstring;
  contentParts : list Fragment;
  msg_createdAt : Timestamp;
  modelSlug : option jsstring
}.

Record Conversation : Type := {
  conv_id : jsstring;
  conv_title : jsstring;
  createdAt : Timestamp;
  updatedAt : Timestamp;
  messages : list Message;
  modelSlugs : list jsstring
}.

Record ConversationMeta : Type := {
  meta_id : jsstring;
  meta_title : jsstring;
  meta_createdAt : Timestamp;
  meta_updatedAt : Timestamp;
  messageCount : nat;
  meta_modelSlugs : list jsstring
}.

(** An element of the array [parseConversations] returns. *)
Inductive Parsed : Type :=
| Full (c : Conversation)
| Meta (m : ConversationMeta).

(** The [catch] branch is taken when [Number(ts)] throws; the
    multiplication and [new Date] of a number do not throw. *)
Definition parseTimestamp (ts : JsValue) : Timestamp :=
  match ts with
  | JNull | JUndefined => TsNull
  | _ => if Number_throws ts then TsNull else TsDate ts
  end.

(** An object that has none of the fields of a node: what a member of
    [Object.prototype] looks like to the traversal. *)
Definition blank_node : RawNode :=
  {| parent := None; children := None; message := None |}.

(** [mapping[id]]; [None] is [undefined]. *)
Definition get (mapping : Mapping) (id : jsstring) : option RawNode :=
  match assoc id mapping with
  | Some node => Some node
  | None => if inherited id then Some blank_node else None
  end.

(** The first loop of [traverseTree]: the first entry whose parent is
    [null] or absent. *)
Fixpoint find_root (entries : Mapping) : option jsstring :=
  match entries with
  | [] => None
  | (nodeId, node) :: rest =>
      match parent node with
      | None => Some nodeId
      | Some _ => find_root rest
      end
  end.

(** The second loop: from [leafId], step to the last child until a node
    is missing or has no children. *)
Fixpoint walk_forward (fuel : nat) (mapping : Mapping) (leafId : jsstring)
  : Res jsstring :=
  match fuel with
  | 0 => Timeout
  | S fuel' =>
      match get mapping leafId with
      | None => Ok leafId
      | Some node =>
          match last (default [] (children node)) with
          | None => Ok leafId
          | Some child => walk_forward fuel' mapping child
          end
      end
  end.

(** [(typeof p === 'string' && p.trim()) || (typeof p === 'object' && p !== null)] *)
Definition part_has_content (p : Part) : bool :=
  match p with
  | PString s => nonblank s
  | PObject _ => true
  | POther => false
  end.

(** [(msg.author || {}).role || ''] *)
Definition role_of (msg : RawMessage) : jsstring :=
  or_str (from_option role None (author msg)) [].

(** [(msg.metadata || {}).is_user_system_message || false] *)
Definition user_system_flag (msg : RawMessage) : bool :=
  from_option is_user_system_message false (metadata msg).

(** The body of the third loop for a node that has a message: [true]
    when the message reaches [messages.push(msg)], [false] when one of
    the four [continue] statements is taken. *)
Definition kept (msg : RawMessage) : bool :=
  let role := role_of msg in
  let isUserSystem := user_system_flag msg in
  if bool_decide (role = lit "system") && negb isUserSystem then false
  else if bool_decide (role = lit "tool") then false
  else
    match content msg with
    | None => false
    | Some content =>
        match parts content with
        | None => false
        | Some parts =>
            let hasContent := existsb part_has_content parts in
            if negb hasContent
               && bool_decide (content_type content = Some (lit "text"))
            then false
            else true
        end
    end.

(** The third loop: from [currentId] up the parent pointers, pushing the
    kept messages onto [messages]. *)
Fixpoint walk_back (fuel : nat) (mapping : Mapping)
    (currentId : option jsstring) (messages : list RawMessage)
  : Res (list RawMessage) :=
  match currentId with
  | None => Ok messages
  | Some id =>
      match fuel with
      | 0 => Timeout
      | S fuel' =>
          match get mapping id with
          | None => Ok messages
          | Some node =>
              let messages' :=
                match message node with
                | Some msg => if kept msg then messages ++ [msg] else messages
                | None => messages
                end in
              walk_back fuel' mapping (parent node) messages'
          end
      end
  end.

Definition traverseTree (fuel : nat) (mapping : Mapping) : Res (list RawMessage) :=
  match mapping with
  | [] => Ok []
  | _ =>
      match find_root mapping with
      | None => Ok []
      | Some rootId =>
          leafId ← walk_forward fuel mapping rootId;
          messages ← walk_back fuel mapping (Some leafId) [];
          mret (rev messages)
      end
  end.

(** [a || b || null] on two optional strings. *)
Definition first_truthy (a b : option jsstring) : option jsstring :=
  if truthy a then a else if truthy b then b else None.

Definition parseMessage (raw : RawMessage) : Res Message :=
  let msgId := or_str (raw_id raw) [] in
  let roleStr := or_str (from_option role None (author raw)) (lit "user") in
  let authorRole :=
    if bool_decide (roleStr ∈ VALID_ROLES) then roleStr else lit "user" in
  let content := default empty_content (content raw) in
  contentParts ← renderContent content;
  let createdAt := parseTimestamp (raw_create_time raw) in
  let modelSlug :=
    match metadata raw with
    | Some md => first_truthy (model_slug md) (model md)
    | None => None
    end in
  mret {| msg_id := msgId; authorRole := authorRole;
          contentParts := contentParts; msg_createdAt := createdAt;
          modelSlug := modelSlug |}.

(** [parseMessage] always returns an object, so [filter(Boolean)] keeps
    every element. *)
Definition traverseAndParse (fuel : nat) (mapping : Mapping) : Res (list Message) :=
  match mapping with
  | [] => Ok []
  | _ =>
      rawMessages ← traverseTree fuel mapping;
      mapM parseMessage rawMessages
  end.

Definition countMessages (mapping : Mapping) : nat :=
  length
    (List.filter
       (fun entry : jsstring * RawNode =>
          match message (snd entry) with
          | None => false
          | Some msg =>
              let role := role_of msg in
              bool_decide (role = lit "user")
              || bool_decide (role = lit "assistant")
          end)
       mapping).

Definition extractModelSlugs (mapping : Mapping) : list jsstring :=
  Set_from
    (flat_map
       (fun entry : jsstring * RawNode =>
          match message (snd entry) with
          | None => []
          | Some msg =>
              match metadata msg with
              | None => []
              | Some md =>
                  match first_truthy (model_slug md) (model md) with
                  | Some slug => [slug]
                  | None => []
                  end
              end
          end)
       mapping).

(** [new Set(messages.filter(m => m.modelSlug).map(m => m.modelSlug))] *)
Definition slugs_of (messages : list Message) : list jsstring :=
  Set_from
    (flat_map
       (fun m => if truthy (modelSlug m) then [or_str (modelSlug m) []] else [])
       messages).

Definition parseOne (fuel : nat) (metadataOnly : bool) (rawConv : RawConversation)
  : Res Parsed :=
  let convId := or_str (rc_id rawConv) [] in
  let title := or_str (rc_title rawConv) (lit "Untitled") in
  let createdAt := parseTimestamp (create_time rawConv) in
  let updatedAt := parseTimestamp (update_time rawConv) in
  let mapping := default [] (mapping rawConv) in
  if metadataOnly then
    mret (Meta {| meta_id := convId; meta_title := title;
                  meta_createdAt := createdAt; meta_updatedAt := updatedAt;
                  messageCount := countMessages mapping;
                  meta_modelSlugs := extractModelSlugs mapping |})
  else
    messages ← traverseAndParse fuel mapping;
    mret (Full {| conv_id := convId; conv_title := title;
                  createdAt := createdAt; updatedAt := updatedAt;
                  messages := messages;
                  modelSlugs := slugs_of messages |}).

(** The loop of [parseConversations]: one [results.push] per record. *)
Definition parseConversations (fuel : nat) (metadataOnly : bool)
    (rawData : list RawConversation) : Res (list Parsed) :=
  mapM (parseOne fuel metadataOnly) rawData.

(** ** The shape of a mapping *)

(** [last_child_path mapping id ids]: [ids] lists the nodes met from [id]
    on by stepping to the last child until a node has no children; all of
    them are nodes of the mapping. *)
Inductive last_child_path (mapping : Mapping)
  : jsstring -> list jsstring -> Prop :=
| path_leaf id node :
    assoc id mapping = Some node ->
    last (default [] (children node)) = None ->
    last_child_path mapping id [id]
| path_step id node child rest :
    assoc id mapping = Some node ->
    last (default [] (children node)) = Some child ->
    last_child_path mapping child rest ->
    last_child_path mapping id (id :: rest).

(** The parent pointers along [ids] agree with the order of [ids]: the
    parent of the first is [above], the parent of each other node is the
    node before it. *)
Fixpoint parents_agree (mapping : Mapping) (above : option jsstring)
    (ids : list jsstring) : Prop :=
  match ids with
  | [] => True
  | id :: rest =>
      (exists node, assoc id mapping = Some node /\ parent node = above)
      /\ parents_agree mapping (Some id) rest
  end.

(** What the third loop pushes when it visits [id]. *)
Definition pushed (mapping : Mapping) (id : jsstring) : list RawMessage :=
  match get mapping id with
  | Some node =>
      match message node with
      | Some msg => if kept msg then [msg] else []
      | None => []
      end
  | None => []
  end.

Definition path_messages (mapping : Mapping) (ids : list jsstring)
  : list RawMessage :=
  flat_map (pushed mapping) ids.

(** A mapping that is a linear chain: its keys are the distinct [ids],
    node [k] has node [k-1] for parent, node [k+1] for only child, and
    carries message [k] of [msgs]. *)
Definition is_chain (mapping : Mapping) (ids : list jsstring)
    (msgs : list RawMessage) : Prop :=
  List.map fst mapping ≡ₚ ids
  /\ NoDup ids
  /\ length msgs = length ids
  /\ forall k id,
       ids !! k = Some id ->
       exists node,
         assoc id mapping = Some node
         /\ parent node = match k with 0 => None | S j => ids !! j end
         /\ default [] (children node) = option_list (ids !! S k)
         /\ message node = msgs !! k.

(** A non-empty text message written by the user or the assistant. *)
Definition plain_text_message (msg : RawMessage) : Prop :=
  (exists a, author msg = Some a
             /\ (role a = Some (lit "user") \/ role a = Some (lit "assistant")))
  /\ exists c ps s,
       content msg = Some c
       /\ content_type c = Some (lit "text")
       /\ parts c = Some ps
       /\ PString s ∈ ps
       /\ nonblank s = true.

(** The content rules of the third loop, the last two [continue]
    statements: a payload with a [parts] array that, for the content type
    [text], has a part with content. *)
Definition passes_content_rules (msg : RawMessage) : bool :=
  match content msg with
  | None => false
  | Some c =>
      match parts c with
      | None => false
      | Some ps =>
          existsb part_has_content ps
          || negb (bool_decide (content_type c = Some (lit "text")))
      end
  end.

(** The declared content type [renderContent] dispatches on for a
    message. *)
Definition dispatch_type (msg : RawMessage) : jsstring :=
  or_str (content_type (default empty_content (content msg))) (lit "text").

(** ** Shapes of a raw conversation record *)

(** No message: a mapping that is missing, empty, or has no root. *)
Definition degenerate (rawConv : RawConversation) : Prop :=
  mapping rawConv = None
  \/ mapping rawConv = Some []
  \/ exists m, mapping rawConv = Some m /\ find_root m = None.

(** ** The two walks of [traverseTree], as shapes of the mapping *)

(** [forward_ends mapping id leafId]: stepping from [id] to the last child,
    again and again, comes in finitely many steps to [leafId], a name that
    is no node or a node without children.  This is the second loop. *)
Inductive forward_ends (mapping : Mapping) : jsstring -> jsstring -> Prop :=
| forward_missing id :
    get mapping id = None -> forward_ends mapping id id
| forward_leaf id node :
    get mapping id = Some node ->
    last (default [] (children node)) = None ->
    forward_ends mapping id id
| forward_step id node child leafId :
    get mapping id = Some node ->
    last (default [] (children node)) = Some child ->
    forward_ends mapping child leafId ->
    forward_ends mapping id leafId.

(** The nodes the third loop of [traverseTree] visits from [currentId]
    on, until [currentId] is [null] or names no node. *)
Inductive visits (mapping : Mapping) : option jsstring -> list jsstring -> Prop :=
| visits_null : visits mapping None []
| visits_missing id : get mapping id = None -> visits mapping (Some id) []
| visits_node id node rest :
    get mapping id = Some node ->
    visits mapping (parent node) rest ->
    visits mapping (Some id) (id :: rest).

(** The walked path of a mapping: the nodes met on the way back along the
    parent pointers from the end of the last-child chain of the root, leaf
    first.  There is one only when both chains are finite. *)
Definition walked (mapping : Mapping) (ids : list jsstring) : Prop :=
  match find_root mapping with
  | None => ids = []
  | Some rootId =>
      exists leafId,
        forward_ends mapping rootId leafId
        /\ visits mapping (Some leafId) ids
  end.

(** The last-child chain from the root and the parent chain from its end
    are finite: the mapping of the record has a walked path. *)
Definition walks_end (rawConv : RawConversation) : Prop :=
  exists ids, walked (default [] (mapping rawConv)) ids.

(** No message selects a member of [Object.prototype] for handler. *)
Definition plain_types (rawConv : RawConversation) : Prop :=
  forall id node msg,
    (id, node) ∈ default [] (mapping rawConv) ->
    message node = Some msg ->
    inherited (dispatch_type msg) = false.

End Parser.
Export Parser.

(* ===================================================================== *)
(** * splitter.js: splitting a conversation at message boundaries *)
(* ===================================================================== *)

Module Splitter.

Definition DEFAULT_MAX_SIZE : Z := 90000.
Definition OVERHEAD_PER_MSG : Z := 50.

(** [msg.contentParts.reduce((sum, p) => sum + (p.text || '').length, 0)
     + OVERHEAD_PER_MSG] *)
Definition msgSize (msg : Message) : Z :=
  (fold_left (fun sum p => sum + Z.of_nat (length (frag_text p)))
             (contentParts msg) 0
   + OVERHEAD_PER_MSG)%Z.

Definition makePart (original : Conversation) (messages : list Message)
    (partNum : nat) : Conversation :=
  {| conv_id := conv_id original ++ lit "_part" ++ decimal partNum;
     conv_title := conv_title original ++ lit " (Part " ++ decimal partNum ++ lit ")";
     createdAt := createdAt original;
     updatedAt := updatedAt original;
     messages := messages;
     modelSlugs := slugs_of messages |}.

(** The variables of the loop in [splitAtMessages]:
    [parts], [currentMessages], [currentSize], [partNum]. *)
Definition SplitState : Type :=
  (list Conversation * list Message * Z * nat)%type.

Definition split_step (conversation : Conversation) (maxSize : Z)
    (st : SplitState) (msg : Message) : SplitState :=
  let '(parts, currentMessages, currentSize, partNum) := st in
  let msgSize := msgSize msg in
  let '(parts, currentMessages, currentSize, partNum) :=
    if (currentSize + msgSize >? maxSize)%Z
       && negb (bool_decide (length currentMessages = 0))
    then (parts ++ [makePart conversation currentMessages partNum],
          [], 0%Z, partNum + 1)
    else (parts, currentMessages, currentSize, partNum) in
  (parts, currentMessages ++ [msg], (currentSize + msgSize)%Z, partNum).

Definition splitAtMessages (conversation : Conversation) (maxSize : Z)
  : list Conversation :=
  match messages conversation with
  | [] => [conversation]
  | msgs =>
      let '(parts, currentMessages, _, partNum) :=
        fold_left (split_step conversation maxSize) msgs ([], [], 0%Z, 1) in
      let parts :=
        match currentMessages with
        | [] => parts
        | _ => parts ++ [makePart conversation currentMessages partNum]
        end in
      match parts with
      | [_] => [conversation]
      | _ => parts
      end
  end.

(** What holds of the loop variables once the messages [done] have been
    taken. *)
Definition split_inv (conversation : Conversation)
    (done : list Message) (st : SplitState) : Prop :=
  let '(parts, currentMessages, _, partNum) := st in
  concat (List.map messages parts) ++ currentMessages = done
  /\ Forall (fun part => messages part <> []) parts
  /\ partNum = length parts + 1
  /\ (forall k part, parts !! k = Some part ->
                     part = makePart conversation (messages part) (k + 1))
  /\ (done <> [] -> currentMessages <> []).

Section MaybeSplit.
(** [conversationToMarkdown] of markdown-writer.js, with its default
    options. *)
Variable conversationToMarkdown : Conversation -> jsstring.

Definition maybeSplit (conversation : Conversation) (maxSize : Z)
  : list Conversation :=
  let markdown := conversationToMarkdown conversation in
  if (Z.of_nat (length markdown) <=? maxSize)%Z then [conversation]
  else splitAtMessages conversation maxSize.
End MaybeSplit.

End Splitter.
Export Splitter.

(* ===================================================================== *)
(** * synthesis/topic-clusterer.js: topic clusters *)
(* ===================================================================== *)

Module Clusterer.

Definition TOPIC_TEMPLATES : list (jsstring * jsstring) :=
  List.map (fun kv : string * string => (lit (fst kv), lit (snd kv)))
    [ ("python", "Your Python Projects");
      ("javascript", "Your JavaScript Projects");
      ("typescript", "Your TypeScript Projects");
      ("react", "Your React Development");
      ("java", "Your Java Projects");
      ("rust", "Your Rust Projects");
      ("golang", "Your Go Projects");
      ("sql", "Your Database Work");
      ("css", "Your Web Styling");
      ("html", "Your Web Development");
      ("api", "Your API Design");
      ("docker", "Your DevOps Work");
      ("aws", "Your Cloud Infrastructure");
      ("recipe", "Your Cooking & Recipes");
      ("cook", "Your Cooking & Recipes");
      ("food", "Your Food & Cooking");
      ("travel", "Your Travel Research");
      ("trip", "Your Travel Plans");
      ("health", "Your Health & Wellness");
      ("fitness", "Your Fitness Journey");
      ("writing", "Your Writing Projects");
      ("email", "Your Email & Communication");
      ("resume", "Your Career Development");
      ("interview", "Your Career Preparation");
      ("math", "Your Math & Calculations");
      ("data", "Your Data Analysis");
      ("design", "Your Design Work");
      ("business", "Your Business Ideas");
      ("marketing", "Your Marketing Strategy");
      ("finance", "Your Financial Planning");
      ("learning", "Your Learning & Education") ]%string.

(** The similarities are ratios of two set sizes; they are kept as exact
    rationals.  For keyword sets of at most twenty terms, which is what
    [clusterConversations] builds, two such ratios that differ are
    rounded to doubles that differ the same way, and [3/20] is rounded to
    the double of the literal [0.15], so every comparison below gives
    what the floating-point comparison gives. *)
Definition SIMILARITY_THRESHOLD : Q := 15 # 100.
Definition MIN_CLUSTER_SIZE : nat := 2.

Definition Qltb (a b : Q) : bool := negb (Qle_bool b a).

Record Cluster : Type := {
  label : jsstring;
  conversations : list Conversation;
  keywords : list jsstring
}.

Definition jaccardSimilarity (setA setB : list jsstring) : Q :=
  let intersection :=
    length (List.filter (fun item => bool_decide (item ∈ setB)) setA) in
  let union := length setA + length setB - intersection in
  if union =? 0 then 0%Q
  else (Z.of_nat intersection # Pos.of_nat union)%Q.

(** [topKeywords[i]], a [Set] given as the list of its members in insertion
    order, without repetition; every index the program uses is in range. *)
Definition keywordsAt (topKeywords : list (list jsstring)) (i : nat)
  : list jsstring :=
  default [] (topKeywords !! i).

Definition maxPairwiseSimilarity (indicesA indicesB : list nat)
    (topKeywords : list (list jsstring)) : Q :=
  fold_left
    (fun maxSim i =>
       fold_left
         (fun maxSim j =>
            let sim := jaccardSimilarity (keywordsAt topKeywords i)
                                         (keywordsAt topKeywords j) in
            if Qltb maxSim sim then sim else maxSim)
         indicesB maxSim)
    indicesA 0%Q.

(** The pairs [(i, j)] with [i < j < n], in the order of the two nested
    [for] loops. *)
Definition pairs (n : nat) : list (nat * nat) :=
  flat_map (fun i => List.map (fun j => (i, j)) (seq (i + 1) (n - (i + 1))))
           (seq 0 n).

(** [bestSim] and [(bestI, bestJ)] after the nested loops; [None] is
    [bestI === -1]. *)
Definition find_best (topKeywords : list (list jsstring))
    (clusters : list (list nat)) : Q * option (nat * nat) :=
  fold_left
    (fun best ij =>
       let sim := maxPairwiseSimilarity (default [] (clusters !! fst ij))
                                        (default [] (clusters !! snd ij))
                                        topKeywords in
       if Qltb (fst best) sim then (sim, Some ij) else best)
    (pairs (length clusters)) (0%Q, None).

(** [clusters[bestI].indices.push(...clusters[bestJ].indices);
     clusters.splice(bestJ, 1)] *)
Definition merge (bestI bestJ : nat) (clusters : list (list nat))
  : list (list nat) :=
  delete bestJ
    (alter (fun indices => indices ++ default [] (clusters !! bestJ))
           bestI clusters).

Lemma find_best_bound topKeywords clusters bestSim bestI bestJ :
  find_best topKeywords clusters = (bestSim, Some (bestI, bestJ)) ->
  bestI < bestJ /\ bestJ < length clusters.
Proof.
  unfold find_best.
  assert (Hp : Forall (fun ij => fst ij < snd ij /\ snd ij < length clusters)
                      (pairs (length clusters))).
  { unfold pairs. apply List.Forall_forall. intros [i j] Hin.
    apply in_flat_map in Hin as (i' & Hi' & Hin).
    apply in_map_iff in Hin as (j' & Heq & Hj').
    inversion Heq; subst. apply in_seq in Hi'. apply in_seq in Hj'.
    simpl. lia. }
  set (step := fun (best : Q * option (nat * nat)) (ij : nat * nat) => _).
  assert (Hgen : forall ps init,
             Forall (fun ij => fst ij < snd ij /\ snd ij < length clusters) ps ->
             (forall q i j, init = (q, Some (i, j)) -> i < j /\ j < length clusters) ->
             forall q i j, fold_left step ps init = (q, Some (i, j)) ->
                           i < j /\ j < length clusters).
  { induction ps as [|p ps IH]; intros init Hps Hinit q i j Hfold.
    - simpl in Hfold. eauto.
    - simpl in Hfold. inversion Hps as [|? ? Hp1 Hps']; subst.
      eapply IH; [exact Hps' | | exact Hfold].
      intros q' i' j' Hstep. unfold step in Hstep.
      destruct (Qltb (fst init) _).
      + inversion Hstep; subst. exact Hp1.
      + eauto. }
  intros Hfold. eapply Hgen; [exact Hp | | exact Hfold].
  intros q i j Habs. discriminate Habs.
Qed.

Lemma merge_length bestI bestJ clusters :
  bestJ < length clusters ->
  length (merge bestI bestJ clusters) < length clusters.
Proof.
  intros Hj. unfold merge.
  rewrite length_delete.
  - rewrite length_alter. lia.
  - apply lookup_lt_is_Some. rewrite length_alter. exact Hj.
Qed.

(** The [while (true)] loop of [agglomerativeCluster].  Every merge
    removes one cluster, which bounds the number of turns. *)
Equations? merge_loop (topKeywords : list (list jsstring))
    (clusters : list (list nat)) : list (list nat)
    by wf (length clusters) lt :=
  merge_loop topKeywords clusters with Logic.inspect (find_best topKeywords clusters) => {
    | exist _ (bestSim, Some (bestI, bestJ)) Hbest
        with Logic.inspect (Qltb bestSim SIMILARITY_THRESHOLD) => {
        | exist _ true _ => clusters
        | exist _ false _ =>
            merge_loop topKeywords (merge bestI bestJ clusters) }
    | exist _ (bestSim, None) _ => clusters }.
Proof.
  apply merge_length.
  eapply find_best_bound. exact Hbest.
Qed.

Definition agglomerativeCluster (conversations : list Conversation)
    (topKeywords : list (list jsstring)) : list (list nat) :=
  let clusters := List.map (fun i => [i]) (seq 0 (length conversations)) in
  let clusters := merge_loop topKeywords clusters in
  let realClusters :=
    List.filter (fun c => MIN_CLUSTER_SIZE <=? length c) clusters in
  let singles :=
    List.filter (fun c => length c <? MIN_CLUSTER_SIZE) clusters in
  match singles with
  | [] => realClusters
  | _ => realClusters ++ [concat singles]
  end.

(** The value of a key that is an array index (a canonical decimal
    numeral below [2^32 - 1]): such keys come first, in numeric order,
    when the keys of an object are listed. *)
Definition array_index (k : jsstring) : option N :=
  match k with
  | [] => None
  | c :: rest =>
      if forallb (in_range 48 57) k
         && (negb (c =? 48)%N || bool_decide (rest = []))
         && (length k <=? 10)
      then
        let v := fold_left (fun acc d => (10 * acc + (d - 48))%N) k 0%N in
        if (v <=? 4294967294)%N then Some v else None
      else None
  end.

(** Where a new key lands in the listing of an object: an array index
    goes among the array indices, in numeric order; any other key goes
    last. *)
Fixpoint add_key (counts : list (jsstring * nat)) (term : jsstring)
    (value : nat) : list (jsstring * nat) :=
  match counts with
  | [] => [(term, value)]
  | (k, n) :: rest =>
      match array_index term, array_index k with
      | Some t, Some i =>
          if (t <? i)%N then (term, value) :: counts
          else (k, n) :: add_key rest term value
      | Some _, None => (term, value) :: counts
      | None, _ => (k, n) :: add_key rest term value
      end
  end.

(** [counts[term] = (counts[term] || 0) + 1] on an object listed in the
    order of [Object.entries]. *)
Definition bump (counts : list (jsstring * nat)) (term : jsstring)
  : list (jsstring * nat) :=
  match assoc term counts with
  | Some _ =>
      List.map (fun kv : jsstring * nat =>
                  if bool_decide (fst kv = term) then (fst kv, snd kv + 1) else kv)
               counts
  | None => add_key counts term 1
  end.

(** One step of the stable [sort((a, b) => b[1] - a[1])]: [x] goes in
    front of the first entry whose count is not larger. *)
Fixpoint insert_desc (x : jsstring * nat) (sorted : list (jsstring * nat))
  : list (jsstring * nat) :=
  match sorted with
  | [] => [x]
  | y :: rest =>
      if snd x <? snd y then y :: insert_desc x rest else x :: sorted
  end.

Definition sort_desc (l : list (jsstring * nat)) : list (jsstring * nat) :=
  fold_right insert_desc [] l.

(** Terms that name a member of [Object.prototype] are outside this
    model: for them [counts[term]] is not a number. *)
Definition getClusterKeywords (indices : list nat)
    (topKeywords : list (list jsstring)) : list jsstring :=
  let counts :=
    fold_left
      (fun counts i => fold_left bump (keywordsAt topKeywords i) counts)
      indices [] in
  List.map fst (sort_desc counts).

Section Labels.
(** [String.prototype.toUpperCase], a built-in of the language. *)
Variable toUpperCase : jsstring -> jsstring.

(** As in [getClusterKeywords], a keyword that names a member of
    [Object.prototype] is outside this model: [TOPIC_TEMPLATES[keyword]] is
    then a truthy value that is not a string. *)
Definition generateLabel (keywords : list jsstring) : jsstring :=
  match
    List.find (fun keyword => bool_decide (is_Some (assoc keyword TOPIC_TEMPLATES)))
              keywords
  with
  | Some keyword => default [] (assoc keyword TOPIC_TEMPLATES)
  | None =>
      match keywords with
      | word :: _ => lit "Topic: " ++ toUpperCase (take 1 word) ++ drop 1 word
      | [] => lit "General"
      end
  end.

(** Steps 1 to 3 of [clusterConversations]: the keyword set of one
    conversation, the twenty terms of highest TF-IDF score within the
    whole list.  The scores are floating-point logarithms; the set they
    select is taken as given. *)
Variable topKeywordsOf : list Conversation -> Conversation -> list jsstring.

Definition clusterConversations (conversations : list Conversation)
  : list Cluster :=
  if length conversations <? 2 then
    [ {| label := lit "All Conversations";
         conversations := conversations;
         keywords := [] |} ]
  else
    let topKeywords := List.map (topKeywordsOf conversations) conversations in
    let clusters := agglomerativeCluster conversations topKeywords in
    List.map
      (fun indices =>
         let keywords := getClusterKeywords indices topKeywords in
         {| label := generateLabel keywords;
            conversations := omap (fun i => conversations !! i) indices;
            keywords := take 10 keywords |})
      clusters.
End Labels.

End Clusterer.
Export Clusterer.

(* ===================================================================== *)
(** * organizer.js: file names and collision-free paths *)
(* ===================================================================== *)

Module Organizer.

(** The first character class of [sanitizeFilename]: the control codes
    0 to 31 and the nine characters less-than, greater-than, colon,
    double quote, slash, backslash, bar, question mark and star. *)
Definition forbidden (c : N) : bool :=
  (c <=? 31)%N
  || bool_decide (c ∈ [60; 62; 58; 34; 47; 92; 124; 63; 42]%N).

(** [[\w\-.]] *)
Definition is_name_char (c : N) : bool :=
  is_word c || (c =? 45)%N || (c =? 46)%N.

(** [[._]] *)
Definition is_sep (c : N) : bool := (c =? 46)%N || (c =? 95)%N.

(** [s.replace(/\s+/g, '_')]: [in_run] tells that the previous code unit
    was white space, whose run has already produced its underscore. *)
Fixpoint collapse_spaces (in_run : bool) (s : jsstring) : jsstring :=
  match s with
  | [] => []
  | c :: r =>
      if is_space c
      then (if in_run then collapse_spaces true r
            else 95%N :: collapse_spaces true r)
      else c :: collapse_spaces false r
  end.

(** [s.replace(/^[._]+|[._]+$/g, '')] *)
Definition strip_seps (s : jsstring) : jsstring :=
  skip_while_end is_sep (skip_while is_sep s).

(** What is left of the title after the four [replace] calls and the
    [trim]. *)
Definition surviving (title : jsstring) : jsstring :=
  let safe := List.filter (fun c => negb (forbidden c)) title in
  let safe := collapse_spaces false (trim safe) in
  let safe := List.filter is_name_char safe in
  strip_seps safe.

Definition sanitizeFilename (title : jsstring) (maxLength : nat) : jsstring :=
  let safe := surviving title in
  let safe := match safe with [] => lit "untitled" | _ => safe end in
  take maxLength safe.

Definition DEFAULT_MAX_LENGTH : nat := 100.

Section Dedup.
(** [String.prototype.toLowerCase], a built-in of the language. *)
Variable toLowerCase : jsstring -> jsstring.

(** [`${path.slice(0, dotIdx)}_${count}${path.slice(dotIdx)}`] when the
    last dot sits at a positive index, [`${path}_${count}`] otherwise. *)
Definition with_suffix (path : jsstring) (count : nat) : jsstring :=
  match lastIndexOf 46 path with
  | Some (S d) =>
      take (S d) path ++ lit "_" ++ decimal count ++ drop (S d) path
  | _ => path ++ lit "_" ++ decimal count
  end.

(** [usedPaths] is mutated in place by the source; here the updated map
    is returned next to the path. *)
Definition deduplicatePath (path : jsstring) (usedPaths : gmap jsstring nat)
  : jsstring * gmap jsstring nat :=
  let key := toLowerCase path in
  match usedPaths !! key with
  | Some n =>
      let count := n + 1 in
      (with_suffix path count, <[key := count]> usedPaths)
  | None => (path, <[key := 0]> usedPaths)
  end.

(** A run of registrations against one map, in order. *)
Fixpoint registerAll (paths : list jsstring) (usedPaths : gmap jsstring nat)
  : list jsstring * gmap jsstring nat :=
  match paths with
  | [] => ([], usedPaths)
  | p :: rest =>
      let '(out, used1) := deduplicatePath p usedPaths in
      let '(outs, used2) := registerAll rest used1 in
      (out :: outs, used2)
  end.

(** How many of the first [i] registrations have the key of [p]. *)
Definition prior_registrations (paths : list jsstring) (i : nat)
    (p : jsstring) : nat :=
  length (List.filter (fun q => bool_decide (toLowerCase q = toLowerCase p))
                      (take i paths)).
End Dedup.

(** [toLowerCase] restricted to ASCII, for running examples. *)
Definition ascii_lower (s : jsstring) : jsstring :=
  List.map (fun c => if in_range 65 90 c then (c + 32)%N else c) s.

Section Paths.
(** [String(d.getUTCFullYear())] and
    [String(d.getUTCMonth() + 1).padStart(2, '0')] for the [Date] made from
    a time stamp: built-ins of the language. *)
Variable utcYear : JsValue -> jsstring.
Variable utcMonth : JsValue -> jsstring.

Definition resolveOutputPath (conversation : Conversation)
    (mode baseDir : jsstring) : jsstring :=
  let safeName := sanitizeFilename (conv_title conversation) DEFAULT_MAX_LENGTH in
  if bool_decide (mode = lit "flat") then
    baseDir ++ lit "/" ++ safeName ++ lit ".md"
  else
    let subdir :=
      match createdAt conversation with
      | TsDate d =>
          let y := utcYear d in
          let m := utcMonth d in
          if bool_decide (mode = lit "monthly") then y ++ lit "-" ++ m else y
      | TsNull => lit "undated"
      end in
    baseDir ++ lit "/" ++ subdir ++ lit "/" ++ safeName ++ lit ".md".
End Paths.

End Organizer.


(* ===================================================================== *)
(** * Quantities used in the statements *)
(* ===================================================================== *)

Module Notions.

(** The similarity the nested loops of [agglomerativeCluster] compute for
    the pair [ij] of cluster positions. *)
Definition pair_similarity (topKeywords : list (list jsstring))
    (clusters : list (list nat)) (ij : nat * nat) : Q :=
  maxPairwiseSimilarity (default [] (clusters !! fst ij))
                        (default [] (clusters !! snd ij)) topKeywords.

(** How many times [term] occurs in [terms]. *)
Definition occurrences (term : jsstring) (terms : list jsstring) : nat :=
  length (List.filter (fun t => bool_decide (t = term)) terms).

(** How many times [term] occurs in the keyword sets of the conversations
    at [indices]. *)
Definition term_occurrences (topKeywords : list (list jsstring))
    (indices : list nat) (term : jsstring) : nat :=
  occurrences term (flat_map (keywordsAt topKeywords) indices).

(** The counting object after the terms [ts]: one entry for each term that
    occurred, holding the number of its occurrences. *)
Definition counted (ts : list jsstring) (counts : list (jsstring * nat)) : Prop :=
  NoDup (List.map fst counts)
  /\ forall k n, (k, n) ∈ counts <-> n = occurrences k ts /\ 0 < n.

(** The size [splitAtMessages] estimates for a run of messages: the sum
    of their [msgSize]. *)
Definition estimatedSize (msgs : list Message) : Z :=
  fold_right (fun msg total => (msgSize msg + total)%Z) 0%Z msgs.

(** A run of messages that is within the threshold, or that could not be
    made shorter. *)
Definition fits (maxSize : Z) (msgs : list Message) : Prop :=
  length msgs <= 1 \/ (estimatedSize msgs <= maxSize)%Z.

(** Every run but the last was closed because the first message of the
    next one would have taken it over the threshold. *)
Definition closed_when_full (maxSize : Z) (groups : list (list Message))
  : Prop :=
  forall k g g', groups !! k = Some g -> groups !! S k = Some g' ->
    exists m, head g' = Some m /\ (maxSize < estimatedSize g + msgSize m)%Z.

(** What holds of the sizes in the loop of [splitAtMessages]. *)
Definition split_size_inv (maxSize : Z) (st : SplitState) : Prop :=
  let '(parts, currentMessages, currentSize, _) := st in
  currentSize = estimatedSize currentMessages
  /\ Forall (fits maxSize) (List.map messages parts ++ [currentMessages])
  /\ closed_when_full maxSize (List.map messages parts ++ [currentMessages]).

(** [role === 'user' || role === 'assistant'] *)
Definition user_or_assistant (msg : RawMessage) : bool :=
  bool_decide (role_of msg = lit "user")
  || bool_decide (role_of msg = lit "assistant").

(** The entries of a mapping whose message satisfies [P]. *)
Definition entries_with (P : RawMessage -> bool) (mapping : Mapping)
  : list (jsstring * RawNode) :=
  List.filter (fun entry : jsstring * RawNode =>
                 match message (snd entry) with
                 | Some msg => P msg
                 | None => false
                 end) mapping.

End Notions.

(* ===================================================================== *)
(** * Sample inputs *)
(* ===================================================================== *)

Module Samples.

Definition text_fragment (t : string) : Fragment :=
  {| contentType := TEXT; frag_text := lit t; extra := NoExtra |}.

Definition message_of (id role t : string) (slug : option jsstring) : Message :=
  {| msg_id := lit id; authorRole := lit role;
     contentParts := [text_fragment t]; msg_createdAt := TsNull;
     modelSlug := slug |}.

(** Three messages of size 55 each. *)
Definition chat : Conversation :=
  {| conv_id := lit "c1"; conv_title := lit "Chat";
     createdAt := TsDate (JNumber (1700000000 # 1)); updatedAt := TsNull;
     messages :=
       [ message_of "m1" "user" "hello" None;
         message_of "m2" "assistant" "howdy" (Some (lit "gpt-4"));
         message_of "m3" "user" "again" None ];
     modelSlugs := [lit "gpt-4"] |}.

(** A raw message with one text part. *)
Definition raw_text (id role t : string) (md : option Metadata) : RawMessage :=
  {| raw_id := Some (lit id);
     author := Some {| role := Some (lit role) |};
     content := Some {| content_type := Some (lit "text");
                        parts := Some [PString (lit t)];
                        text := None; language := None; result := None;
                        title := None; url := None |};
     metadata := md;
     raw_create_time := JNull |}.

Definition flag_set : option Metadata :=
  Some {| is_user_system_message := true; model_slug := None; model := None |}.

Definition entry (id : string) (parent : option string)
    (children : list string) (msg : option RawMessage) : jsstring * RawNode :=
  (lit id,
   {| Parser.parent := option_map lit parent;
      Parser.children := Some (List.map lit children);
      message := msg |}).

(** A chain of three nodes. *)
Definition chain3 : Mapping :=
  [ entry "a" None ["b"] (Some (raw_text "ma" "user" "hi" None));
    entry "b" (Some "a") ["c"] (Some (raw_text "mb" "assistant" "hello" None));
    entry "c" (Some "b") [] (Some (raw_text "mc" "user" "thanks" None)) ]%string.

(** A question whose answer was regenerated: [old] is the earlier
    sibling, [new] the last child. *)
Definition branching : Mapping :=
  [ entry "q" None ["old"; "new"] (Some (raw_text "mq" "user" "why" None));
    entry "old" (Some "q") ["old2"] (Some (raw_text "m1" "assistant" "first" None));
    entry "old2" (Some "old") [] (Some (raw_text "m2" "user" "hm" None));
    entry "new" (Some "q") [] (Some (raw_text "m3" "assistant" "second" None)) ]%string.

(** A regenerated answer whose parent pointer names the earlier answer,
    not the question: the parent pointers disagree with the children
    lists. *)
Definition crossed : Mapping :=
  [ entry "q" None ["old"; "new"] (Some (raw_text "mq" "user" "why" None));
    entry "old" (Some "q") [] (Some (raw_text "m1" "assistant" "first" None));
    entry "new" (Some "old") [] (Some (raw_text "m3" "assistant" "second" None)) ]%string.

(** A user-written system message with text, a user message, a tool
    message, a system message without the flag, an assistant message. *)
Definition with_roles : Mapping :=
  [ entry "s1" None ["u"] (Some (raw_text "ms1" "system" "Be brief" flag_set));
    entry "u" (Some "s1") ["t"] (Some (raw_text "mu" "user" "hi" None));
    entry "t" (Some "u") ["s2"] (Some (raw_text "mt" "tool" "result" flag_set));
    entry "s2" (Some "t") ["a"] (Some (raw_text "ms2" "system" "hidden" None));
    entry "a" (Some "s2") [] (Some (raw_text "ma" "assistant" "hello" None)) ]%string.

(** A system message with the flag set and a single empty text part. *)
Definition flagged_blank : RawMessage :=
  {| raw_id := Some (lit "ms");
     author := Some {| role := Some (lit "system") |};
     content := Some {| content_type := Some (lit "text");
                        parts := Some [PString []];
                        text := None; language := None; result := None;
                        title := None; url := None |};
     metadata := flag_set;
     raw_create_time := JNull |}.

Definition only_flagged_blank : Mapping :=
  [ entry "s" None [] (Some flagged_blank) ]%string.

(** A root that lists itself as its child. *)
Definition self_loop : Mapping :=
  [ entry "a" None ["a"] None ]%string.

Definition record (id : string) (m : option Mapping) : RawConversation :=
  {| rc_id := Some (lit id); rc_title := None;
     create_time := JNumber (1700000000 # 1); update_time := JNull;
     mapping := m |}.

(** Two nodes that name each other as parent: no root. *)
Definition rootless : Mapping :=
  [ entry "a" (Some "b") ["b"] None; entry "b" (Some "a") ["a"] None ]%string.

(** [{ content_type: ct, text: 'hello' }] *)
Definition hello_payload (ct : jsstring) : RawContent :=
  {| content_type := Some ct; parts := None; text := Some (lit "hello");
     language := None; result := None; title := None; url := None |}.

(** [{ content_type: 'unknown_format' }] *)
Definition unknown_format_payload : RawContent :=
  {| content_type := Some (lit "unknown_format"); parts := None; text := None;
     language := None; result := None; title := None; url := None |}.

(** A conversation without messages, known by its title. *)
Definition titled (t : string) : Conversation :=
  {| conv_id := lit t; conv_title := lit t; createdAt := TsNull;
     updatedAt := TsNull; messages := []; modelSlugs := [] |}.

(** A stand-in for the keyword extraction: the title is the one keyword. *)
Definition title_keyword (corpus : list Conversation) (c : Conversation)
  : list jsstring :=
  [conv_title c].

(** A stand-in for the Markdown renderer: one character per message. *)
Definition one_char_per_message (c : Conversation) : jsstring :=
  List.map (fun _ => 35%N) (messages c).

(** An answer that names its model, and an earlier answer, on a branch the
    traversal leaves aside, that names another. *)
Definition with_models : Mapping :=
  [ entry "q" None ["old"; "new"] (Some (raw_text "mq" "user" "why" None));
    entry "old" (Some "q") []
      (Some (raw_text "m1" "assistant" "first"
               (Some {| is_user_system_message := false;
                        model_slug := Some (lit "gpt-3.5"); model := None |})));
    entry "new" (Some "q") []
      (Some (raw_text "m2" "assistant" "second"
               (Some {| is_user_system_message := false;
                        model_slug := Some (lit "gpt-4"); model := None |}))) ]%string.

End Samples.

(* ===================================================================== *)
(** * Properties of the path organizer *)
(* ===================================================================== *)

Section OrganizerFacts.
Import Organizer.

Lemma skip_while_Forall (P : N -> Prop) p s :
  Forall P s -> Forall P (skip_while p s).
Proof.
  induction 1 as [|c r Hc Hr IH]; simpl; [constructor|].
  destruct (p c); [exact IH | constructor; assumption].
Qed.

Lemma skip_while_end_Forall (P : N -> Prop) p s :
  Forall P s -> Forall P (skip_while_end p s).
Proof.
  intros H. unfold skip_while_end.
  apply Forall_rev, skip_while_Forall, Forall_rev, H.
Qed.

Lemma filter_Forall_true (p : N -> bool) s :
  Forall (fun c => p c = true) (List.filter p s).
Proof.
  apply List.Forall_forall. intros c Hc. apply filter_In in Hc. tauto.
Qed.

Lemma surviving_name_chars title :
  Forall (fun c => is_name_char c = true) (surviving title).
Proof.
  unfold surviving, strip_seps.
  apply skip_while_end_Forall, skip_while_Forall, filter_Forall_true.
Qed.

Lemma sanitizeFilename_spec title maxLength :
  0 < maxLength ->
  sanitizeFilename title maxLength <> []
  /\ Forall (fun c => is_name_char c = true) (sanitizeFilename title maxLength)
  /\ length (sanitizeFilename title maxLength) <= maxLength
  /\ (surviving title = [] ->
      sanitizeFilename title maxLength = take maxLength (lit "untitled"))
  /\ (surviving title <> [] ->
      sanitizeFilename title maxLength = take maxLength (surviving title)).
Proof.
  intros Hpos. unfold sanitizeFilename.
  pose proof (surviving_name_chars title) as Hall.
  destruct (surviving title) as [|c r] eqn:Hs.
  - repeat split.
    + destruct maxLength; [lia | discriminate].
    + apply Forall_take. apply List.Forall_forall. intros c Hc.
      vm_compute in Hc. unfold is_name_char.
      repeat (destruct Hc as [<- | Hc]; [reflexivity|]). destruct Hc.
    + rewrite length_take. lia.
    + intros Hne. contradiction.
  - repeat split.
    + destruct maxLength; [lia | discriminate].
    + apply Forall_take. exact Hall.
    + rewrite length_take. lia.
    + intros Habs. discriminate.
Qed.

Section Registrations.
Variable toLowerCase : jsstring -> jsstring.

Lemma prior_registrations_cons q rest i p :
  prior_registrations toLowerCase (q :: rest) (S i) p
  = (if bool_decide (toLowerCase q = toLowerCase p) then 1 else 0)
    + prior_registrations toLowerCase rest i p.
Proof.
  unfold prior_registrations. simpl. case_bool_decide; reflexivity.
Qed.

Lemma registerAll_lookup paths :
  forall (usedPaths : gmap jsstring nat) i p,
    paths !! i = Some p ->
    (registerAll toLowerCase paths usedPaths).1 !! i
    = Some (match usedPaths !! toLowerCase p with
            | None =>
                match prior_registrations toLowerCase paths i p with
                | 0 => p
                | S k => with_suffix p (S k)
                end
            | Some n =>
                with_suffix p (n + prior_registrations toLowerCase paths i p + 1)
            end).
Proof.
  induction paths as [|q rest IH]; intros usedPaths i p Hi; [discriminate|].
  destruct i as [|i].
  - simpl in Hi. inversion Hi; subst q.
    simpl. unfold deduplicatePath, prior_registrations. simpl.
    destruct (usedPaths !! toLowerCase p) as [n|];
      destruct (registerAll _ rest _); simpl; [|reflexivity].
    do 2 f_equal. lia.
  - simpl in Hi. rewrite prior_registrations_cons.
    simpl. unfold deduplicatePath.
    destruct (usedPaths !! toLowerCase q) as [m|] eqn:Hq.
    + specialize (IH (<[toLowerCase q := m + 1]> usedPaths) i p Hi).
      destruct (registerAll _ rest _) as [outs used2]. simpl in *.
      rewrite IH. case_bool_decide as Hk.
      * rewrite Hk in Hq |- *. rewrite lookup_insert_eq, Hq.
        do 2 f_equal. lia.
      * rewrite lookup_insert_ne by exact Hk. reflexivity.
    + specialize (IH (<[toLowerCase q := 0]> usedPaths) i p Hi).
      destruct (registerAll _ rest _) as [outs used2]. simpl in *.
      rewrite IH. case_bool_decide as Hk.
      * rewrite Hk in Hq |- *. rewrite lookup_insert_eq, Hq.
        simpl. do 2 f_equal. lia.
      * rewrite lookup_insert_ne by exact Hk. reflexivity.
Qed.
End Registrations.

Lemma lastIndexOf_None c s :
  lastIndexOf c s = None <-> ~ In c s.
Proof.
  induction s as [|d r IH]; simpl; [tauto|].
  destruct (lastIndexOf c r) as [i|].
  - split; [discriminate|]. intros Hn. exfalso.
    assert (Hr : ~ In c r) by tauto. apply IH in Hr. discriminate.
  - destruct (N.eqb_spec d c) as [->|Hne].
    + split; [discriminate | tauto].
    + split; [|reflexivity]. intros _ [Heq|Hin]; [congruence|].
      apply IH in Hin; [assumption | reflexivity].
Qed.

Lemma lastIndexOf_app c stem ext :
  ~ In c ext -> lastIndexOf c (stem ++ c :: ext) = Some (length stem).
Proof.
  intros Hext. induction stem as [|d r IH]; simpl.
  - apply lastIndexOf_None in Hext. rewrite Hext, N.eqb_refl. reflexivity.
  - rewrite IH. reflexivity.
Qed.

Lemma with_suffix_extension stem ext count :
  stem <> [] -> ~ In 46%N ext ->
  with_suffix (stem ++ 46%N :: ext) count
  = stem ++ lit "_" ++ decimal count ++ 46%N :: ext.
Proof.
  intros Hstem Hext. unfold with_suffix.
  rewrite lastIndexOf_app by exact Hext.
  destruct stem as [|c stem']; [contradiction|].
  cbn [length app take drop].
  rewrite take_app_length, drop_app_length. reflexivity.
Qed.

Lemma with_suffix_no_extension path count :
  ~ In 46%N path -> with_suffix path count = path ++ lit "_" ++ decimal count.
Proof.
  intros Hno. unfold with_suffix.
  apply lastIndexOf_None in Hno. rewrite Hno. reflexivity.
Qed.

Lemma with_suffix_leading_dot rest count :
  ~ In 46%N rest ->
  with_suffix (46%N :: rest) count = (46%N :: rest) ++ lit "_" ++ decimal count.
Proof.
  intros Hno. unfold with_suffix.
  pose proof (lastIndexOf_app 46 [] rest Hno) as Hdot.
  simpl app in Hdot. rewrite Hdot. reflexivity.
Qed.

End OrganizerFacts.

(** C9.  Filename sanitization and collision resolution.  For every title
    and every positive length limit, [sanitizeFilename] returns a non-empty
    name made of word characters, dashes and dots only, no longer than the
    limit; it is the start of "untitled" when nothing of the title survives
    and the start of what survives otherwise.  In every run of registrations
    against one initially empty map, a path whose lower-cased form was not
    registered before is returned unchanged, and the [k]-th later
    registration of that key returns the path with [_k] inserted in front
    of its extension (the part from the last dot on, when that dot is not
    the first character) or appended when there is no extension (no dot, or
    a single dot that comes first). *)
Theorem C9_sanitize_and_deduplicate :
  forall (title : jsstring) (maxLength : nat)
         (toLowerCase : jsstring -> jsstring) (paths : list jsstring)
         (i : nat) (p : jsstring),
    0 < maxLength ->
    paths !! i = Some p ->
    (Organizer.sanitizeFilename title maxLength <> []
     /\ Forall (fun c => Organizer.is_name_char c = true)
               (Organizer.sanitizeFilename title maxLength)
     /\ length (Organizer.sanitizeFilename title maxLength) <= maxLength
     /\ (Organizer.surviving title = [] ->
         Organizer.sanitizeFilename title maxLength = take maxLength (lit "untitled"))
     /\ (Organizer.surviving title <> [] ->
         Organizer.sanitizeFilename title maxLength
         = take maxLength (Organizer.surviving title)))
    /\ (Organizer.registerAll toLowerCase paths ∅).1 !! i
       = Some (match Organizer.prior_registrations toLowerCase paths i p with
               | 0 => p
               | S k => Organizer.with_suffix p (S k)
               end)
    /\ (forall stem ext count,
           stem <> [] -> ~ In 46%N ext ->
           Organizer.with_suffix (stem ++ 46%N :: ext) count
           = stem ++ lit "_" ++ decimal count ++ 46%N :: ext)
    /\ (forall path count,
           ~ In 46%N path ->
           Organizer.with_suffix path count = path ++ lit "_" ++ decimal count)
    /\ (forall rest count,
           ~ In 46%N rest ->
           Organizer.with_suffix (46%N :: rest) count
           = (46%N :: rest) ++ lit "_" ++ decimal count).
Proof.
  intros title maxLength toLowerCase paths i p Hpos Hi.
  split; [apply sanitizeFilename_spec; exact Hpos|].
  split.
  - rewrite (registerAll_lookup toLowerCase paths ∅ i p Hi).
    rewrite lookup_empty. reflexivity.
  - split; [|split].
    + apply with_suffix_extension.
    + apply with_suffix_no_extension.
    + apply with_suffix_leading_dot.
Qed.

(** A title with a slash, a colon and an emoji (a surrogate pair), and three
    registrations of one path in two spellings. *)
Lemma C9_witness :
  Organizer.sanitizeFilename (lit "Fix my /api: " ++ [55357; 56832]%N)
    Organizer.DEFAULT_MAX_LENGTH
  = lit "Fix_my_api"
  /\ (Organizer.registerAll Organizer.ascii_lower
        [lit "out/Chat.md"; lit "out/chat.md"; lit "out/CHAT.md"] ∅).1 !! 2
     = Some (lit "out/CHAT_2.md").
Proof.
  destruct (C9_sanitize_and_deduplicate
              (lit "Fix my /api: " ++ [55357; 56832]%N)
              Organizer.DEFAULT_MAX_LENGTH
              Organizer.ascii_lower
              [lit "out/Chat.md"; lit "out/chat.md"; lit "out/CHAT.md"]
              2 (lit "out/CHAT.md"))
    as ((_ & _ & _ & _ & Hsurv) & Hreg & _).
  - unfold Organizer.DEFAULT_MAX_LENGTH. lia.
  - reflexivity.
  - split.
    + rewrite Hsurv; [vm_compute; reflexivity | vm_compute; discriminate].
    + rewrite Hreg. vm_compute. reflexivity.
Defined.

(* ===================================================================== *)
(** * Properties of the splitter *)
(* ===================================================================== *)

Section SetFacts.

Lemma Set_add_elem (s : list jsstring) x y :
  y ∈ Set_add s x <-> y ∈ s \/ y = x.
Proof.
  unfold Set_add. case_bool_decide as Hx.
  - split; [tauto|]. intros [H| ->]; assumption.
  - rewrite elem_of_app, list_elem_of_singleton. tauto.
Qed.

Lemma Set_add_NoDup (s : list jsstring) x : NoDup s -> NoDup (Set_add s x).
Proof.
  intros Hs. unfold Set_add. case_bool_decide as Hx; [exact Hs|].
  apply NoDup_app. split; [exact Hs|]. split.
  - intros y Hy Hy'. apply list_elem_of_singleton in Hy'. subst. contradiction.
  - apply NoDup_singleton.
Qed.

Lemma Set_fold_elem xs : forall (acc : list jsstring) y,
  y ∈ fold_left Set_add xs acc <-> y ∈ acc \/ y ∈ xs.
Proof.
  induction xs as [|x xs IH]; intros acc y; simpl.
  - rewrite elem_of_nil. tauto.
  - rewrite IH, Set_add_elem, elem_of_cons. tauto.
Qed.

Lemma Set_fold_NoDup xs : forall acc : list jsstring,
  NoDup acc -> NoDup (fold_left Set_add xs acc).
Proof.
  induction xs as [|x xs IH]; intros acc Hacc; simpl; [exact Hacc|].
  apply IH, Set_add_NoDup, Hacc.
Qed.

Lemma Set_from_elem xs y : y ∈ Set_from xs <-> y ∈ xs.
Proof.
  unfold Set_from. rewrite Set_fold_elem, elem_of_nil. tauto.
Qed.

Lemma Set_from_NoDup xs : NoDup (Set_from xs).
Proof. apply Set_fold_NoDup, NoDup_nil_2. Qed.

(** The slug set of a message list: the truthy slugs of its messages. *)
Lemma slugs_of_elem (ms : list Message) slug :
  slug ∈ slugs_of ms
  <-> exists m, m ∈ ms /\ modelSlug m = Some slug /\ slug <> [].
Proof.
  unfold slugs_of. rewrite Set_from_elem, list_elem_of_In, in_flat_map.
  split.
  - intros (m & Hm & Hin). exists m. apply list_elem_of_In in Hm.
    destruct (modelSlug m) as [[|c r]|]; simpl in Hin; try tauto.
    destruct Hin as [<-|[]]. auto.
  - intros (m & Hm & Hslug & Hne). exists m. apply list_elem_of_In in Hm.
    split; [exact Hm|]. rewrite Hslug.
    destruct slug as [|c r]; [contradiction|]. simpl. auto.
Qed.

Lemma slugs_of_NoDup (ms : list Message) : NoDup (slugs_of ms).
Proof. apply Set_from_NoDup. Qed.

End SetFacts.

Section SplitterFacts.
Variable conversation : Conversation.
Variable maxSize : Z.

Lemma split_step_inv done st msg :
  split_inv conversation done st ->
  split_inv conversation (done ++ [msg]) (split_step conversation maxSize st msg).
Proof.
  destruct st as [[[parts cur] size] num].
  intros (Hcat & Hne & Hnum & Hshape & Hcur). unfold split_step.
  destruct ((size + msgSize msg >? maxSize)%Z
            && negb (bool_decide (length cur = 0))) eqn:Hflush.
  - apply andb_true_iff in Hflush as [_ Hlen].
    apply negb_true_iff, bool_decide_eq_false in Hlen.
    unfold split_inv. repeat split.
    + rewrite map_app, concat_app. simpl. rewrite app_nil_r.
      rewrite <- Hcat. rewrite <- app_assoc. reflexivity.
    + apply Forall_app. split; [exact Hne|].
      constructor; [|constructor]. simpl. intros ->. apply Hlen. reflexivity.
    + rewrite length_app. simpl. lia.
    + intros k part Hk.
      destruct (decide (k < length parts)) as [Hlt|Hge].
      * rewrite lookup_app_l in Hk by exact Hlt. apply Hshape, Hk.
      * rewrite lookup_app_r in Hk by lia.
        destruct (k - length parts) as [|d] eqn:Hd; [|destruct d; discriminate].
        simpl in Hk. inversion Hk; subst part. simpl.
        f_equal. lia.
    + intros _ Habs. destruct (app_cons_not_nil [] [] msg). exact (eq_sym Habs).
  - unfold split_inv. repeat split; try assumption.
    + rewrite app_assoc, Hcat. reflexivity.
    + intros _ Habs. apply app_eq_nil in Habs as [_ Habs]. discriminate.
Qed.

Lemma split_fold_inv msgs : forall done st,
  split_inv conversation done st ->
  split_inv conversation (done ++ msgs) (fold_left (split_step conversation maxSize) msgs st).
Proof.
  induction msgs as [|msg msgs IH]; intros done st Hinv; simpl.
  - rewrite app_nil_r. exact Hinv.
  - replace (done ++ msg :: msgs) with ((done ++ [msg]) ++ msgs)
      by (rewrite <- app_assoc; reflexivity).
    apply IH, split_step_inv, Hinv.
Qed.

Lemma splitAtMessages_spec :
  messages conversation <> [] ->
  (splitAtMessages conversation maxSize = [conversation]
   \/ (2 <= length (splitAtMessages conversation maxSize)
       /\ forall k part,
            splitAtMessages conversation maxSize !! k = Some part ->
            part = makePart conversation (messages part) (k + 1)))
  /\ Forall (fun part => messages part <> [])
            (splitAtMessages conversation maxSize)
  /\ concat (List.map messages (splitAtMessages conversation maxSize))
     = messages conversation.
Proof.
  intros Hmsgs. unfold splitAtMessages.
  destruct (messages conversation) as [|m0 ms] eqn:Hm; [contradiction|].
  pose proof (split_fold_inv (m0 :: ms) [] ([], [], 0%Z, 1)) as Hinv.
  destruct (fold_left _ (m0 :: ms) _) as [[[parts cur] size] num].
  simpl app in Hinv.
  destruct Hinv as (Hcat & Hne & Hnum & Hshape & Hcur).
  { unfold split_inv. repeat split; try reflexivity.
    - constructor.
    - intros k part Hk. discriminate.
    - intros H. contradiction. }
  destruct cur as [|c cur']; [exfalso; apply Hcur; [discriminate | reflexivity]|].
  set (lastPart := makePart conversation (c :: cur') num).
  destruct parts as [|p1 rest].
  - simpl. split; [left; reflexivity|]. split.
    + constructor; [rewrite Hm; discriminate | constructor].
    + simpl. rewrite app_nil_r. exact Hm.
  - assert (Hres : match (p1 :: rest) ++ [lastPart] with
                   | [_] => [conversation]
                   | _ => (p1 :: rest) ++ [lastPart]
                   end = (p1 :: rest) ++ [lastPart])
      by (destruct rest; reflexivity).
    rewrite Hres. split; [right; split|split].
    + rewrite length_app. simpl. lia.
    + intros k part Hk.
      destruct (decide (k < length (p1 :: rest))) as [Hlt|Hge].
      * rewrite lookup_app_l in Hk by exact Hlt. apply Hshape, Hk.
      * rewrite lookup_app_r in Hk by lia.
        destruct (k - length (p1 :: rest)) as [|d] eqn:Hd;
          [|destruct d; discriminate].
        simpl in Hk. inversion Hk; subst part. unfold lastPart. simpl.
        f_equal. lia.
    + apply Forall_app. split; [exact Hne|].
      constructor; [discriminate | constructor].
    + rewrite map_app, concat_app. simpl. rewrite app_nil_r. exact Hcat.
Qed.

End SplitterFacts.

(** C2.  Splitting preserves the message sequence.  For a conversation with
    at least one message and a positive threshold, every part returned by
    [splitAtMessages] (and by [maybeSplit]) holds at least one message and
    the parts' message lists, concatenated in order, are the conversation's
    message list.  Either the result is the conversation itself, alone and
    unchanged, which is the case whenever there is exactly one part, or
    there are at least two parts and the [N]-th has the original id followed
    by [_partN] and the original title followed by [ (Part N)]. *)
Theorem C2_split_preserves_messages :
  forall (conversationToMarkdown : Conversation -> jsstring)
         (conversation : Conversation) (maxSize : Z),
    messages conversation <> [] ->
    (0 < maxSize)%Z ->
    Forall (fun part => messages part <> []) (splitAtMessages conversation maxSize)
    /\ concat (List.map messages (splitAtMessages conversation maxSize))
       = messages conversation
    /\ (length (splitAtMessages conversation maxSize) = 1 ->
        splitAtMessages conversation maxSize = [conversation])
    /\ (splitAtMessages conversation maxSize = [conversation]
        \/ (2 <= length (splitAtMessages conversation maxSize)
            /\ forall k part,
                 splitAtMessages conversation maxSize !! k = Some part ->
                 conv_id part
                 = conv_id conversation ++ lit "_part" ++ decimal (k + 1)
                 /\ conv_title part
                    = conv_title conversation ++ lit " (Part " ++ decimal (k + 1)
                      ++ lit ")"))
    /\ Forall (fun part => messages part <> [])
              (maybeSplit conversationToMarkdown conversation maxSize)
    /\ concat (List.map messages
                 (maybeSplit conversationToMarkdown conversation maxSize))
       = messages conversation.
Proof.
  intros md conversation maxSize Hmsgs _.
  destruct (splitAtMessages_spec conversation maxSize Hmsgs)
    as (Hshape & Hne & Hcat).
  split; [exact Hne|]. split; [exact Hcat|]. split; [|split].
  - intros Hone. destruct Hshape as [Heq|[Htwo _]]; [exact Heq | lia].
  - destruct Hshape as [Heq|[Htwo Hparts]]; [left; exact Heq|].
    right. split; [exact Htwo|]. intros k part Hk.
    rewrite (Hparts k part Hk). split; reflexivity.
  - unfold maybeSplit. destruct (_ <=? _)%Z.
    + split; [constructor; [exact Hmsgs | constructor]|].
      simpl. apply app_nil_r.
    + split; assumption.
Qed.

(** Three messages of estimated size 55 under a threshold of 100: three
    parts. *)
Lemma C2_witness :
  Forall (fun part => messages part <> []) (splitAtMessages Samples.chat 100)
  /\ concat (List.map messages (splitAtMessages Samples.chat 100))
     = messages Samples.chat
  /\ List.map conv_id (splitAtMessages Samples.chat 100)
     = [lit "c1_part1"; lit "c1_part2"; lit "c1_part3"].
Proof.
  destruct (C2_split_preserves_messages Samples.one_char_per_message
              Samples.chat 100) as (Hne & Hcat & _).
  - discriminate.
  - lia.
  - split; [exact Hne|]. split; [exact Hcat|]. vm_compute. reflexivity.
Defined.

Lemma elem_of_concat_messages (parts : list Conversation) part (m : Message) :
  part ∈ parts -> m ∈ messages part -> m ∈ concat (List.map messages parts).
Proof.
  intros Hpart Hm. apply list_elem_of_In, in_concat.
  exists (messages part). split.
  - apply in_map, list_elem_of_In, Hpart.
  - apply list_elem_of_In, Hm.
Qed.

(** C10.  Metadata of the parts.  Let the conversation be as the parser
    builds it: no message has the empty string for model slug, and
    [modelSlugs] is the slug set of its messages.  Then every part returned by
    [splitAtMessages] has the conversation's [createdAt] and [updatedAt], and
    its [modelSlugs] lists, without repetition, exactly the model slugs of the
    messages of the part; each of them belongs to the conversation's
    [modelSlugs]. *)
Theorem C10_part_metadata :
  forall (conversation : Conversation) (maxSize : Z) (part : Conversation),
    (forall m, m ∈ messages conversation -> modelSlug m <> Some []) ->
    modelSlugs conversation = slugs_of (messages conversation) ->
    part ∈ splitAtMessages conversation maxSize ->
    createdAt part = createdAt conversation
    /\ updatedAt part = updatedAt conversation
    /\ NoDup (modelSlugs part)
    /\ (forall slug,
          slug ∈ modelSlugs part
          <-> exists m, m ∈ messages part /\ modelSlug m = Some slug)
    /\ (forall slug, slug ∈ modelSlugs part -> slug ∈ modelSlugs conversation).
Proof.
  intros conversation maxSize part Hslugs Hset Hpart.
  assert (Hself : createdAt conversation = createdAt conversation
            /\ updatedAt conversation = updatedAt conversation
            /\ NoDup (modelSlugs conversation)
            /\ (forall slug,
                  slug ∈ modelSlugs conversation
                  <-> exists m, m ∈ messages conversation /\ modelSlug m = Some slug)
            /\ (forall slug, slug ∈ modelSlugs conversation ->
                             slug ∈ modelSlugs conversation)).
  { repeat split; try tauto.
    - rewrite Hset. apply slugs_of_NoDup.
    - rewrite Hset, slugs_of_elem. intros (m & Hm & Hs & _). eauto.
    - rewrite Hset, slugs_of_elem. intros (m & Hm & Hs). exists m.
      repeat split; try assumption. intros ->. exact (Hslugs m Hm Hs). }
  destruct (decide (messages conversation = [])) as [Hnil|Hne].
  { unfold splitAtMessages in Hpart. rewrite Hnil in Hpart.
    apply list_elem_of_singleton in Hpart. subst part. exact Hself. }
  destruct (splitAtMessages_spec conversation maxSize Hne)
    as ([Heq|[_ Hshape]] & _ & Hcat).
  { rewrite Heq in Hpart. apply list_elem_of_singleton in Hpart.
    subst part. exact Hself. }
  assert (Hsub : forall m, m ∈ messages part -> m ∈ messages conversation).
  { intros m Hm. rewrite <- Hcat. eapply elem_of_concat_messages; eassumption. }
  apply list_elem_of_lookup in Hpart as [k Hk].
  pose proof (Hshape k part Hk) as Hmk.
  assert (Hin : forall slug,
             slug ∈ modelSlugs part
             <-> exists m, m ∈ messages part /\ modelSlug m = Some slug).
  { intros slug. rewrite Hmk at 1. simpl. rewrite slugs_of_elem. split.
    - intros (m & Hm & Hs & _). eauto.
    - intros (m & Hm & Hs). exists m. repeat split; try assumption.
      intros ->. exact (Hslugs m (Hsub m Hm) Hs). }
  split; [rewrite Hmk; reflexivity|].
  split; [rewrite Hmk; reflexivity|].
  split; [rewrite Hmk; simpl; apply slugs_of_NoDup|].
  split; [exact Hin|].
  intros slug Hslug. apply Hin in Hslug as (m & Hm & Hs).
  rewrite Hset, slugs_of_elem. exists m.
  repeat split; [apply Hsub, Hm | exact Hs |].
  intros ->. exact (Hslugs m (Hsub m Hm) Hs).
Qed.

(** The second of the three parts of the sample conversation. *)
Lemma C10_witness :
  createdAt (Splitter.makePart Samples.chat
               [Samples.message_of "m2" "assistant" "howdy" (Some (lit "gpt-4"))] 2)
  = TsDate (JNumber (1700000000 # 1))
  /\ modelSlugs (Splitter.makePart Samples.chat
               [Samples.message_of "m2" "assistant" "howdy" (Some (lit "gpt-4"))] 2)
     = [lit "gpt-4"].
Proof.
  destruct (C10_part_metadata Samples.chat 100
              (Splitter.makePart Samples.chat
                 [Samples.message_of "m2" "assistant" "howdy" (Some (lit "gpt-4"))] 2))
    as (Hc & _).
  - intros m Hm. vm_compute in Hm.
    repeat (apply elem_of_cons in Hm as [->|Hm]; [discriminate|]).
    apply elem_of_nil in Hm. destruct Hm.
  - reflexivity.
  - vm_compute. apply list_elem_of_In. right. left. reflexivity.
  - split; [rewrite Hc; reflexivity | reflexivity].
Defined.

(* ===================================================================== *)
(** * Properties of the content renderer *)
(* ===================================================================== *)

Section RenderFacts.

Lemma handleUnknown_placeholder (payload : RawContent) :
  text payload = None -> parts payload = None ->
  handleUnknown payload
  = [ {| contentType := UNKNOWN;
         frag_text := lit "[Unsupported content type: "
                      ++ or_str (content_type payload) (lit "unknown")
                      ++ lit "]";
         extra := NoExtra |} ].
Proof.
  intros Htext Hparts. unfold handleUnknown. rewrite Htext, Hparts.
  reflexivity.
Qed.

(** The handlers that read the [text] field pass it on. *)
Lemma text_handlers_keep_text (payload : RawContent) c r :
  text payload = Some (c :: r) ->
  (exists f, handleCode payload = [f] /\ frag_text f = c :: r)
  /\ (exists f, handleExecutionOutput payload = [f] /\ frag_text f = c :: r)
  /\ (exists f, handleBrowsingQuote payload = [f] /\ frag_text f = c :: r)
  /\ (exists f, handleUnknown payload = [f] /\ frag_text f = c :: r).
Proof.
  intros Htext.
  unfold handleCode, handleExecutionOutput, handleBrowsingQuote, handleUnknown.
  rewrite Htext. simpl. repeat split; eexists; split; reflexivity.
Qed.

Lemma select_handler_cases (ct : jsstring) :
  ct ∉ [lit "text"; lit "multimodal_text"; lit "tether_browsing_display"] ->
  inherited ct = false ->
  select_handler ct = Own handleCode
  \/ select_handler ct = Own handleExecutionOutput
  \/ select_handler ct = Own handleBrowsingQuote
  \/ select_handler ct = Own handleUnknown.
Proof.
  intros Hct Hinh. unfold select_handler, HANDLERS. simpl assoc.
  repeat (case_bool_decide;
          [ subst ct;
            first [ tauto
                  | exfalso; apply Hct;
                    repeat first [ apply list_elem_of_here
                                 | apply list_elem_of_further ] ] | ]).
  rewrite Hinh. tauto.
Qed.

End RenderFacts.

(** C3 as stated fails: a payload of type [text] that carries its words in
    the [text] field and has no [parts] renders to no fragment at all. *)
Lemma C3_counterexample :
  renderContent (Samples.hello_payload (lit "text")) = Ok []
  /\ ~ (exists frags f,
          renderContent (Samples.hello_payload (lit "text")) = Ok frags
          /\ f ∈ frags
          /\ includes (frag_text f) (lit "hello") = true).
Proof.
  split; [reflexivity|].
  intros (frags & f & Hr & Hf & _).
  vm_compute in Hr. inversion Hr; subst frags.
  apply elem_of_nil in Hf. exact Hf.
Qed.

(** C3, amended.  A payload of content type [unknown_format] with neither
    [text] nor [parts] renders to exactly one fragment, whose text is
    [[Unsupported content type: unknown_format]].  A payload whose [text]
    field is [hello] renders to exactly one fragment with text [hello] for
    every declared content type that selects a handler reading [text]: every
    non-empty tag other than [text], [multimodal_text] and
    [tether_browsing_display] that is not the name of a member of
    [Object.prototype]. *)
Theorem C3_render_keeps_text :
  forall (placeholder payload : RawContent) (ct : jsstring),
    content_type placeholder = Some (lit "unknown_format") ->
    text placeholder = None ->
    parts placeholder = None ->
    content_type payload = Some ct ->
    text payload = Some (lit "hello") ->
    ct <> [] ->
    ct ∉ [lit "text"; lit "multimodal_text"; lit "tether_browsing_display"] ->
    inherited ct = false ->
    renderContent placeholder
    = Ok [ {| contentType := UNKNOWN;
              frag_text := lit "[Unsupported content type: unknown_format]";
              extra := NoExtra |} ]
    /\ exists f,
         renderContent payload = Ok [f]
         /\ frag_text f = lit "hello"
         /\ includes (frag_text f) (lit "hello") = true.
Proof.
  intros placeholder payload ct Hpct Hptext Hpparts Hct Htext Hne Htag Hinh.
  split.
  - unfold renderContent. rewrite Hpct.
    change (select_handler _) with (Own handleUnknown). cbv beta iota.
    rewrite (handleUnknown_placeholder placeholder Hptext Hpparts), Hpct.
    reflexivity.
  - unfold renderContent. rewrite Hct.
    destruct ct as [|c0 r0]; [contradiction|]. cbn [or_str].
    destruct (text_handlers_keep_text payload _ _ Htext)
      as ((f1 & H1 & T1) & (f2 & H2 & T2) & (f3 & H3 & T3) & (f4 & H4 & T4)).
    destruct (select_handler_cases (c0 :: r0) Htag Hinh) as [Hs|[Hs|[Hs|Hs]]];
      rewrite Hs.
    + exists f1. rewrite H1, T1. repeat split; reflexivity.
    + exists f2. rewrite H2, T2. repeat split; reflexivity.
    + exists f3. rewrite H3, T3. repeat split; reflexivity.
    + exists f4. rewrite H4, T4. repeat split; reflexivity.
Qed.

(** The placeholder payload, and [hello] under the unrecognized type
    [unknown_format]. *)
Lemma C3_witness :
  renderContent Samples.unknown_format_payload
  = Ok [ {| contentType := UNKNOWN;
            frag_text := lit "[Unsupported content type: unknown_format]";
            extra := NoExtra |} ]
  /\ exists f,
       renderContent (Samples.hello_payload (lit "unknown_format")) = Ok [f]
       /\ frag_text f = lit "hello"
       /\ includes (frag_text f) (lit "hello") = true.
Proof.
  apply (C3_render_keeps_text Samples.unknown_format_payload
           (Samples.hello_payload (lit "unknown_format"))
           (lit "unknown_format")).
  - reflexivity.
  - reflexivity.
  - reflexivity.
  - reflexivity.
  - reflexivity.
  - discriminate.
  - vm_compute. intros H.
    repeat (apply elem_of_cons in H as [H|H]; [discriminate|]).
    apply elem_of_nil in H. exact H.
  - vm_compute. reflexivity.
Defined.

(* ===================================================================== *)
(** * Properties of the parser *)
(* ===================================================================== *)

(** C8.  [parseTimestamp] never throws and returns [null] for [null] and
    [undefined] and a [Date] for a number; but for a value that is not a
    number, such as the string [abc], it returns a [Date] as well, not
    [null].  Of the values that are neither [null] nor [undefined] it
    returns [null] only for those on which [Number] throws: no boolean, no
    number and no string, but the objects that have an own property
    [toString] and the arrays that hold, at some depth, such an object. *)
Theorem C8_parseTimestamp_invalid_date_not_null :
  parseTimestamp JNull = TsNull
  /\ parseTimestamp JUndefined = TsNull
  /\ (forall q, parseTimestamp (JNumber q) = TsDate (JNumber q))
  /\ parseTimestamp (JString (lit "abc")) = TsDate (JString (lit "abc"))
  /\ (forall ts,
        parseTimestamp ts = TsNull
        <-> ts = JNull \/ ts = JUndefined \/ Number_throws ts = true)
  /\ (forall ts,
        ts <> JNull -> ts <> JUndefined -> Number_throws ts = false ->
        parseTimestamp ts = TsDate ts)
  /\ (forall b, Number_throws (JBool b) = false)
  /\ (forall q, Number_throws (JNumber q) = false)
  /\ (forall s, Number_throws (JString s) = false)
  /\ (forall entries,
        Number_throws (JObject entries) = true
        <-> lit "toString" ∈ List.map fst entries)
  /\ (forall elements,
        Number_throws (JArray elements) = true
        <-> exists element,
              element ∈ elements /\ Number_throws element = true).
Proof.
  split; [reflexivity|]. split; [reflexivity|]. split; [reflexivity|].
  split; [reflexivity|]. split; [|split].
  - intros ts. split.
    + destruct ts as [| | b | q | s | es | fs]; cbn [parseTimestamp];
        try (intros _; tauto); try discriminate;
        destruct (Number_throws _) eqn:Hthrows; try discriminate; auto.
    + intros [-> | [-> | H]]; try reflexivity.
      destruct ts as [| | b | q | s | es | fs]; cbn [parseTimestamp];
        try reflexivity; rewrite H; reflexivity.
  - intros ts Hnull Hundef Hthrows.
    destruct ts as [| | b | q | s | es | fs]; cbn [parseTimestamp];
      try contradiction; try reflexivity; rewrite Hthrows; reflexivity.
  - split; [reflexivity|]. split; [reflexivity|]. split; [reflexivity|].
    split.
    + intros entries. cbn [Number_throws].
      rewrite bool_decide_eq_true.
      induction entries as [|[k v] rest IH]; simpl.
      * split; [intros [x Hx]; discriminate|].
        intros H. apply elem_of_nil in H. destruct H.
      * case_bool_decide as Hk.
        -- subst k. split; [intros _; apply list_elem_of_here | eauto].
        -- rewrite IH, elem_of_cons. split; [auto|].
           intros [Heq | Hin]; [congruence | exact Hin].
    + intros elements. cbn [Number_throws].
      rewrite existsb_exists. split.
      * intros (e & He & Ht). exists e. split; [apply list_elem_of_In, He | exact Ht].
      * intros (e & He & Ht). exists e. split; [apply list_elem_of_In, He | exact Ht].
Qed.

Section TraversalFacts.
Variable mapping : Mapping.

Lemma get_own id node : assoc id mapping = Some node -> get mapping id = Some node.
Proof. intros H. unfold get. rewrite H. reflexivity. Qed.

Lemma last_child_path_head id ids :
  last_child_path mapping id ids -> exists rest, ids = id :: rest.
Proof. destruct 1; eauto. Qed.

Lemma last_child_path_own id ids :
  last_child_path mapping id ids ->
  forall x, x ∈ ids -> exists node, assoc x mapping = Some node.
Proof.
  induction 1 as [i n Hn _ | i n c rest Hn _ _ IH]; intros x Hx.
  - apply list_elem_of_singleton in Hx. subst. eauto.
  - apply elem_of_cons in Hx as [-> | Hx]; eauto.
Qed.

(** The forward walk ends on the last node of the path. *)
Lemma walk_forward_path id ids :
  last_child_path mapping id ids ->
  forall fuel, length ids <= fuel ->
               walk_forward fuel mapping id = Ok (default id (last ids)).
Proof.
  induction 1 as [id node Hnode Hlast | id node child rest Hnode Hlast Hpath IH];
    intros fuel Hfuel; (destruct fuel as [|fuel]; [simpl in Hfuel; lia|]);
    simpl; rewrite (get_own _ _ Hnode), Hlast.
  - reflexivity.
  - simpl in Hfuel. rewrite IH by lia.
    destruct (last_child_path_head _ _ Hpath) as [rest' ->].
    rewrite last_cons_cons.
    destruct (last (child :: rest')) eqn:Hl; [reflexivity|].
    apply last_None in Hl. discriminate.
Qed.

Lemma path_messages_snoc ids id :
  path_messages mapping (ids ++ [id])
  = path_messages mapping ids ++ pushed mapping id.
Proof.
  unfold path_messages. rewrite flat_map_app. simpl.
  rewrite app_nil_r. reflexivity.
Qed.

(** The backward walk over a stretch of nodes whose parent pointers agree:
    it pushes what each node pushes, last node first, and goes on from
    [above]. *)
Lemma walk_back_chain ids : forall above acc fuel,
  parents_agree mapping above ids ->
  length ids <= fuel ->
  walk_back fuel mapping (from_option Some above (last ids)) acc
  = walk_back (fuel - length ids) mapping above
              (acc ++ path_messages mapping (rev ids)).
Proof.
  induction ids as [|id rest IH]; intros above acc fuel Hagree Hfuel.
  - simpl. rewrite Nat.sub_0_r, app_nil_r. reflexivity.
  - destruct Hagree as ((node & Hnode & Hparent) & Hrest).
    simpl in Hfuel.
    assert (Hlast : from_option Some above (last (id :: rest))
                    = from_option Some (Some id) (last rest)).
    { destruct rest as [|id' rest']; [reflexivity|].
    rewrite last_cons_cons. destruct (last (id' :: rest')) eqn:Hl; [reflexivity|].
    apply last_None in Hl. discriminate. }
    rewrite Hlast, (IH (Some id) acc fuel Hrest) by lia.
    replace (fuel - length (id :: rest)) with (fuel - length rest - 1)
      by (simpl; lia).
    destruct (fuel - length rest) as [|f] eqn:Hf; [lia|].
    replace (S f - 1) with f by lia.
    simpl walk_back. rewrite (get_own _ _ Hnode), Hparent.
    f_equal. simpl rev. rewrite path_messages_snoc, app_assoc.
    unfold pushed. rewrite (get_own _ _ Hnode).
    destruct (message node) as [msg|]; [destruct (kept msg)|];
      rewrite ?app_nil_r; reflexivity.
Qed.

Lemma pushed_short id : length (pushed mapping id) <= 1.
Proof.
  unfold pushed. destruct (get mapping id) as [node|]; [|simpl; lia].
  destruct (message node) as [msg|]; [destruct (kept msg)|]; simpl; lia.
Qed.

Lemma rev_path_messages ids :
  rev (path_messages mapping (rev ids)) = path_messages mapping ids.
Proof.
  unfold path_messages. induction ids as [|id rest IH]; [reflexivity|].
  simpl. rewrite flat_map_app, rev_app_distr, IH. simpl. rewrite app_nil_r.
  f_equal. pose proof (pushed_short id) as Hshort.
  destruct (pushed mapping id) as [|m [|m' l]]; simpl in *; try reflexivity; lia.
Qed.

Lemma walk_back_None fuel acc : walk_back fuel mapping None acc = Ok acc.
Proof. destruct fuel; reflexivity. Qed.

(** On a mapping whose parent pointers agree with its last-child path the
    traversal returns the messages pushed along that path, root first. *)
Lemma traverseTree_path rootId ids :
  find_root mapping = Some rootId ->
  last_child_path mapping rootId ids ->
  parents_agree mapping None ids ->
  forall fuel, length ids <= fuel ->
               traverseTree fuel mapping = Ok (path_messages mapping ids).
Proof.
  intros Hroot Hpath Hagree fuel Hfuel. unfold traverseTree.
  destruct mapping as [|entry entries] eqn:Hm; [discriminate|].
  rewrite <- Hm in *. rewrite Hroot.
  rewrite (walk_forward_path _ _ Hpath fuel Hfuel). simpl.
  destruct (last_child_path_head _ _ Hpath) as [rest ->].
  assert (Hleaf : Some (default rootId (last (rootId :: rest)))
                  = from_option Some None (last (rootId :: rest))).
  { destruct (last (rootId :: rest)) eqn:Hl; [reflexivity|].
    apply last_None in Hl. discriminate. }
  rewrite Hleaf, (walk_back_chain _ None [] fuel Hagree Hfuel).
  rewrite walk_back_None. cbn [mbind Res_bind mret Res_ret app].
  rewrite rev_path_messages. reflexivity.
Qed.

(** More fuel does not change a result. *)
Lemma walk_forward_mono fuel : forall id leaf fuel',
  walk_forward fuel mapping id = Ok leaf -> fuel <= fuel' ->
  walk_forward fuel' mapping id = Ok leaf.
Proof.
  induction fuel as [|fuel IH]; intros id leaf fuel' Hrun Hle; [discriminate|].
  destruct fuel' as [|fuel']; [lia|]. simpl in *.
  destruct (get mapping id) as [node|]; [|exact Hrun].
  destruct (last (default [] (children node))); [|exact Hrun].
  apply IH; [exact Hrun | lia].
Qed.

Lemma walk_back_mono fuel : forall cur acc out fuel',
  walk_back fuel mapping cur acc = Ok out -> fuel <= fuel' ->
  walk_back fuel' mapping cur acc = Ok out.
Proof.
  induction fuel as [|fuel IH]; intros cur acc out fuel' Hrun Hle.
  - destruct cur; [discriminate|]. destruct fuel'; exact Hrun.
  - destruct cur as [id|]; [|destruct fuel'; exact Hrun].
    destruct fuel' as [|fuel']; [lia|]. simpl in *.
    destruct (get mapping id) as [node|]; [|exact Hrun].
    apply IH; [exact Hrun | lia].
Qed.

Lemma traverseTree_mono fuel fuel' out :
  traverseTree fuel mapping = Ok out -> fuel <= fuel' ->
  traverseTree fuel' mapping = Ok out.
Proof.
  unfold traverseTree. intros Hrun Hle.
  destruct mapping as [|entry entries] eqn:Hm; [exact Hrun|].
  rewrite <- Hm in *.
  destruct (find_root mapping) as [rootId|]; [|exact Hrun].
  destruct (walk_forward fuel mapping rootId) as [leaf| |] eqn:Hf;
    try discriminate.
  rewrite (walk_forward_mono _ _ _ _ Hf Hle). simpl in *.
  destruct (walk_back fuel mapping (Some leaf) []) as [out'| |] eqn:Hb;
    try discriminate.
  rewrite (walk_back_mono _ _ _ _ _ Hb Hle). exact Hrun.
Qed.

(** Every message the traversal returns was pushed: it is the message of a
    node of the mapping and passed the drop rules. *)
Lemma walk_back_pushed fuel : forall cur acc out,
  walk_back fuel mapping cur acc = Ok out ->
  forall msg, msg ∈ out ->
    msg ∈ acc
    \/ (kept msg = true
        /\ exists id node, get mapping id = Some node /\ message node = Some msg).
Proof.
  induction fuel as [|fuel IH]; intros cur acc out Hrun msg Hmsg.
  - destruct cur; [discriminate|]. inversion Hrun; subst. auto.
  - destruct cur as [id|]; [|inversion Hrun; subst; auto].
    simpl in Hrun. destruct (get mapping id) as [node|] eqn:Hget;
      [|inversion Hrun; subst; auto].
    destruct (IH _ _ _ Hrun msg Hmsg) as [Hacc|Hnew]; [|auto].
    destruct (message node) as [m|] eqn:Hm; [|auto].
    destruct (kept m) eqn:Hk; [|auto].
    apply elem_of_app in Hacc as [Hacc|Hacc]; [auto|].
    apply list_elem_of_singleton in Hacc. subst m. right. eauto.
Qed.

Lemma traverseTree_pushed fuel out msg :
  traverseTree fuel mapping = Ok out -> msg ∈ out ->
  kept msg = true
  /\ exists id node, get mapping id = Some node /\ message node = Some msg.
Proof.
  unfold traverseTree. intros Hrun Hmsg.
  destruct mapping as [|entry entries] eqn:Hm.
  { inversion Hrun; subst. apply elem_of_nil in Hmsg. destruct Hmsg. }
  rewrite <- Hm in *.
  destruct (find_root mapping) as [rootId|].
  2:{ inversion Hrun; subst. apply elem_of_nil in Hmsg. destruct Hmsg. }
  destruct (walk_forward fuel mapping rootId) as [leaf| |]; try discriminate.
  simpl in Hrun.
  destruct (walk_back fuel mapping (Some leaf) []) as [out'| |] eqn:Hb;
    try discriminate.
  simpl in Hrun. inversion Hrun; subst out.
  apply list_elem_of_In in Hmsg. rewrite <- in_rev in Hmsg.
  apply list_elem_of_In in Hmsg.
  destruct (walk_back_pushed _ _ _ _ Hb msg Hmsg) as [Hnil|Hok]; [|exact Hok].
  apply elem_of_nil in Hnil. destruct Hnil.
Qed.

End TraversalFacts.

Section ChainFacts.

Lemma assoc_elem {V : Type} (l : list (jsstring * V)) k v :
  assoc k l = Some v -> (k, v) ∈ l.
Proof.
  induction l as [|[k' v'] l IH]; simpl; [discriminate|].
  case_bool_decide as Hk.
  - intros Heq. inversion Heq; subst. apply list_elem_of_here.
  - intros Hl. apply list_elem_of_further, IH, Hl.
Qed.

Lemma elem_assoc {V : Type} (l : list (jsstring * V)) k v :
  NoDup (List.map fst l) -> (k, v) ∈ l -> assoc k l = Some v.
Proof.
  induction l as [|[k' v'] l IH]; intros Hnd Hin.
  - apply elem_of_nil in Hin. destruct Hin.
  - simpl in *. apply NoDup_cons in Hnd as [Hfresh Hnd].
    apply elem_of_cons in Hin as [Heq|Hin].
    + inversion Heq; subst. rewrite bool_decide_eq_true_2; reflexivity.
    + case_bool_decide as Hk; [|apply IH; assumption].
      subst k'. exfalso. apply Hfresh.
      apply list_elem_of_In, in_map_iff. exists (k, v).
      split; [reflexivity | apply list_elem_of_In, Hin].
Qed.

Lemma find_root_Some (mapping : Mapping) rootId :
  find_root mapping = Some rootId ->
  exists node, (rootId, node) ∈ mapping /\ parent node = None.
Proof.
  induction mapping as [|[k node] rest IH]; simpl; [discriminate|].
  destruct (parent node) eqn:Hp.
  - intros Hr. destruct (IH Hr) as (n & Hin & Hn).
    exists n. split; [apply list_elem_of_further, Hin | exact Hn].
  - intros Heq. inversion Heq; subst. exists node.
    split; [apply list_elem_of_here | exact Hp].
Qed.

Lemma find_root_None (mapping : Mapping) :
  find_root mapping = None ->
  forall id node, (id, node) ∈ mapping -> parent node <> None.
Proof.
  induction mapping as [|[k n] rest IH]; simpl; intros Hr id node Hin.
  - apply elem_of_nil in Hin. destruct Hin.
  - destruct (parent n) eqn:Hp; [|discriminate].
    apply elem_of_cons in Hin as [Heq|Hin].
    + inversion Heq; subst. rewrite Hp. discriminate.
    + eapply IH; eassumption.
Qed.

Lemma plain_text_message_kept msg : plain_text_message msg -> kept msg = true.
Proof.
  intros ((a & Ha & Hrole) & (c & ps & s & Hc & Hct & Hps & Hin & Hnb)).
  unfold kept, role_of. rewrite Ha, Hc, Hps. simpl.
  assert (Hhas : existsb part_has_content ps = true).
  { apply existsb_exists. exists (PString s).
    split; [apply list_elem_of_In, Hin | exact Hnb]. }
  rewrite Hhas. destruct Hrole as [-> | ->]; reflexivity.
Qed.

Variable mapping : Mapping.
Variable ids : list jsstring.
Variable msgs : list RawMessage.
Hypothesis Hchain : is_chain mapping ids msgs.
Hypothesis Hplain : Forall plain_text_message msgs.

Lemma chain_keys_NoDup : NoDup (List.map fst mapping).
Proof using Hchain.
  pose proof Hchain as (Hperm & Hnd & _). rewrite Hperm. exact Hnd.
Qed.

Lemma chain_root rootId rest : ids = rootId :: rest -> find_root mapping = Some rootId.
Proof using Hchain.
  intros Hids. pose proof chain_keys_NoDup as Hkeys.
  pose proof Hchain as (Hperm & Hnd & Hlen & Hnodes).
  destruct (Hnodes 0 rootId) as (rnode & Hrnode & Hrparent & _);
    [rewrite Hids; reflexivity|].
  destruct (find_root mapping) as [k|] eqn:Hroot.
  - destruct (find_root_Some _ _ Hroot) as (node & Hin & Hparent).
    assert (Hk : k ∈ ids).
    { rewrite <- Hperm. apply list_elem_of_In, in_map_iff. exists (k, node).
      split; [reflexivity | apply list_elem_of_In, Hin]. }
    apply list_elem_of_lookup in Hk as [j Hj].
    destruct (Hnodes j k Hj) as (node' & Hnode' & Hparent' & _).
    rewrite (elem_assoc _ _ _ Hkeys Hin) in Hnode'.
    inversion Hnode'; subst node'.
    destruct j as [|j].
    + rewrite Hids in Hj. inversion Hj. reflexivity.
    + exfalso. rewrite Hparent in Hparent'.
      assert (Hlt : j < length ids)
        by (apply lookup_lt_Some in Hj; lia).
      apply lookup_lt_is_Some in Hlt as [x Hx]. congruence.
  - exfalso. apply (find_root_None _ Hroot rootId rnode);
      [apply assoc_elem, Hrnode | exact Hrparent].
Qed.

Lemma chain_path suffix : forall k id rest,
  suffix = id :: rest -> drop k ids = suffix ->
  last_child_path mapping id suffix
  /\ parents_agree mapping (match k with 0 => None | S j => ids !! j end) suffix
  /\ path_messages mapping suffix = drop k msgs.
Proof using Hchain Hplain.
  pose proof Hchain as (Hperm & Hnd & Hlen & Hnodes).
  induction suffix as [|x suffix IH]; intros k id rest Hs Hdrop; [discriminate|].
  inversion Hs; subst x suffix. clear Hs.
  assert (Hk : ids !! k = Some id).
  { rewrite <- (Nat.add_0_r k), <- lookup_drop, Hdrop. reflexivity. }
  assert (Hrest : drop (S k) ids = rest).
  { rewrite (drop_S _ _ _ Hk) in Hdrop. inversion Hdrop. reflexivity. }
  destruct (Hnodes k id Hk) as (node & Hnode & Hparent & Hchildren & Hmsg).
  assert (Hklt : k < length msgs) by (apply lookup_lt_Some in Hk; lia).
  apply lookup_lt_is_Some in Hklt as [msg Hmsgk].
  assert (Hpushed : pushed mapping id = [msg]).
  { unfold pushed. rewrite (get_own _ _ _ Hnode), Hmsg, Hmsgk.
    rewrite plain_text_message_kept; [reflexivity|].
    eapply Forall_lookup_1; eassumption. }
  assert (Hmsgs : path_messages mapping (id :: rest) = msg :: path_messages mapping rest).
  { unfold path_messages. simpl. rewrite Hpushed. reflexivity. }
  rewrite Hmsgs, (drop_S _ _ _ Hmsgk).
  destruct rest as [|id' rest'].
  - assert (Hnone : ids !! S k = None).
    { apply lookup_ge_None. apply (f_equal length) in Hrest.
      rewrite length_drop in Hrest. simpl in Hrest. lia. }
    split; [|split].
    + eapply path_leaf; [exact Hnode|]. rewrite Hchildren, Hnone. reflexivity.
    + simpl. eauto.
    + f_equal. symmetry. apply drop_ge.
      apply lookup_ge_None in Hnone. lia.
  - destruct (IH (S k) id' rest' eq_refl Hrest) as (Hpath & Hagree & Hpm).
    assert (Hnext : ids !! S k = Some id').
    { rewrite <- (Nat.add_0_r (S k)), <- lookup_drop, Hrest. reflexivity. }
    split; [|split].
    + eapply path_step; [exact Hnode | | exact Hpath].
      rewrite Hchildren, Hnext. reflexivity.
    + simpl. split; [eauto|]. rewrite Hk in Hagree. exact Hagree.
    + f_equal. exact Hpm.
Qed.

(** A linear chain of [N] nodes yields its [N] messages, root first. *)
Lemma chain_traverse fuel :
  length ids <= fuel -> traverseTree fuel mapping = Ok msgs.
Proof using Hchain Hplain.
  intros Hfuel.
  assert (Hcases : ids = [] \/ exists rootId rest, ids = rootId :: rest)
    by (destruct ids; eauto).
  destruct Hcases as [Hids | (rootId & rest & Hids)].
  - pose proof Hchain as (Hperm & _ & Hlen & _).
    rewrite Hids in Hperm, Hlen.
    apply Permutation_nil_r, map_eq_nil in Hperm.
    apply length_zero_iff_nil in Hlen.
    rewrite Hperm, Hlen. reflexivity.
  - assert (Hdrop : drop 0 ids = ids) by reflexivity.
    rewrite Hids in Hdrop at 2.
    destruct (chain_path (rootId :: rest) 0 rootId rest eq_refl Hdrop)
      as (Hpath & Hagree & Hpm).
    rewrite <- Hids in Hpath, Hagree, Hpm.
    rewrite (traverseTree_path mapping rootId ids
               (chain_root _ _ Hids) Hpath Hagree fuel Hfuel).
    rewrite Hpm. reflexivity.
Qed.

End ChainFacts.

(** The two walks return exactly on the mappings that have a walked
    path. *)
Section WalkFacts.
Variable mapping : Mapping.

Lemma walk_forward_ends fuel : forall id leafId,
  walk_forward fuel mapping id = Ok leafId -> forward_ends mapping id leafId.
Proof.
  induction fuel as [|fuel IH]; intros id leafId Hrun; [discriminate|].
  simpl in Hrun. destruct (get mapping id) as [node|] eqn:Hget.
  - destruct (last (default [] (children node))) as [child|] eqn:Hlast.
    + eapply forward_step; [exact Hget | exact Hlast | apply IH, Hrun].
    + inversion Hrun; subst. eapply forward_leaf; eassumption.
  - inversion Hrun; subst. apply forward_missing, Hget.
Qed.

Lemma forward_ends_walk id leafId :
  forward_ends mapping id leafId ->
  exists n, forall fuel, n <= fuel -> walk_forward fuel mapping id = Ok leafId.
Proof.
  induction 1 as [id Hget | id node Hget Hlast
                 | id node child leafId Hget Hlast Hrest [n IH]].
  - exists 1. intros [|fuel] Hle; [lia|]. simpl. rewrite Hget. reflexivity.
  - exists 1. intros [|fuel] Hle; [lia|]. simpl. rewrite Hget, Hlast.
    reflexivity.
  - exists (S n). intros [|fuel] Hle; [lia|]. simpl. rewrite Hget, Hlast.
    apply IH. lia.
Qed.

Lemma visits_functional cur ids1 :
  visits mapping cur ids1 -> forall ids2, visits mapping cur ids2 -> ids1 = ids2.
Proof.
  induction 1 as [|id Hnone|id node rest Hnode Hrest IH]; intros ids2 H2;
    inversion H2; subst; try reflexivity; try congruence.
  f_equal. apply IH. congruence.
Qed.

Lemma forward_ends_functional id leaf1 :
  forward_ends mapping id leaf1 ->
  forall leaf2, forward_ends mapping id leaf2 -> leaf1 = leaf2.
Proof.
  induction 1 as [id Hget | id node Hget Hlast
                 | id node child leaf1 Hget Hlast Hrest IH];
    intros leaf2 H2; inversion H2; subst; try reflexivity; try congruence.
  apply IH. congruence.
Qed.

(** A mapping has at most one walked path. *)
Lemma walked_functional ids1 ids2 :
  walked mapping ids1 -> walked mapping ids2 -> ids1 = ids2.
Proof.
  unfold walked. destruct (find_root mapping) as [rootId|]; [|congruence].
  intros (leaf1 & Hf1 & Hv1) (leaf2 & Hf2 & Hv2).
  rewrite (forward_ends_functional _ _ Hf1 _ Hf2) in Hv1.
  exact (visits_functional _ _ Hv1 _ Hv2).
Qed.

Lemma walk_back_visits fuel : forall cur acc out,
  walk_back fuel mapping cur acc = Ok out ->
  exists ids, visits mapping cur ids
              /\ out = acc ++ path_messages mapping ids.
Proof.
  induction fuel as [|fuel IH]; intros cur acc out Hrun.
  - destruct cur as [id|]; [discriminate|]. simpl in Hrun. inversion Hrun.
    exists []. split; [constructor | rewrite app_nil_r; reflexivity].
  - destruct cur as [id|]; simpl in Hrun.
    + destruct (get mapping id) as [node|] eqn:Hget.
      * apply IH in Hrun as (ids & Hv & Hout).
        exists (id :: ids). split; [eapply visits_node; eassumption|].
        rewrite Hout. unfold path_messages. simpl. unfold pushed at 2.
        rewrite Hget.
        destruct (message node) as [msg|]; [destruct (kept msg)|];
          simpl; rewrite <- ?app_assoc; reflexivity.
      * inversion Hrun. exists []. split; [constructor; exact Hget|].
        rewrite app_nil_r. reflexivity.
    + inversion Hrun. exists [].
      split; [constructor | rewrite app_nil_r; reflexivity].
Qed.

Lemma visits_walk cur ids :
  visits mapping cur ids ->
  forall fuel acc, length ids < fuel ->
    walk_back fuel mapping cur acc = Ok (acc ++ path_messages mapping ids).
Proof.
  induction 1 as [|id Hnone|id node rest Hnode Hrest IH]; intros fuel acc Hlt.
  - destruct fuel; simpl; rewrite app_nil_r; reflexivity.
  - destruct fuel as [|fuel]; [simpl in Hlt; lia|]. simpl.
    rewrite Hnone, app_nil_r. reflexivity.
  - destruct fuel as [|fuel]; [lia|]. simpl in Hlt. simpl.
    rewrite Hnode, IH by lia.
    unfold path_messages. simpl. unfold pushed at 2. rewrite Hnode.
    destruct (message node) as [msg|]; [destruct (kept msg)|];
      simpl; rewrite <- ?app_assoc; reflexivity.
Qed.

Lemma pushed_entry id msg :
  msg ∈ pushed mapping id ->
  pushed mapping id = [msg]
  /\ exists node, (id, node) ∈ mapping /\ message node = Some msg.
Proof.
  unfold pushed, get. intros Hin.
  destruct (assoc id mapping) as [node|] eqn:Ha.
  - destruct (message node) as [m|] eqn:Hm;
      [destruct (kept m)|]; try (apply elem_of_nil in Hin; destruct Hin).
    apply list_elem_of_singleton in Hin. subst m.
    split; [reflexivity|]. exists node.
    split; [apply assoc_elem, Ha | exact Hm].
  - destruct (inherited id); apply elem_of_nil in Hin; destruct Hin.
Qed.

Lemma elem_of_path_messages ids msg :
  msg ∈ path_messages mapping ids
  <-> (exists id node, id ∈ ids /\ assoc id mapping = Some node
                       /\ message node = Some msg)
      /\ kept msg = true.
Proof.
  unfold path_messages. rewrite list_elem_of_In, in_flat_map. split.
  - intros (id & Hid & Hmsg). apply list_elem_of_In in Hid, Hmsg.
    unfold pushed, get in Hmsg.
    destruct (assoc id mapping) as [node|] eqn:Ha.
    + destruct (message node) as [m|] eqn:Hm;
        [destruct (kept m) eqn:Hk|];
        try (apply elem_of_nil in Hmsg; destruct Hmsg).
      apply list_elem_of_singleton in Hmsg. subst m.
      split; [|exact Hk]. exists id, node. auto.
    + destruct (inherited id); apply elem_of_nil in Hmsg; destruct Hmsg.
  - intros [(id & node & Hid & Ha & Hm) Hk]. exists id.
    split; [apply list_elem_of_In, Hid|].
    unfold pushed, get. rewrite Ha, Hm, Hk. left. reflexivity.
Qed.

Lemma traverseTree_walked fuel out :
  traverseTree fuel mapping = Ok out ->
  exists ids, walked mapping ids /\ out = rev (path_messages mapping ids).
Proof.
  unfold traverseTree, walked. destruct mapping as [|e rest] eqn:Hm.
  { intros H. inversion H. exists []. split; reflexivity. }
  rewrite <- Hm. destruct (find_root mapping) as [rootId|].
  2:{ intros H. inversion H. exists []. split; reflexivity. }
  destruct (walk_forward fuel mapping rootId) as [leafId| |] eqn:Hfwd;
    cbn [mbind Res_bind]; try discriminate.
  destruct (walk_back fuel mapping (Some leafId) []) as [msgs| |] eqn:Hback;
    cbn [mbind Res_bind mret Res_ret]; try discriminate.
  intros H. inversion H; subst out.
  apply walk_back_visits in Hback as (ids & Hv & ->). simpl app.
  exists ids. split; [|reflexivity].
  exists leafId. split; [eapply walk_forward_ends, Hfwd | exact Hv].
Qed.

Lemma walked_traverse ids :
  walked mapping ids ->
  exists n, forall fuel, n <= fuel ->
    traverseTree fuel mapping = Ok (rev (path_messages mapping ids)).
Proof.
  unfold traverseTree, walked. destruct mapping as [|e rest] eqn:Hm.
  { simpl. intros ->. exists 0. reflexivity. }
  rewrite <- Hm. destruct (find_root mapping) as [rootId|].
  2:{ intros ->. exists 0. reflexivity. }
  intros (leafId & Hfwd & Hback).
  destruct (forward_ends_walk _ _ Hfwd) as [n Hn].
  exists (Nat.max n (S (length ids))). intros fuel Hle.
  rewrite Hn by lia. cbn [mbind Res_bind].
  rewrite (visits_walk _ _ Hback) by lia. reflexivity.
Qed.

End WalkFacts.

(** C1 as stated fails: the way back follows the parent pointers, whatever
    the children lists say.  The question [q] has the children [old] and
    [new], so the last-child path is [q], [new]; but [new] names [old] as
    its parent, and the message of [old], the earlier sibling, is
    returned. *)
Lemma C1_counterexample :
  find_root Samples.crossed = Some (lit "q")
  /\ last_child_path Samples.crossed (lit "q") [lit "q"; lit "new"]
  /\ traverseTree 4 Samples.crossed
     = Ok [ Samples.raw_text "mq" "user" "why" None;
            Samples.raw_text "m1" "assistant" "first" None;
            Samples.raw_text "m3" "assistant" "second" None ]
  /\ ~ (forall fuel out msg,
          traverseTree fuel Samples.crossed = Ok out -> msg ∈ out ->
          exists id node,
            id ∈ [lit "q"; lit "new"]
            /\ assoc id Samples.crossed = Some node
            /\ message node = Some msg).
Proof.
  split; [reflexivity|]. split.
  { eapply path_step; [reflexivity | reflexivity |].
    eapply path_leaf; reflexivity. }
  split; [reflexivity|].
  intros Hall.
  destruct (Hall 4 _ (Samples.raw_text "m1" "assistant" "first" None) eq_refl)
    as (id & node & Hid & Hnode & Hmsg).
  { apply list_elem_of_further, list_elem_of_here. }
  repeat (apply elem_of_cons in Hid as [-> | Hid];
          [vm_compute in Hnode; inversion Hnode; subst node;
           vm_compute in Hmsg; discriminate|]).
  apply elem_of_nil in Hid. exact Hid.
Qed.

(** C1, amended.  Tree reconstruction follows the last-child branch when
    the parent pointers agree with it.  For a mapping
    that is a linear chain of [N] nodes, each with a non-empty text message
    of the user or the assistant, the traversal returns exactly these [N]
    messages, root first, as soon as the fuel covers the [N] nodes.  For a
    mapping with a root whose last-child path is [path] and whose parent
    pointers agree with that path, the traversal returns exactly the messages
    pushed along [path], root first: every message it returns is the message
    of a node of [path], none comes from an earlier sibling branch.  For
    every mapping, the traversal returns the messages pushed along the walked
    path, the nodes met on the way back along the parent pointers from the
    end of the last-child chain, in the order of the way there. *)
Theorem C1_traversal_follows_last_child :
  forall (chain : Mapping) (ids : list jsstring) (msgs : list RawMessage)
         (tree : Mapping) (rootId : jsstring) (path : list jsstring),
    is_chain chain ids msgs ->
    Forall plain_text_message msgs ->
    find_root tree = Some rootId ->
    last_child_path tree rootId path ->
    parents_agree tree None path ->
    (forall fuel, length ids <= fuel -> traverseTree fuel chain = Ok msgs)
    /\ length msgs = length ids
    /\ (forall fuel, length path <= fuel ->
                     traverseTree fuel tree = Ok (path_messages tree path))
    /\ (forall fuel out msg,
          traverseTree fuel tree = Ok out -> msg ∈ out ->
          exists id node,
            id ∈ path /\ assoc id tree = Some node /\ message node = Some msg)
    /\ (forall (mapping : Mapping) fuel out,
          traverseTree fuel mapping = Ok out ->
          exists walkedIds,
            walked mapping walkedIds
            /\ out = rev (path_messages mapping walkedIds)).
Proof.
  intros chain ids msgs tree rootId path Hchain Hplain Hroot Hpath Hagree.
  split; [intros fuel; apply chain_traverse; assumption|].
  split; [destruct Hchain as (_ & _ & Hlen & _); exact Hlen|].
  split; [intros fuel; apply traverseTree_path with rootId; assumption|].
  split; [|intros mapping fuel out; apply traverseTree_walked].
  intros fuel out msg Hrun Hmsg.
  pose proof (traverseTree_mono tree fuel (Nat.max fuel (length path)) out Hrun
                (Nat.le_max_l _ _)) as Hbig.
  rewrite (traverseTree_path tree rootId path Hroot Hpath Hagree
             (Nat.max fuel (length path)) (Nat.le_max_r _ _)) in Hbig.
  inversion Hbig; subst out. unfold path_messages in Hmsg.
  apply list_elem_of_In, in_flat_map in Hmsg as (id & Hid & Hin).
  exists id. unfold pushed, get in Hin.
  destruct (last_child_path_own tree rootId path Hpath id) as [node Hnode];
    [apply list_elem_of_In, Hid|]. rewrite Hnode in Hin. exists node.
  split; [apply list_elem_of_In, Hid|]. split; [exact Hnode|].
  destruct (message node) as [m|]; [|destruct Hin].
  destruct (kept m); [|destruct Hin].
  destruct Hin as [<- | []]. reflexivity.
Qed.

Lemma sample_plain_text id role t :
  (role = "user" \/ role = "assistant")%string ->
  t <> EmptyString -> nonblank (lit t) = true ->
  plain_text_message (Samples.raw_text id role t None).
Proof.
  intros Hrole _ Hnb. split.
  - eexists. split; [reflexivity|]. destruct Hrole as [-> | ->]; auto.
  - do 3 eexists. repeat split; try reflexivity; [|exact Hnb].
    apply list_elem_of_here.
Qed.

(** A chain of three nodes, and a question whose answer was regenerated. *)
Lemma C1_witness :
  traverseTree 3 Samples.chain3
  = Ok [ Samples.raw_text "ma" "user" "hi" None;
         Samples.raw_text "mb" "assistant" "hello" None;
         Samples.raw_text "mc" "user" "thanks" None ]
  /\ traverseTree 2 Samples.branching
     = Ok [ Samples.raw_text "mq" "user" "why" None;
            Samples.raw_text "m3" "assistant" "second" None ].
Proof.
  destruct (C1_traversal_follows_last_child
              Samples.chain3 [lit "a"; lit "b"; lit "c"]
              [ Samples.raw_text "ma" "user" "hi" None;
                Samples.raw_text "mb" "assistant" "hello" None;
                Samples.raw_text "mc" "user" "thanks" None ]
              Samples.branching (lit "q") [lit "q"; lit "new"])
    as (Hchain & _ & Htree & _).
  - split; [reflexivity|]. split.
    + apply (bool_decide_unpack _). vm_compute. exact I.
    + split; [reflexivity|]. intros k id Hk.
      destruct k as [|[|[|k]]]; inversion Hk; subst id;
        eexists; repeat split; reflexivity.
  - repeat constructor; apply sample_plain_text;
      first [ tauto | discriminate | reflexivity ].
  - reflexivity.
  - eapply path_step; [reflexivity | reflexivity |].
    eapply path_leaf; reflexivity.
  - simpl. repeat split; eexists; split; reflexivity.
  - split.
    + apply Hchain. simpl. lia.
    + rewrite Htree by (simpl; lia). reflexivity.
Defined.

Section RoleFacts.

Lemma kept_roles msg :
  kept msg = true ->
  role_of msg <> lit "tool"
  /\ (role_of msg = lit "system" -> user_system_flag msg = true).
Proof.
  unfold kept. intros Hkept. split.
  - intros Htool. rewrite Htool in Hkept. simpl in Hkept. discriminate.
  - intros Hsys. rewrite Hsys in Hkept.
    destruct (user_system_flag msg); [reflexivity|].
    simpl in Hkept. discriminate.
Qed.

Lemma kept_flagged_system msg :
  role_of msg = lit "system" -> user_system_flag msg = true ->
  kept msg = passes_content_rules msg.
Proof.
  intros Hsys Hflag. unfold kept, passes_content_rules.
  rewrite Hsys, Hflag.
  simpl. destruct (content msg) as [c|]; [|reflexivity].
  destruct (parts c) as [ps|]; [|reflexivity].
  destruct (existsb part_has_content ps);
    destruct (bool_decide (content_type c = Some (lit "text"))); reflexivity.
Qed.

(** A message is pushed exactly when it passes the role rules and the
    content rules. *)
Lemma kept_iff msg :
  kept msg = true
  <-> role_of msg <> lit "tool"
      /\ (role_of msg = lit "system" -> user_system_flag msg = true)
      /\ passes_content_rules msg = true.
Proof.
  unfold kept, passes_content_rules.
  destruct (bool_decide (role_of msg = lit "system")) eqn:Hsys;
    destruct (user_system_flag msg) eqn:Hflag;
    destruct (bool_decide (role_of msg = lit "tool")) eqn:Htool;
    try apply bool_decide_eq_true in Hsys;
    try apply bool_decide_eq_false in Hsys;
    try apply bool_decide_eq_true in Htool;
    try apply bool_decide_eq_false in Htool;
    cbn [andb negb];
    try (split; [discriminate | intros (H1 & H2 & _); try contradiction;
                                specialize (H2 Hsys); discriminate]).
  all: destruct (content msg) as [c|];
    [destruct (parts c) as [ps|];
     [destruct (existsb part_has_content ps);
      destruct (bool_decide (content_type c = Some (lit "text")))|]|];
    cbn [andb orb negb];
    (split; [intros H; try discriminate; repeat split; auto; intros; congruence
            | intros (_ & _ & H); try discriminate; reflexivity]).
Qed.

End RoleFacts.

(** C7 as stated fails: a system message with the flag set is dropped all the
    same when its text is empty. *)
Lemma C7_counterexample :
  role_of Samples.flagged_blank = lit "system"
  /\ user_system_flag Samples.flagged_blank = true
  /\ traverseTree 1 Samples.only_flagged_blank = Ok []
  /\ ~ (exists fuel out,
          traverseTree fuel Samples.only_flagged_blank = Ok out
          /\ Samples.flagged_blank ∈ out).
Proof.
  split; [reflexivity|]. split; [reflexivity|]. split; [reflexivity|].
  intros (fuel & out & Hrun & Hin).
  destruct (traverseTree_pushed _ _ _ _ Hrun Hin) as [Hkept _].
  vm_compute in Hkept. discriminate.
Qed.

(** C7, amended.  For every mapping, no message in the reconstructed list
    has the role [tool], and none has the role [system] without the
    user-system flag.  A system message with the flag set is not dropped by
    the role rules: it is kept exactly when it passes the content rules (it
    has a payload with a parts array and, for the content type [text], a
    part that is not blank); and on a mapping whose parent pointers agree
    with its last-child path, every kept message of a node of that path is in
    the reconstructed list.  In general the mapping has one walked path, the
    nodes met on the way back along the parent pointers from the end of the
    last-child chain, and a message is in the reconstructed list exactly
    when it is the message of a node of the walked path, passes the role
    rules and passes the content rules; so a system message with the flag
    set is in the list exactly when its node is on the walked path and it
    passes the content rules. *)
Theorem C7_role_filtering :
  forall (mapping : Mapping) (fuel : nat) (out : list RawMessage),
    traverseTree fuel mapping = Ok out ->
    (forall msg, msg ∈ out ->
                 role_of msg <> lit "tool"
                 /\ (role_of msg = lit "system" -> user_system_flag msg = true))
    /\ (forall msg,
          role_of msg = lit "system" -> user_system_flag msg = true ->
          kept msg = passes_content_rules msg)
    /\ (forall rootId path id node msg,
          find_root mapping = Some rootId ->
          last_child_path mapping rootId path ->
          parents_agree mapping None path ->
          id ∈ path -> assoc id mapping = Some node ->
          message node = Some msg ->
          kept msg = true ->
          msg ∈ out)
    /\ exists walkedIds,
         walked mapping walkedIds
         /\ (forall ids, walked mapping ids -> ids = walkedIds)
         /\ (forall msg,
               msg ∈ out
               <-> (exists id node,
                      id ∈ walkedIds /\ assoc id mapping = Some node
                      /\ message node = Some msg)
                   /\ role_of msg <> lit "tool"
                   /\ (role_of msg = lit "system" ->
                       user_system_flag msg = true)
                   /\ passes_content_rules msg = true)
         /\ (forall msg,
               role_of msg = lit "system" -> user_system_flag msg = true ->
               (msg ∈ out
                <-> (exists id node,
                       id ∈ walkedIds /\ assoc id mapping = Some node
                       /\ message node = Some msg)
                    /\ passes_content_rules msg = true)).
Proof.
  intros mapping fuel out Hrun. split; [|split; [|split]].
  - intros msg Hmsg. apply kept_roles.
    exact (proj1 (traverseTree_pushed _ _ _ _ Hrun Hmsg)).
  - apply kept_flagged_system.
  - intros rootId path id node msg Hroot Hpath Hagree Hid Hnode Hmsg Hkept.
    pose proof (traverseTree_mono mapping fuel (Nat.max fuel (length path)) out
                  Hrun (Nat.le_max_l _ _)) as Hbig.
    rewrite (traverseTree_path mapping rootId path Hroot Hpath Hagree
               (Nat.max fuel (length path)) (Nat.le_max_r _ _)) in Hbig.
    inversion Hbig; subst out. unfold path_messages.
    apply list_elem_of_In, in_flat_map. exists id.
    split; [apply list_elem_of_In, Hid|].
    unfold pushed. rewrite (get_own _ _ _ Hnode), Hmsg, Hkept. left. reflexivity.
  - destruct (traverseTree_walked mapping fuel out Hrun) as (ids & Hw & Hout).
    exists ids. split; [exact Hw|].
    split; [intros ids' Hw'; exact (walked_functional mapping ids' ids Hw' Hw)|].
    assert (Hin : forall msg,
              msg ∈ out
              <-> (exists id node,
                     id ∈ ids /\ assoc id mapping = Some node
                     /\ message node = Some msg)
                  /\ kept msg = true).
    { intros msg. rewrite Hout, <- elem_of_path_messages.
      rewrite !list_elem_of_In. symmetry. apply in_rev. }
    split.
    + intros msg. rewrite Hin, kept_iff. reflexivity.
    + intros msg Hsys Hflag. rewrite Hin, kept_iff. split.
      * intros (Hnode & _ & _ & Hrules). split; assumption.
      * intros (Hnode & Hrules). split; [exact Hnode|].
        split; [rewrite Hsys; discriminate|].
        split; [intros _; exact Hflag | exact Hrules].
Qed.

(** Five nodes in a row.  The flagged system message is in the list, and
    the assistant message of the list is not a tool message; the tool
    message, though on the walked path and with content, is not in the
    list. *)
Lemma C7_witness :
  Samples.raw_text "ms1" "system" "Be brief" Samples.flag_set
  ∈ [ Samples.raw_text "ms1" "system" "Be brief" Samples.flag_set;
      Samples.raw_text "mu" "user" "hi" None;
      Samples.raw_text "ma" "assistant" "hello" None ]
  /\ role_of (Samples.raw_text "ma" "assistant" "hello" None) <> lit "tool"
  /\ exists walkedIds,
       walked Samples.with_roles walkedIds
       /\ (Samples.raw_text "mu" "user" "hi" None
           ∈ [ Samples.raw_text "ms1" "system" "Be brief" Samples.flag_set;
               Samples.raw_text "mu" "user" "hi" None;
               Samples.raw_text "ma" "assistant" "hello" None ]
           <-> (exists id node,
                  id ∈ walkedIds /\ assoc id Samples.with_roles = Some node
                  /\ message node = Some (Samples.raw_text "mu" "user" "hi" None))
               /\ role_of (Samples.raw_text "mu" "user" "hi" None) <> lit "tool"
               /\ (role_of (Samples.raw_text "mu" "user" "hi" None) = lit "system"
                   -> user_system_flag (Samples.raw_text "mu" "user" "hi" None)
                      = true)
               /\ passes_content_rules (Samples.raw_text "mu" "user" "hi" None)
                  = true).
Proof.
  destruct (C7_role_filtering Samples.with_roles 5
              [ Samples.raw_text "ms1" "system" "Be brief" Samples.flag_set;
                Samples.raw_text "mu" "user" "hi" None;
                Samples.raw_text "ma" "assistant" "hello" None ])
    as (Hout & Hflag & Hpath & walkedIds & Hwalked & _ & Hiff & _).
  - reflexivity.
  - split; [|split].
    + eapply (Hpath (lit "s1")
                    [lit "s1"; lit "u"; lit "t"; lit "s2"; lit "a"]
                    (lit "s1")); [reflexivity | ..].
      * repeat (eapply path_step; [reflexivity | reflexivity |]).
        eapply path_leaf; reflexivity.
      * simpl. repeat split; eexists; split; reflexivity.
      * apply list_elem_of_here.
      * reflexivity.
      * reflexivity.
      * rewrite Hflag; reflexivity.
    + apply Hout. apply list_elem_of_In. right. right. left. reflexivity.
    + exists walkedIds. split; [exact Hwalked|]. apply Hiff.
Defined.

Section ParseFacts.

Lemma mapM_cons {A B : Type} (f : A -> Res B) x xs :
  mapM f (x :: xs)
  = match f x with
    | Ok y => match mapM f xs with
              | Ok ys => Ok (y :: ys)
              | Timeout => Timeout
              | Anomaly => Anomaly
              end
    | Timeout => Timeout
    | Anomaly => Anomaly
    end.
Proof. simpl. destruct (f x); [|reflexivity..]. simpl.
       destruct (mapM f xs); reflexivity. Qed.

Lemma mapM_Ok_length {A B : Type} (f : A -> Res B) xs : forall ys,
  mapM f xs = Ok ys -> length ys = length xs.
Proof.
  induction xs as [|x xs IH]; intros ys Hrun.
  - inversion Hrun. reflexivity.
  - rewrite mapM_cons in Hrun. destruct (f x); try discriminate.
    destruct (mapM f xs) as [ys'| |]; try discriminate.
    inversion Hrun. simpl. f_equal. apply IH. reflexivity.
Qed.

Lemma mapM_all_Ok {A B : Type} (f : A -> Res B) xs :
  (forall x, x ∈ xs -> exists y, f x = Ok y) ->
  exists ys, mapM f xs = Ok ys.
Proof.
  induction xs as [|x xs IH]; intros Hall; [exists []; reflexivity|].
  destruct (Hall x (list_elem_of_here _ _)) as [y Hy].
  destruct IH as [ys Hys].
  { intros x' Hx'. apply Hall, list_elem_of_further, Hx'. }
  exists (y :: ys). rewrite mapM_cons, Hy, Hys. reflexivity.
Qed.

Lemma renderContent_Ok (c : RawContent) :
  inherited (or_str (content_type c) (lit "text")) = false ->
  exists frags, renderContent c = Ok frags.
Proof.
  intros Hinh. unfold renderContent, select_handler.
  destruct (assoc _ HANDLERS); [eauto|]. rewrite Hinh. eauto.
Qed.

Lemma parseMessage_Ok (raw : RawMessage) :
  inherited (dispatch_type raw) = false -> exists m, parseMessage raw = Ok m.
Proof.
  intros Hinh. unfold parseMessage.
  destruct (renderContent_Ok _ Hinh) as [frags Hfrags].
  rewrite Hfrags. simpl. eauto.
Qed.

(** The model slug of a parsed message is [null] or a non-empty string. *)
Lemma parseMessage_modelSlug (raw : RawMessage) m :
  parseMessage raw = Ok m -> modelSlug m <> Some [].
Proof.
  unfold parseMessage. destruct (renderContent _); try discriminate.
  simpl. intros Heq. inversion Heq; subst m. simpl.
  destruct (metadata raw) as [md|]; [|discriminate].
  unfold first_truthy.
  destruct (model_slug md) as [[|c r]|]; simpl; try discriminate;
    destruct (model md) as [[|c' r']|]; simpl; discriminate.
Qed.

Lemma degenerate_no_messages fuel rawConv :
  degenerate rawConv ->
  exists c, parseOne fuel false rawConv = Ok (Full c) /\ messages c = [].
Proof.
  unfold parseOne, traverseAndParse, traverseTree.
  intros [Hm | [Hm | (m & Hm & Hroot)]]; rewrite Hm; simpl.
  - eexists. split; reflexivity.
  - eexists. split; reflexivity.
  - destruct m as [|e m']; [eexists; split; reflexivity|].
    rewrite Hroot. simpl. eexists. split; reflexivity.
Qed.

Lemma get_message (m : Mapping) id node msg :
  get m id = Some node -> message node = Some msg -> (id, node) ∈ m.
Proof.
  unfold get. destruct (assoc id m) as [n|] eqn:Ha.
  - intros Heq _. inversion Heq; subst. apply assoc_elem, Ha.
  - destruct (inherited id); [|discriminate].
    intros Heq Hmsg. inversion Heq; subst. discriminate.
Qed.

Lemma traverseAndParse_Ok fuel (m : Mapping) out :
  traverseTree fuel m = Ok out ->
  (forall id node msg, (id, node) ∈ m -> message node = Some msg ->
                       inherited (dispatch_type msg) = false) ->
  exists msgs, traverseAndParse fuel m = Ok msgs.
Proof.
  intros Hrun Hplain. unfold traverseAndParse.
  destruct m as [|e m'] eqn:Hm; [eauto|]. rewrite <- Hm in *.
  rewrite Hrun. simpl. apply mapM_all_Ok. intros raw Hraw.
  destruct (traverseTree_pushed _ _ _ _ Hrun Hraw) as (_ & id & node & Hget & Hmsg).
  apply parseMessage_Ok. eapply Hplain; [|exact Hmsg].
  eapply get_message; eassumption.
Qed.

Lemma parseOne_mono fuel fuel' metadataOnly rawConv out :
  parseOne fuel metadataOnly rawConv = Ok out -> fuel <= fuel' ->
  parseOne fuel' metadataOnly rawConv = Ok out.
Proof.
  unfold parseOne. destruct metadataOnly; [tauto|].
  unfold traverseAndParse. intros Hrun Hle.
  destruct (default [] (mapping rawConv)) as [|e m'] eqn:Hm; [exact Hrun|].
  rewrite <- Hm in *.
  destruct (traverseTree fuel (default [] (mapping rawConv))) as [raws| |] eqn:Ht;
    try discriminate.
  rewrite (traverseTree_mono _ _ _ _ Ht Hle). exact Hrun.
Qed.

Lemma parseOne_full_Ok rawConv :
  walks_end rawConv -> plain_types rawConv ->
  exists fuel out, parseOne fuel false rawConv = Ok out.
Proof.
  intros (ids & Hwalked) Hplain.
  destruct (walked_traverse _ ids Hwalked) as [fuel Hfuel].
  pose proof (Hfuel fuel (Nat.le_refl _)) as Hrun. exists fuel.
  destruct (traverseAndParse_Ok fuel _ _ Hrun Hplain) as [msgs Hmsgs].
  unfold parseOne. rewrite Hmsgs. simpl. eauto.
Qed.

Lemma parseConversations_full_Ok rawData :
  (forall r, r ∈ rawData -> walks_end r /\ plain_types r) ->
  exists fuel, forall fuel', fuel <= fuel' ->
    exists out, parseConversations fuel' false rawData = Ok out.
Proof.
  unfold parseConversations.
  induction rawData as [|r rest IH]; intros Hall.
  - exists 0. intros fuel' _. exists []. reflexivity.
  - destruct IH as [f1 Hf1].
    { intros r' Hr'. apply Hall, list_elem_of_further, Hr'. }
    destruct (Hall r (list_elem_of_here _ _)) as [Hw Hp].
    destruct (parseOne_full_Ok r Hw Hp) as (f2 & o & Ho).
    exists (Nat.max f1 f2). intros fuel' Hle.
    destruct (Hf1 fuel') as [out Hout]; [lia|].
    exists (o :: out). rewrite mapM_cons.
    rewrite (parseOne_mono f2 fuel' false r o Ho) by lia.
    rewrite Hout. reflexivity.
Qed.

Lemma parseConversations_meta_Ok fuel rawData :
  exists out, parseConversations fuel true rawData = Ok out.
Proof.
  unfold parseConversations. apply mapM_all_Ok.
  intros r _. unfold parseOne. eauto.
Qed.

Lemma mapM_Ok_elem {A B : Type} (f : A -> Res B) xs : forall ys y,
  mapM f xs = Ok ys -> y ∈ ys -> exists x, x ∈ xs /\ f x = Ok y.
Proof.
  induction xs as [|x xs IH]; intros ys y Hrun Hy.
  - inversion Hrun; subst. apply elem_of_nil in Hy. destruct Hy.
  - rewrite mapM_cons in Hrun. destruct (f x) as [y0| |] eqn:Hx; try discriminate.
    destruct (mapM f xs) as [ys'| |]; try discriminate.
    inversion Hrun; subst ys. apply elem_of_cons in Hy as [-> | Hy].
    + exists x. split; [apply list_elem_of_here | exact Hx].
    + destruct (IH ys' y eq_refl Hy) as (x' & Hx' & Hfx').
      exists x'. split; [apply list_elem_of_further, Hx' | exact Hfx'].
Qed.

(** A conversation built by the full parse has no empty model slug, and its
    [modelSlugs] is the slug set of its messages. *)
Lemma parseOne_wellformed fuel rawConv c :
  parseOne fuel false rawConv = Ok (Full c) ->
  (forall m, m ∈ messages c -> modelSlug m <> Some [])
  /\ modelSlugs c = slugs_of (messages c).
Proof.
  unfold parseOne.
  destruct (traverseAndParse fuel _) as [msgs| |] eqn:Hparse; try discriminate.
  simpl. intros Heq. inversion Heq; subst c. simpl. split; [|reflexivity].
  intros m Hm. unfold traverseAndParse in Hparse.
  destruct (default [] (mapping rawConv)) as [|e rest].
  - inversion Hparse; subst. apply elem_of_nil in Hm. destruct Hm.
  - destruct (traverseTree fuel (e :: rest)) as [raws| |]; try discriminate.
    simpl in Hparse.
    destruct (mapM_Ok_elem _ _ _ _ Hparse Hm) as (raw & _ & Hraw).
    exact (parseMessage_modelSlug raw m Hraw).
Qed.

(** A record on which the traversal returns has a walked path. *)
Lemma returns_walks_end fuel out rawConv :
  traverseTree fuel (default [] (mapping rawConv)) = Ok out ->
  walks_end rawConv.
Proof.
  intros Hrun. destruct (traverseTree_walked _ _ _ Hrun) as (ids & Hw & _).
  exists ids. exact Hw.
Qed.

(** On a root that is its own last child the forward walk never ends. *)
Lemma self_loop_forward fuel :
  walk_forward fuel Samples.self_loop (lit "a") = Timeout.
Proof. induction fuel as [|fuel IH]; [reflexivity | exact IH]. Qed.

End ParseFacts.

(** C6 as stated fails: on a record whose root lists itself as its child the
    full parse returns nothing, whatever the fuel. *)
Lemma C6_counterexample :
  ~ (exists fuel out,
       parseConversations fuel false
         [Samples.record "loop" (Some Samples.self_loop)] = Ok out).
Proof.
  intros (fuel & out & Hrun).
  unfold parseConversations in Hrun. rewrite mapM_cons in Hrun.
  unfold parseOne, traverseAndParse, traverseTree in Hrun.
  simpl in Hrun. rewrite self_loop_forward in Hrun. discriminate.
Qed.

(** C6, amended.  Parsing in metadata-only mode returns one entity per
    input record, for every input.  Parsing in full mode returns one entity
    per input record when, in every record, the last-child chain from the
    root and the parent chain from its end are finite (the code has no cycle
    detection) and no message declares a content type that names a member of
    [Object.prototype].  In both cases a record whose mapping is missing,
    empty, or without a root yields a conversation with an empty message
    list, whatever the fuel. *)
Theorem C6_one_entity_per_record :
  forall rawData : list RawConversation,
    (forall fuel, exists out,
        parseConversations fuel true rawData = Ok out
        /\ length out = length rawData)
    /\ ((forall r, r ∈ rawData -> walks_end r /\ plain_types r) ->
        exists fuel, forall fuel', fuel <= fuel' ->
          exists out,
            parseConversations fuel' false rawData = Ok out
            /\ length out = length rawData)
    /\ (forall fuel r,
          degenerate r ->
          exists c, parseOne fuel false r = Ok (Full c) /\ messages c = []).
Proof.
  intros rawData. split; [|split].
  - intros fuel. destruct (parseConversations_meta_Ok fuel rawData) as [out Hout].
    exists out. split; [exact Hout|]. exact (mapM_Ok_length _ _ _ Hout).
  - intros Hall.
    destruct (parseConversations_full_Ok rawData Hall) as [fuel Hfuel].
    exists fuel. intros fuel' Hle. destruct (Hfuel fuel' Hle) as [out Hout].
    exists out. split; [exact Hout|]. exact (mapM_Ok_length _ _ _ Hout).
  - intros fuel r. apply degenerate_no_messages.
Qed.

(** A chain, a record without mapping, one with an empty mapping and one
    without a root: one entity each in full mode.  The record whose root is
    its own child: one entity in metadata-only mode. *)
Lemma C6_witness :
  (exists fuel out,
     parseConversations fuel false
       [ Samples.record "chain" (Some Samples.chain3);
         Samples.record "none" None;
         Samples.record "empty" (Some []);
         Samples.record "rootless" (Some Samples.rootless) ] = Ok out
     /\ length out = 4)
  /\ (exists out,
        parseConversations 0 true
          [Samples.record "loop" (Some Samples.self_loop)] = Ok out
        /\ length out = 1).
Proof.
  split.
  - destruct (C6_one_entity_per_record
                [ Samples.record "chain" (Some Samples.chain3);
                  Samples.record "none" None;
                  Samples.record "empty" (Some []);
                  Samples.record "rootless" (Some Samples.rootless) ])
      as (_ & Hfull & _).
    destruct Hfull as (fuel & Hfuel).
    + intros r Hr.
      repeat (apply elem_of_cons in Hr as [-> | Hr]);
        [| | | | apply elem_of_nil in Hr; destruct Hr];
        (split; [eapply (returns_walks_end 3); vm_compute; reflexivity|]);
        intros id node msg Hin Hmsg; simpl in Hin;
        repeat (apply elem_of_cons in Hin as [Heq | Hin];
                [inversion Heq; subst; simpl in Hmsg; inversion Hmsg; subst;
                 try discriminate; reflexivity|]);
        apply elem_of_nil in Hin; destruct Hin.
    + exists fuel. destruct (Hfuel fuel (Nat.le_refl _)) as (out & Hout & Hlen).
      exists out. split; [exact Hout | exact Hlen].
  - destruct (C6_one_entity_per_record
                [Samples.record "loop" (Some Samples.self_loop)])
      as (Hmeta & _ & _).
    exact (Hmeta 0).
Defined.

(* ===================================================================== *)
(** * Properties of the clusterer *)
(* ===================================================================== *)

Section ClusterFacts.

Lemma concat_Permutation {A : Type} (l l' : list (list A)) :
  l ≡ₚ l' -> concat l ≡ₚ concat l'.
Proof.
  induction 1 as [|x l l' _ IH|x y l|l l' l'' _ IH1 _ IH2]; simpl.
  - reflexivity.
  - rewrite IH. reflexivity.
  - rewrite !app_assoc. f_equiv. apply Permutation_app_comm.
  - etransitivity; eassumption.
Qed.

(** A merge moves the members of cluster [j] to the end of cluster [i]. *)
Lemma merge_Permutation (clusters : list (list nat)) : forall i j,
  i < j -> j < length clusters ->
  concat (merge i j clusters) ≡ₚ concat clusters.
Proof.
  intros i j Hij Hj. unfold merge.
  apply lookup_lt_is_Some in Hj as [x Hx]. rewrite Hx. simpl.
  revert i j Hij Hx.
  induction clusters as [|c cs IH]; intros i j Hij Hx; [discriminate|].
  destruct j as [|j]; [lia|]. simpl in Hx.
  destruct i as [|i]; simpl.
  - rewrite (concat_Permutation _ _ (delete_Permutation cs j x Hx)). simpl.
    rewrite <- !app_assoc. f_equiv.
  - rewrite (IH i j) by (assumption || lia). reflexivity.
Qed.

Lemma merge_loop_Permutation topKeywords clusters :
  concat (merge_loop topKeywords clusters) ≡ₚ concat clusters.
Proof.
  funelim (merge_loop topKeywords clusters); try reflexivity.
  match goal with
  | IH : concat (merge_loop _ _) ≡ₚ _ |- _ => rewrite IH
  end.
  match goal with
  | Hb : find_best _ _ = _ |- _ =>
      destruct (find_best_bound _ _ _ _ _ Hb) as [Hij Hj]
  end.
  apply merge_Permutation; assumption.
Qed.

Lemma concat_filter_split (p q : list nat -> bool) (l : list (list nat)) :
  (forall c, q c = negb (p c)) ->
  concat (List.filter p l) ++ concat (List.filter q l) ≡ₚ concat l.
Proof.
  intros Hq. induction l as [|c l IH]; [reflexivity|].
  simpl. rewrite (Hq c). destruct (p c); simpl.
  - rewrite <- app_assoc. f_equiv. exact IH.
  - rewrite app_assoc, (Permutation_app_comm (concat _) c), <- app_assoc.
    f_equiv. exact IH.
Qed.

Lemma concat_singletons n k :
  concat (List.map (fun i => [i]) (seq k n)) = seq k n.
Proof.
  revert k. induction n as [|n IH]; intros k; [reflexivity|].
  simpl. f_equal. apply IH.
Qed.

(** The index clusters hold every position exactly once. *)
Lemma agglomerativeCluster_partition conversations topKeywords :
  concat (agglomerativeCluster conversations topKeywords)
  ≡ₚ seq 0 (length conversations).
Proof.
  unfold agglomerativeCluster.
  set (clusters := merge_loop topKeywords _).
  assert (Hall : concat clusters ≡ₚ seq 0 (length conversations)).
  { unfold clusters. rewrite merge_loop_Permutation.
    rewrite concat_singletons. reflexivity. }
  pose proof (concat_filter_split
                (fun c => MIN_CLUSTER_SIZE <=? length c)
                (fun c => length c <? MIN_CLUSTER_SIZE) clusters) as Hsplit.
  rewrite <- Hall, <- Hsplit.
  2:{ intros c. destruct (Nat.leb_spec MIN_CLUSTER_SIZE (length c));
        destruct (Nat.ltb_spec (length c) MIN_CLUSTER_SIZE); (reflexivity || lia). }
  destruct (List.filter (fun c => length c <? MIN_CLUSTER_SIZE) clusters)
    as [|s singles].
  - simpl. rewrite app_nil_r. reflexivity.
  - rewrite concat_app. simpl concat at 2. rewrite app_nil_r. reflexivity.
Qed.

Lemma omap_concat {A B : Type} (f : A -> option B) (ls : list (list A)) :
  omap f (concat ls) = concat (List.map (omap f) ls).
Proof.
  induction ls as [|l ls IH]; [reflexivity|].
  simpl. rewrite omap_app, IH. reflexivity.
Qed.

Lemma omap_lookup_seq_from {A : Type} (l : list A) : forall pre,
  omap (fun i => (pre ++ l) !! i) (seq (length pre) (length l)) = l.
Proof.
  induction l as [|x l IH]; intros pre; [reflexivity|].
  simpl seq. simpl omap.
  rewrite lookup_app_r, Nat.sub_diag by lia. simpl. f_equal.
  specialize (IH (pre ++ [x])).
  rewrite length_app, Nat.add_1_r, <- app_assoc in IH. exact IH.
Qed.

Lemma omap_lookup_seq {A : Type} (l : list A) :
  omap (fun i => l !! i) (seq 0 (length l)) = l.
Proof. exact (omap_lookup_seq_from l []). Qed.

Section Labelled.
Variable toUpperCase : jsstring -> jsstring.
Variable topKeywordsOf : list Conversation -> Conversation -> list jsstring.

Lemma clusterConversations_indices conversations :
  exists indices : list (list nat),
    concat indices ≡ₚ seq 0 (length conversations)
    /\ List.map Clusterer.conversations
         (clusterConversations toUpperCase topKeywordsOf conversations)
       = List.map (omap (fun i => conversations !! i)) indices.
Proof.
  unfold clusterConversations.
  destruct (length conversations <? 2).
  - exists [seq 0 (length conversations)]. split.
    + simpl. rewrite app_nil_r. reflexivity.
    + simpl. rewrite omap_lookup_seq. reflexivity.
  - eexists. split; [apply agglomerativeCluster_partition|].
    rewrite List.map_map. reflexivity.
Qed.

Lemma clusterConversations_partition conversations :
  concat (List.map Clusterer.conversations
            (clusterConversations toUpperCase topKeywordsOf conversations))
  ≡ₚ conversations.
Proof.
  destruct (clusterConversations_indices conversations)
    as (indices & Hperm & ->).
  rewrite <- omap_concat, Hperm. rewrite omap_lookup_seq. reflexivity.
Qed.

(** No topic template reads [General], and no synthesized label does. *)
Lemma generateLabel_General keywords :
  generateLabel toUpperCase keywords = lit "General" <-> keywords = [].
Proof.
  split; [|intros ->; reflexivity].
  unfold generateLabel.
  destruct (List.find _ keywords) as [keyword|] eqn:Hfind.
  - apply find_some in Hfind as [_ Hsome].
    apply bool_decide_eq_true in Hsome as [label Hlabel].
    rewrite Hlabel. simpl. intros ->. exfalso.
    apply assoc_elem in Hlabel.
    assert (Hno : Forall (fun kv : jsstring * jsstring => kv.2 <> lit "General")
                         TOPIC_TEMPLATES)
      by (apply (bool_decide_unpack _); vm_compute; exact I).
    rewrite Forall_forall in Hno. exact (Hno _ Hlabel eq_refl).
  - destruct keywords as [|word rest]; [reflexivity|].
    intros Habs. discriminate Habs.
Qed.
End Labelled.

End ClusterFacts.

(** C4.  Clustering returns a partition.  The clusters are built from index
    lists that together hold every position of the input exactly once, each
    cluster holding the conversations at its indices; so the clusters'
    conversation lists, concatenated, are a rearrangement of the input.  With
    fewer than two conversations the result is the single cluster labelled
    [All Conversations] that holds the whole input. *)
Theorem C4_clusters_partition :
  forall (toUpperCase : jsstring -> jsstring)
         (topKeywordsOf : list Conversation -> Conversation -> list jsstring)
         (conversations : list Conversation),
    (exists indices : list (list nat),
        concat indices ≡ₚ seq 0 (length conversations)
        /\ List.map Clusterer.conversations
             (clusterConversations toUpperCase topKeywordsOf conversations)
           = List.map (omap (fun i => conversations !! i)) indices)
    /\ concat (List.map Clusterer.conversations
                 (clusterConversations toUpperCase topKeywordsOf conversations))
       ≡ₚ conversations
    /\ (length conversations < 2 ->
        clusterConversations toUpperCase topKeywordsOf conversations
        = [ {| label := lit "All Conversations";
               Clusterer.conversations := conversations;
               keywords := [] |} ]).
Proof.
  intros toUpperCase topKeywordsOf conversations. split; [|split].
  - apply clusterConversations_indices.
  - apply clusterConversations_partition.
  - intros Hlt. unfold clusterConversations.
    destruct (Nat.ltb_spec (length conversations) 2); [reflexivity | lia].
Qed.

(** One conversation, and three of which two share their keyword. *)
Lemma C4_witness :
  clusterConversations Organizer.ascii_lower Samples.title_keyword
    [Samples.titled "python"]
  = [ {| label := lit "All Conversations";
         Clusterer.conversations := [Samples.titled "python"];
         keywords := [] |} ]
  /\ concat (List.map Clusterer.conversations
               (clusterConversations Organizer.ascii_lower Samples.title_keyword
                  [Samples.titled "python"; Samples.titled "cooking";
                   Samples.titled "python"]))
     ≡ₚ [Samples.titled "python"; Samples.titled "cooking"; Samples.titled "python"].
Proof.
  split.
  - destruct (C4_clusters_partition Organizer.ascii_lower Samples.title_keyword
                [Samples.titled "python"]) as (_ & _ & Hone).
    apply Hone. simpl. lia.
  - destruct (C4_clusters_partition Organizer.ascii_lower Samples.title_keyword
                [Samples.titled "python"; Samples.titled "cooking";
                 Samples.titled "python"]) as (_ & Hperm & _).
    exact Hperm.
Defined.

(** C5.  The clusters of fewer than two members are pooled into one last
    cluster, none is dropped; but that cluster is labelled like any other,
    from its keywords: two conversations with the unrelated keywords [python]
    and [cooking] end up in one pooled cluster labelled
    [Your Python Projects].  The label is [General] only for a cluster
    without any keyword. *)
Theorem C5_residual_label_from_keywords :
  forall (toUpperCase : jsstring -> jsstring)
         (conversations : list Conversation)
         (topKeywords : list (list jsstring)),
    agglomerativeCluster conversations topKeywords
    = List.filter (fun c => 2 <=? length c)
        (merge_loop topKeywords
           (List.map (fun i => [i]) (seq 0 (length conversations))))
      ++ match
           List.filter (fun c => length c <? 2)
             (merge_loop topKeywords
                (List.map (fun i => [i]) (seq 0 (length conversations))))
         with
         | [] => []
         | singles => [concat singles]
         end
    /\ agglomerativeCluster [Samples.titled "python"; Samples.titled "cooking"]
                            [[lit "python"]; [lit "cooking"]]
       = [[0; 1]]
    /\ clusterConversations toUpperCase Samples.title_keyword
         [Samples.titled "python"; Samples.titled "cooking"]
       = [ {| label := lit "Your Python Projects";
              Clusterer.conversations :=
                [Samples.titled "python"; Samples.titled "cooking"];
              keywords := [lit "python"; lit "cooking"] |} ]
    /\ (forall keywords,
          generateLabel toUpperCase keywords = lit "General" <-> keywords = []).
Proof.
  intros toUpperCase conversations topKeywords. split.
  { unfold agglomerativeCluster, MIN_CLUSTER_SIZE.
    destruct (List.filter (fun c => length c <? 2) _);
      [rewrite app_nil_r|]; reflexivity. }
  split; [vm_compute; reflexivity|].
  split; [vm_compute; reflexivity|].
  apply generateLabel_General.
Qed.

(* ===================================================================== *)
(** * Further properties of the clusterer *)
(* ===================================================================== *)

Section JaccardFacts.

Lemma Zpos_of_nat (n : nat) : n <> 0 -> Zpos (Pos.of_nat n) = Z.of_nat n.
Proof.
  intros Hn. rewrite <- positive_nat_Z, Nat2Pos.id by exact Hn. reflexivity.
Qed.

Lemma NoDup_bool_filter {A : Type} (f : A -> bool) (l : list A) :
  NoDup l -> NoDup (List.filter f l).
Proof.
  intros H. apply NoDup_ListNoDup, List.NoDup_filter, NoDup_ListNoDup, H.
Qed.

Lemma elem_of_bool_filter {A : Type} (f : A -> bool) (l : list A) x :
  x ∈ List.filter f l <-> x ∈ l /\ f x = true.
Proof. rewrite !list_elem_of_In. apply filter_In. Qed.

(** The members of a set that belong to another set are no more than the
    members of that other set. *)
Lemma intersection_le (setA setB : list jsstring) :
  NoDup setA ->
  length (List.filter (fun item => bool_decide (item ∈ setB)) setA)
  <= length setB.
Proof.
  intros Hnd. apply submseteq_length, NoDup_submseteq.
  - apply NoDup_bool_filter, Hnd.
  - intros x Hx. apply elem_of_bool_filter in Hx as [_ Hx].
    apply bool_decide_eq_true in Hx. exact Hx.
Qed.

Lemma intersection_comm (setA setB : list jsstring) :
  NoDup setA -> NoDup setB ->
  length (List.filter (fun item => bool_decide (item ∈ setB)) setA)
  = length (List.filter (fun item => bool_decide (item ∈ setA)) setB).
Proof.
  intros Ha Hb. apply Permutation_length, NoDup_Permutation.
  - apply NoDup_bool_filter, Ha.
  - apply NoDup_bool_filter, Hb.
  - intros x. rewrite !elem_of_bool_filter, !bool_decide_eq_true. tauto.
Qed.

Lemma jaccard_range (setA setB : list jsstring) :
  NoDup setA ->
  (0 <= jaccardSimilarity setA setB)%Q /\ (jaccardSimilarity setA setB <= 1)%Q.
Proof.
  intros Hnd. unfold jaccardSimilarity.
  pose proof (intersection_le setA setB Hnd) as Hle.
  set (n := length (List.filter _ setA)) in *.
  destruct (Nat.eqb_spec (length setA + length setB - n) 0) as [Hz|Hnz].
  - split; [apply Qle_refl | discriminate].
  - unfold Qle. simpl. rewrite Zpos_of_nat by exact Hnz.
    assert (Hfa : n <= length setA).
    { unfold n. clear. induction setA as [|x l IH]; simpl; [lia|].
      destruct (bool_decide _); simpl; lia. }
    split; lia.
Qed.

Lemma jaccard_self (setA : list jsstring) :
  setA <> [] -> (jaccardSimilarity setA setA == 1)%Q.
Proof.
  intros Hne. unfold jaccardSimilarity.
  assert (Hall : List.filter (fun item => bool_decide (item ∈ setA)) setA = setA).
  { apply forallb_filter_id, forallb_forall. intros x Hx.
    apply bool_decide_eq_true, list_elem_of_In, Hx. }
  rewrite Hall.
  assert (Hlen : length setA <> 0) by (destruct setA; [contradiction | discriminate]).
  replace (length setA + length setA - length setA) with (length setA) by lia.
  destruct (Nat.eqb_spec (length setA) 0) as [Hz|_]; [contradiction|].
  unfold Qeq. simpl. rewrite Zpos_of_nat by exact Hlen. lia.
Qed.

Lemma jaccard_disjoint (setA setB : list jsstring) :
  (forall item, item ∈ setA -> item ∉ setB) ->
  (jaccardSimilarity setA setB == 0)%Q.
Proof.
  intros Hdis. unfold jaccardSimilarity.
  assert (Hnone : List.filter (fun item => bool_decide (item ∈ setB)) setA = []).
  { induction setA as [|x l IH]; [reflexivity|]. simpl.
    rewrite bool_decide_eq_false_2 by (apply Hdis, list_elem_of_here).
    apply IH. intros item Hitem. apply Hdis, list_elem_of_further, Hitem. }
  rewrite Hnone. simpl. destruct (_ =? 0); reflexivity.
Qed.

Lemma jaccard_comm (setA setB : list jsstring) :
  NoDup setA -> NoDup setB ->
  jaccardSimilarity setA setB = jaccardSimilarity setB setA.
Proof.
  intros Ha Hb. unfold jaccardSimilarity.
  rewrite (intersection_comm setA setB Ha Hb), (Nat.add_comm (length setA)).
  reflexivity.
Qed.

End JaccardFacts.

(** X1.  Jaccard similarity of keyword sets.  For sets (lists without
    repetition) the similarity lies between 0 and 1 and does not depend on
    the order of its arguments; it is 1 for a non-empty set and itself, and 0
    for two sets without a common member, the two empty sets included. *)
Theorem X1_jaccard_bounds :
  forall setA setB : list jsstring,
    NoDup setA -> NoDup setB ->
    (0 <= jaccardSimilarity setA setB)%Q
    /\ (jaccardSimilarity setA setB <= 1)%Q
    /\ jaccardSimilarity setA setB = jaccardSimilarity setB setA
    /\ (setA <> [] -> (jaccardSimilarity setA setA == 1)%Q)
    /\ ((forall item, item ∈ setA -> item ∉ setB) ->
        (jaccardSimilarity setA setB == 0)%Q).
Proof.
  intros setA setB Ha Hb.
  destruct (jaccard_range setA setB Ha) as [H0 H1].
  split; [exact H0|]. split; [exact H1|].
  split; [apply jaccard_comm; assumption|].
  split; [apply jaccard_self | apply jaccard_disjoint].
Qed.

(** Two sets that share one of three terms. *)
Lemma X1_witness :
  (0 <= jaccardSimilarity [lit "python"; lit "api"] [lit "api"; lit "rust"])%Q
  /\ (jaccardSimilarity [lit "python"; lit "api"] [lit "api"; lit "rust"] <= 1)%Q.
Proof.
  destruct (X1_jaccard_bounds [lit "python"; lit "api"] [lit "api"; lit "rust"])
    as (H0 & H1 & _).
  - apply (bool_decide_unpack _). vm_compute. exact I.
  - apply (bool_decide_unpack _). vm_compute. exact I.
  - split; assumption.
Defined.

Section MergeFacts.
Variable topKeywords : list (list jsstring).
Local Abbreviation pair_similarity := (Notions.pair_similarity topKeywords).

Lemma Qltb_true a b : Qltb a b = true <-> (a < b)%Q.
Proof.
  unfold Qltb. rewrite negb_true_iff. split.
  - intros H. apply Qnot_le_lt. intros Hle.
    apply Qle_bool_iff in Hle. congruence.
  - intros Hlt. destruct (Qle_bool b a) eqn:Hle; [|reflexivity].
    apply Qle_bool_iff in Hle. exfalso. exact (Qlt_not_le _ _ Hlt Hle).
Qed.

Lemma Qltb_false a b : Qltb a b = false <-> (b <= a)%Q.
Proof.
  unfold Qltb. rewrite negb_false_iff. apply Qle_bool_iff.
Qed.

Lemma best_fold clusters ps : forall init,
  let step := fun (best : Q * option (nat * nat)) (ij : nat * nat) =>
                if Qltb (fst best) (pair_similarity clusters ij)
                then (pair_similarity clusters ij, Some ij) else best in
  (fst init <= fst (fold_left step ps init))%Q
  /\ (forall ij, ij ∈ ps ->
        (pair_similarity clusters ij <= fst (fold_left step ps init))%Q)
  /\ (snd (fold_left step ps init) = None -> fold_left step ps init = init).
Proof.
  induction ps as [|p ps IH]; intros init step; simpl.
  - split; [apply Qle_refl|]. split; [|reflexivity].
    intros ij Hij. apply elem_of_nil in Hij. destruct Hij.
  - destruct (IH (step init p)) as (Hmono & Hall & Hnone).
    fold step in Hmono, Hall, Hnone.
    assert (Hstep : (fst init <= fst (step init p))%Q
                    /\ (pair_similarity clusters p <= fst (step init p))%Q).
    { unfold step. destruct (Qltb (fst init) (pair_similarity clusters p)) eqn:Hlt.
      - apply Qltb_true in Hlt. simpl.
        split; [apply Qlt_le_weak, Hlt | apply Qle_refl].
      - apply Qltb_false in Hlt. split; [apply Qle_refl | exact Hlt]. }
    destruct Hstep as [Hs1 Hs2].
    split; [eapply Qle_trans; eassumption|]. split.
    + intros ij Hij. apply elem_of_cons in Hij as [-> | Hij].
      * eapply Qle_trans; eassumption.
      * apply Hall, Hij.
    + intros Hn. rewrite (Hnone Hn) in Hn |- *.
      unfold step in Hn |- *.
      destruct (Qltb (fst init) (pair_similarity clusters p));
        [discriminate | reflexivity].
Qed.

Lemma elem_of_pairs n i j : i < j -> j < n -> (i, j) ∈ pairs n.
Proof.
  intros Hij Hj. unfold pairs. apply list_elem_of_In, in_flat_map.
  exists i. split; [apply in_seq; lia|].
  apply in_map, in_seq. lia.
Qed.

(** After the nested loops [bestSim] is at least the similarity of every
    pair, and it is still 0 when no pair was recorded. *)
Lemma find_best_spec clusters bestSim best :
  find_best topKeywords clusters = (bestSim, best) ->
  (forall i j, i < j -> j < length clusters ->
               (pair_similarity clusters (i, j) <= bestSim)%Q)
  /\ (best = None -> bestSim = 0%Q).
Proof.
  intros Hfold.
  pose proof (best_fold clusters (pairs (length clusters)) (0%Q, None)) as Hspec.
  cbv zeta in Hspec.
  change (fold_left _ (pairs (length clusters)) (0%Q, None))
    with (find_best topKeywords clusters) in Hspec.
  rewrite Hfold in Hspec. destruct Hspec as (_ & Hall & Hnone). split.
  - intros i j Hij Hj. apply (Hall (i, j)), elem_of_pairs; assumption.
  - intros ->. specialize (Hnone eq_refl). inversion Hnone. reflexivity.
Qed.

(** When the loop of [agglomerativeCluster] stops, no two of the clusters
    left reach the threshold. *)
Lemma merge_loop_below_threshold clusters :
  forall i j,
    i < j -> j < length (merge_loop topKeywords clusters) ->
    (pair_similarity (merge_loop topKeywords clusters) (i, j)
     < SIMILARITY_THRESHOLD)%Q.
Proof.
  funelim (merge_loop topKeywords clusters); intros i j Hij Hj;
    try (match goal with
         | IH : forall i j, _ -> _ -> (_ < _)%Q |- _ => apply IH; assumption
         end);
    match goal with
    | Hb : find_best _ _ = _ |- _ =>
        destruct (find_best_spec _ _ _ Hb) as [Hall Hzero]
    end;
    (eapply Qle_lt_trans; [apply Hall; assumption|]);
    first [ apply Qltb_true; assumption
          | rewrite (Hzero eq_refl); reflexivity ].
Qed.

Lemma merge_nonempty i j clusters :
  Forall (fun c : list nat => c <> []) clusters ->
  Forall (fun c : list nat => c <> []) (merge i j clusters).
Proof.
  intros Hall. unfold merge. apply Forall_delete.
  apply Forall_alter; [exact Hall|].
  intros c _ Hc Habs. apply app_eq_nil in Habs as [Habs _]. contradiction.
Qed.

Lemma merge_loop_nonempty clusters :
  Forall (fun c : list nat => c <> []) clusters ->
  Forall (fun c : list nat => c <> []) (merge_loop topKeywords clusters).
Proof.
  funelim (merge_loop topKeywords clusters); intros Hall; try assumption.
  match goal with
  | IH : Forall _ _ -> Forall _ (merge_loop _ _) |- _ => apply IH
  end.
  apply merge_nonempty, Hall.
Qed.

End MergeFacts.

Section ClusterShape.

Lemma bool_filter_lookup_order {A : Type} (f : A -> bool) (l : list A) :
  forall k k' a b,
    List.filter f l !! k = Some a -> List.filter f l !! k' = Some b -> k < k' ->
    exists i j, i < j /\ l !! i = Some a /\ l !! j = Some b.
Proof.
  induction l as [|x l IH]; intros k k' a b Ha Hb Hlt; [discriminate|].
  simpl in Ha, Hb. destruct (f x).
  - destruct k' as [|k']; [lia|]. destruct k as [|k].
    + simpl in Ha, Hb. inversion Ha; subst x.
      apply list_elem_of_lookup_2, elem_of_bool_filter in Hb as [Hb _].
      apply list_elem_of_lookup in Hb as [j Hj].
      exists 0, (S j). repeat split; [lia | exact Hj].
    + simpl in Ha, Hb.
      destruct (IH k k' a b Ha Hb) as (i & j & Hij & Hi & Hj); [lia|].
      exists (S i), (S j). repeat split; [lia | exact Hi | exact Hj].
  - destruct (IH k k' a b Ha Hb Hlt) as (i & j & Hij & Hi & Hj).
    exists (S i), (S j). repeat split; [lia | exact Hi | exact Hj].
Qed.

(** The result of [agglomerativeCluster]: the clusters of two or more
    members the loop leaves, then the pooled singles if there are any. *)
Lemma agglomerativeCluster_shape conversations topKeywords :
  exists pooled : list (list nat),
    agglomerativeCluster conversations topKeywords
    = List.filter (fun c => 2 <=? length c)
        (merge_loop topKeywords
           (List.map (fun i => [i]) (seq 0 (length conversations))))
      ++ pooled
    /\ length pooled <= 1
    /\ Forall (fun c : list nat => c <> []) pooled.
Proof.
  unfold agglomerativeCluster, MIN_CLUSTER_SIZE.
  set (clusters := merge_loop _ _).
  assert (Hne : Forall (fun c : list nat => c <> []) clusters).
  { apply merge_loop_nonempty. apply List.Forall_forall. intros c Hc.
    apply in_map_iff in Hc as (i & <- & _). discriminate. }
  destruct (List.filter (fun c => length c <? 2) clusters) as [|s rest] eqn:Hs.
  - exists []. rewrite app_nil_r. repeat split; [simpl; lia | constructor].
  - exists [concat (s :: rest)]. repeat split; [simpl; lia|].
    constructor; [|constructor].
    assert (Hin : s ∈ clusters).
    { assert (Hs' : s ∈ List.filter (fun c => length c <? 2) clusters)
        by (rewrite Hs; apply list_elem_of_here).
      apply elem_of_bool_filter in Hs' as [Hs' _]. exact Hs'. }
    rewrite Forall_forall in Hne. specialize (Hne s Hin).
    simpl. intros Habs. apply app_eq_nil in Habs as [Habs _]. contradiction.
Qed.

Lemma agglomerativeCluster_sizes conversations topKeywords :
  Forall (fun c : list nat => c <> [])
         (agglomerativeCluster conversations topKeywords)
  /\ (forall k c,
        agglomerativeCluster conversations topKeywords !! k = Some c ->
        S k < length (agglomerativeCluster conversations topKeywords) ->
        2 <= length c)
  /\ Forall (Forall (fun i => i < length conversations))
            (agglomerativeCluster conversations topKeywords)
  /\ length (agglomerativeCluster conversations topKeywords)
     <= length conversations.
Proof.
  pose proof (agglomerativeCluster_partition conversations topKeywords) as Hperm.
  destruct (agglomerativeCluster_shape conversations topKeywords)
    as (pooled & Hshape & Hpooled & Hpne).
  set (real := List.filter _ _) in Hshape.
  assert (Hreal : Forall (fun c : list nat => 2 <= length c) real).
  { apply List.Forall_forall. intros c Hc. apply filter_In in Hc as [_ Hc].
    apply Nat.leb_le in Hc. exact Hc. }
  assert (Hne : Forall (fun c : list nat => c <> [])
                       (agglomerativeCluster conversations topKeywords)).
  { rewrite Hshape. apply Forall_app. split; [|exact Hpne].
    eapply Forall_impl; [exact Hreal|]. intros c Hc ->. simpl in Hc. lia. }
  split; [exact Hne|]. split; [|split].
  - rewrite Hshape. intros k c Hk Hlast. rewrite length_app in Hlast.
    rewrite lookup_app_l in Hk by lia.
    rewrite Forall_forall in Hreal. apply Hreal.
    apply list_elem_of_lookup_2 in Hk. exact Hk.
  - apply Forall_forall. intros c Hc. apply Forall_forall. intros i Hi.
    assert (Hin : i ∈ seq 0 (length conversations)).
    { rewrite <- Hperm. apply list_elem_of_In, in_concat. exists c.
      split; apply list_elem_of_In; assumption. }
    apply list_elem_of_In, in_seq in Hin. lia.
  - apply Permutation_length in Hperm. rewrite length_seq in Hperm.
    rewrite <- Hperm. clear Hperm Hshape.
    induction Hne as [|c cs Hc _ IH]; [simpl; lia|].
    simpl. rewrite length_app. destruct c; [contradiction|]. simpl. lia.
Qed.

Lemma omap_lookup_length {A : Type} (l : list A) (ix : list nat) :
  Forall (fun i => i < length l) ix ->
  length (omap (fun i => l !! i) ix) = length ix.
Proof.
  induction 1 as [|i ix Hi _ IH]; [reflexivity|].
  simpl. apply lookup_lt_is_Some in Hi as [x Hx]. rewrite Hx. simpl.
  f_equal. exact IH.
Qed.

End ClusterShape.

(** X2.  When the merging of [agglomerativeCluster] stops, the clusters it
    keeps apart are dissimilar: any two clusters of the result that come
    before the last one (the place of the pooled singles) have a maximum
    pairwise similarity below the threshold 0.15. *)
Theorem X2_kept_clusters_below_threshold :
  forall (conversations : list Conversation) (topKeywords : list (list jsstring))
         (k l : nat) (ck cl : list nat),
    agglomerativeCluster conversations topKeywords !! k = Some ck ->
    agglomerativeCluster conversations topKeywords !! l = Some cl ->
    k < l ->
    S l < length (agglomerativeCluster conversations topKeywords) ->
    (maxPairwiseSimilarity ck cl topKeywords < SIMILARITY_THRESHOLD)%Q.
Proof.
  intros conversations topKeywords k l ck cl Hk Hl Hkl Hlast.
  destruct (agglomerativeCluster_shape conversations topKeywords)
    as (pooled & Hshape & Hpooled & _).
  rewrite Hshape in Hk, Hl, Hlast. rewrite length_app in Hlast.
  rewrite lookup_app_l in Hk by lia. rewrite lookup_app_l in Hl by lia.
  destruct (bool_filter_lookup_order _ _ _ _ _ _ Hk Hl Hkl)
    as (i & j & Hij & Hi & Hj).
  pose proof (merge_loop_below_threshold topKeywords _ i j Hij
                (lookup_lt_Some _ _ _ Hj)) as Hlt.
  unfold Notions.pair_similarity in Hlt. simpl in Hlt.
  rewrite Hi, Hj in Hlt. exact Hlt.
Qed.

(** Two pairs of like conversations and one apart: the two pair clusters
    come before the pooled single. *)
Lemma X2_witness :
  (maxPairwiseSimilarity [0; 1]%nat [2; 3]%nat
     [ [lit "rust"; lit "cargo"]; [lit "rust"; lit "cargo"];
       [lit "bread"; lit "yeast"]; [lit "bread"; lit "yeast"]; [lit "tax"] ]
   < SIMILARITY_THRESHOLD)%Q.
Proof.
  apply (X2_kept_clusters_below_threshold
           (List.map Samples.titled ["a"; "b"; "c"; "d"; "e"]%string)
           [ [lit "rust"; lit "cargo"]; [lit "rust"; lit "cargo"];
             [lit "bread"; lit "yeast"]; [lit "bread"; lit "yeast"]; [lit "tax"] ]
           0 1).
  - vm_compute. reflexivity.
  - vm_compute. reflexivity.
  - lia.
  - vm_compute. lia.
Defined.

(** X3.  Sizes of the clusters.  For two or more conversations,
    [clusterConversations] returns at most as many clusters as there are
    conversations; every cluster holds at least one conversation, every
    cluster before the last holds at least two, and no cluster carries more
    than ten keywords. *)
Theorem X3_cluster_sizes :
  forall (toUpperCase : jsstring -> jsstring)
         (topKeywordsOf : list Conversation -> Conversation -> list jsstring)
         (conversations : list Conversation) (k : nat) (c : Cluster),
    2 <= length conversations ->
    clusterConversations toUpperCase topKeywordsOf conversations !! k = Some c ->
    1 <= length (Clusterer.conversations c)
    /\ (S k < length (clusterConversations toUpperCase topKeywordsOf conversations) ->
        2 <= length (Clusterer.conversations c))
    /\ length (keywords c) <= 10
    /\ length (clusterConversations toUpperCase topKeywordsOf conversations)
       <= length conversations.
Proof.
  intros toUpperCase topKeywordsOf conversations k c Hn Hk.
  unfold clusterConversations in *.
  destruct (Nat.ltb_spec (length conversations) 2) as [Hlt|_]; [lia|].
  set (topKeywords := List.map (topKeywordsOf conversations) conversations) in *.
  destruct (agglomerativeCluster_sizes conversations topKeywords)
    as (Hne & Hbig & Hrange & Hcount).
  rewrite length_map.
  change (List.map ?f ?l) with (f <$> l) in Hk.
  rewrite list_lookup_fmap in Hk.
  destruct (agglomerativeCluster conversations topKeywords !! k)
    as [ix|] eqn:Hix; [|discriminate].
  simpl in Hk. inversion Hk; subst c. simpl.
  assert (Hin : ix ∈ agglomerativeCluster conversations topKeywords)
    by (eapply list_elem_of_lookup_2; exact Hix).
  rewrite Forall_forall in Hne, Hrange.
  rewrite (omap_lookup_length conversations ix (Hrange ix Hin)).
  split; [|split; [|split]].
  - specialize (Hne ix Hin). destruct ix; [contradiction | simpl; lia].
  - intros Hlast. eapply Hbig; eassumption.
  - rewrite length_take. lia.
  - exact Hcount.
Qed.

(** Three conversations of which the first and the last go together. *)
Lemma X3_witness :
  exists c,
    clusterConversations Organizer.ascii_lower Samples.title_keyword
      [Samples.titled "python"; Samples.titled "cooking"; Samples.titled "python"]
      !! 0 = Some c
    /\ 2 <= length (Clusterer.conversations c).
Proof.
  eexists. split; [vm_compute; reflexivity|].
  eapply (X3_cluster_sizes Organizer.ascii_lower Samples.title_keyword
            [Samples.titled "python"; Samples.titled "cooking";
             Samples.titled "python"] 0).
  - simpl. lia.
  - vm_compute. reflexivity.
  - vm_compute. lia.
Defined.

Section KeywordFacts.
Import Notions.

Lemma occurrences_snoc term ts t :
  occurrences term (ts ++ [t])
  = occurrences term ts + (if bool_decide (t = term) then 1 else 0).
Proof.
  unfold occurrences. rewrite List.filter_app, length_app. simpl.
  destruct (bool_decide (t = term)); reflexivity.
Qed.

Lemma occurrences_pos term ts : 0 < occurrences term ts <-> term ∈ ts.
Proof.
  unfold occurrences. split.
  - intros Hpos. destruct (List.filter _ ts) as [|x l] eqn:Hf; [simpl in Hpos; lia|].
    assert (Hx : x ∈ List.filter (fun t => bool_decide (t = term)) ts)
      by (rewrite Hf; apply list_elem_of_here).
    apply elem_of_bool_filter in Hx as [Hx Heq].
    apply bool_decide_eq_true in Heq. subst x. exact Hx.
  - intros Hin.
    assert (Hx : term ∈ List.filter (fun t => bool_decide (t = term)) ts).
    { apply elem_of_bool_filter. split; [exact Hin|].
      apply bool_decide_eq_true. reflexivity. }
    destruct (List.filter _ ts); [apply elem_of_nil in Hx; destruct Hx | simpl; lia].
Qed.

Lemma add_key_Permutation counts term value :
  add_key counts term value ≡ₚ (term, value) :: counts.
Proof.
  induction counts as [|[k n] rest IH]; [reflexivity|]. simpl.
  destruct (array_index term) as [t|]; [destruct (array_index k) as [i|]|].
  - destruct (t <? i)%N; [reflexivity|]. rewrite IH. apply perm_swap.
  - reflexivity.
  - rewrite IH. apply perm_swap.
Qed.

Lemma assoc_None_keys {V : Type} (l : list (jsstring * V)) k :
  assoc k l = None <-> k ∉ List.map fst l.
Proof.
  induction l as [|[k' v] l IH]; simpl.
  - split; [intros _ H; apply elem_of_nil in H; exact H | reflexivity].
  - case_bool_decide as Hk.
    + subst. split; [discriminate|]. intros H. exfalso. apply H, list_elem_of_here.
    + rewrite IH, not_elem_of_cons. split; [intros H; split; congruence | tauto].
Qed.

Lemma bump_counted ts counts t :
  counted ts counts -> counted (ts ++ [t]) (bump counts t).
Proof.
  intros [Hnd Hin]. unfold bump.
  destruct (assoc t counts) as [m|] eqn:Ha.
  - split.
    + rewrite List.map_map. erewrite map_ext; [exact Hnd|].
      intros [k n]. simpl. case_bool_decide; reflexivity.
    + intros k n. rewrite occurrences_snoc, list_elem_of_In, in_map_iff. split.
      * intros ([k0 n0] & Heq & Hk0). apply list_elem_of_In, Hin in Hk0 as [Hn0 Hpos].
        simpl in Heq. case_bool_decide as Hk; inversion Heq; subst.
        -- rewrite bool_decide_eq_true_2 by reflexivity. lia.
        -- rewrite bool_decide_eq_false_2 by congruence. lia.
      * intros [Hn Hpos].
        destruct (decide (t = k)) as [->|Hne].
        -- rewrite bool_decide_eq_true_2 in Hn by reflexivity.
           exists (k, m). simpl. rewrite bool_decide_eq_true_2 by reflexivity.
           apply assoc_elem in Ha. pose proof Ha as Ha'.
           apply Hin in Ha' as [Hm _].
           split; [f_equal; lia | apply list_elem_of_In, Ha].
        -- rewrite bool_decide_eq_false_2 in Hn by exact Hne.
           exists (k, n). simpl.
           rewrite bool_decide_eq_false_2 by congruence.
           split; [reflexivity|]. apply list_elem_of_In, Hin. split; lia.
  - pose proof (add_key_Permutation counts t 1) as Hperm.
    apply assoc_None_keys in Ha.
    assert (Hzero : occurrences t ts = 0).
    { destruct (occurrences t ts) as [|n] eqn:Ho; [reflexivity|]. exfalso.
      apply Ha, list_elem_of_In, in_map_iff. exists (t, S n).
      split; [reflexivity|]. apply list_elem_of_In, Hin. split; lia. }
    split.
    + rewrite Hperm. simpl. apply NoDup_cons. split; assumption.
    + intros k n. rewrite Hperm, elem_of_cons, Hin, occurrences_snoc. split.
      * intros [Heq | [Hn Hpos]].
        -- inversion Heq; subst.
           rewrite Hzero, bool_decide_eq_true_2 by reflexivity. lia.
        -- case_bool_decide as Hk; [subst; lia | lia].
      * intros [Hn Hpos]. case_bool_decide as Hk.
        -- subst. left. f_equal. lia.
        -- right. lia.
Qed.

Lemma bump_fold_counted ts : forall done counts,
  counted done counts -> counted (done ++ ts) (fold_left bump ts counts).
Proof.
  induction ts as [|t ts IH]; intros done counts Hc; simpl.
  - rewrite app_nil_r. exact Hc.
  - replace (done ++ t :: ts) with ((done ++ [t]) ++ ts)
      by (rewrite <- app_assoc; reflexivity).
    apply IH, bump_counted, Hc.
Qed.

Lemma nested_fold_flat_map {A B C : Type} (f : A -> C -> A) (g : B -> list C)
    (l : list B) : forall acc,
  fold_left (fun acc b => fold_left f (g b) acc) l acc
  = fold_left f (flat_map g l) acc.
Proof.
  induction l as [|b l IH]; intros acc; [reflexivity|].
  simpl. rewrite fold_left_app. apply IH.
Qed.

Lemma insert_desc_Permutation x sorted : insert_desc x sorted ≡ₚ x :: sorted.
Proof.
  induction sorted as [|y rest IH]; [reflexivity|]. simpl.
  destruct (snd x <? snd y); [|reflexivity].
  rewrite IH. apply perm_swap.
Qed.

Lemma sort_desc_Permutation l : sort_desc l ≡ₚ l.
Proof.
  induction l as [|x l IH]; [reflexivity|]. simpl.
  rewrite insert_desc_Permutation, IH. reflexivity.
Qed.

Lemma insert_desc_sorted x sorted :
  StronglySorted (fun a b : jsstring * nat => snd b <= snd a) sorted ->
  StronglySorted (fun a b : jsstring * nat => snd b <= snd a)
                 (insert_desc x sorted).
Proof.
  induction 1 as [|y rest Hrest IH Hy]; simpl.
  - constructor; [constructor | constructor].
  - destruct (Nat.ltb_spec (snd x) (snd y)) as [Hlt|Hge].
    + constructor; [exact IH|].
      rewrite (insert_desc_Permutation x rest).
      constructor; [lia | exact Hy].
    + constructor; [constructor; assumption|].
      constructor; [exact Hge|].
      eapply List.Forall_impl; [|exact Hy]. intros z Hz. simpl in Hz. lia.
Qed.

Lemma sort_desc_sorted l :
  StronglySorted (fun a b : jsstring * nat => snd b <= snd a) (sort_desc l).
Proof.
  induction l as [|x l IH]; simpl; [constructor | apply insert_desc_sorted, IH].
Qed.

Lemma StronglySorted_lookup {A : Type} (R : A -> A -> Prop) (l : list A) :
  StronglySorted R l ->
  forall i j x y, i < j -> l !! i = Some x -> l !! j = Some y -> R x y.
Proof.
  induction 1 as [|a l Hl IH Ha]; intros i j x y Hij Hi Hj; [discriminate|].
  destruct j as [|j]; [lia|]. destruct i as [|i]; simpl in Hi, Hj.
  - inversion Hi; subst a. rewrite List.Forall_forall in Ha. apply Ha.
    apply list_elem_of_In. eapply list_elem_of_lookup_2. exact Hj.
  - eapply IH; [|eassumption..]. lia.
Qed.

Lemma getClusterKeywords_counted indices topKeywords :
  exists sorted : list (jsstring * nat),
    getClusterKeywords indices topKeywords = List.map fst sorted
    /\ StronglySorted (fun a b : jsstring * nat => snd b <= snd a) sorted
    /\ counted (flat_map (keywordsAt topKeywords) indices) sorted.
Proof.
  unfold getClusterKeywords. rewrite nested_fold_flat_map.
  set (ts := flat_map _ indices).
  set (counts := fold_left bump ts []).
  assert (Hc : counted ts counts).
  { apply (bump_fold_counted ts [] []). split; [constructor|].
    intros k n. split; [intros H; apply elem_of_nil in H; destruct H|].
    intros [-> Hpos]. unfold occurrences in Hpos. simpl in Hpos. lia. }
  exists (sort_desc counts). split; [reflexivity|].
  split; [apply sort_desc_sorted|].
  destruct Hc as [Hnd Hin]. split.
  - rewrite (sort_desc_Permutation counts). exact Hnd.
  - intros k n. rewrite (sort_desc_Permutation counts). apply Hin.
Qed.

End KeywordFacts.

(** X4.  The keywords of a cluster.  When the indices are in range and no
    term names a member of [Object.prototype], [getClusterKeywords] lists every term of the member
    conversations' keyword sets exactly once, and lists them by the number
    of their occurrences in those sets, most frequent first. *)
Theorem X4_cluster_keywords_ranked :
  forall (indices : list nat) (topKeywords : list (list jsstring)),
    (forall i, i ∈ indices -> i < length topKeywords) ->
    (forall i term, i ∈ indices -> term ∈ keywordsAt topKeywords i ->
                    inherited term = false) ->
    NoDup (getClusterKeywords indices topKeywords)
    /\ (forall term,
          term ∈ getClusterKeywords indices topKeywords
          <-> exists i, i ∈ indices /\ term ∈ keywordsAt topKeywords i)
    /\ (forall i j a b,
          i < j ->
          getClusterKeywords indices topKeywords !! i = Some a ->
          getClusterKeywords indices topKeywords !! j = Some b ->
          Notions.term_occurrences topKeywords indices b
          <= Notions.term_occurrences topKeywords indices a).
Proof.
  intros indices topKeywords _ _.
  destruct (getClusterKeywords_counted indices topKeywords)
    as (sorted & -> & Hsorted & Hnd & Hin).
  split; [exact Hnd|]. split.
  - intros term. rewrite list_elem_of_In, in_map_iff. split.
    + intros ([k n] & <- & Hk). apply list_elem_of_In, Hin in Hk as [Hn Hpos].
      simpl. rewrite Hn in Hpos.
      apply occurrences_pos, list_elem_of_In, in_flat_map in Hpos
        as (i & Hi & Ht).
      exists i. split; apply list_elem_of_In; assumption.
    + intros (i & Hi & Ht).
      exists (term, Notions.occurrences term (flat_map (keywordsAt topKeywords) indices)).
      split; [reflexivity|]. apply list_elem_of_In, Hin. split; [reflexivity|].
      apply occurrences_pos, list_elem_of_In, in_flat_map.
      exists i. split; apply list_elem_of_In; assumption.
  - intros i j a b Hij Hi Hj.
    change (List.map ?f ?l) with (f <$> l) in Hi, Hj.
    rewrite list_lookup_fmap in Hi, Hj.
    destruct (sorted !! i) as [[ka na]|] eqn:Hsi; [|discriminate].
    destruct (sorted !! j) as [[kb nb]|] eqn:Hsj; [|discriminate].
    simpl in Hi, Hj. inversion Hi; inversion Hj; subst.
    pose proof (StronglySorted_lookup _ _ Hsorted i j _ _ Hij Hsi Hsj) as Hle.
    simpl in Hle.
    apply list_elem_of_lookup_2, Hin in Hsi as [-> _].
    apply list_elem_of_lookup_2, Hin in Hsj as [-> _].
    exact Hle.
Qed.

(** Two conversations that share [api]. *)
Lemma X4_witness :
  getClusterKeywords [0; 1] [[lit "python"; lit "api"]; [lit "api"; lit "rust"]]
  = [lit "api"; lit "python"; lit "rust"]
  /\ NoDup (getClusterKeywords [0; 1]
              [[lit "python"; lit "api"]; [lit "api"; lit "rust"]]).
Proof.
  split; [vm_compute; reflexivity|].
  apply (X4_cluster_keywords_ranked [0; 1]
           [[lit "python"; lit "api"]; [lit "api"; lit "rust"]]).
  { intros i Hi.
    repeat (apply elem_of_cons in Hi as [-> | Hi]; [simpl; lia|]).
    apply elem_of_nil in Hi; destruct Hi. }
  intros i term Hi Ht.
  repeat (apply elem_of_cons in Hi as [-> | Hi]);
    [| | apply elem_of_nil in Hi; destruct Hi];
    vm_compute in Ht;
    repeat (apply elem_of_cons in Ht as [-> | Ht]; [vm_compute; reflexivity|]);
    apply elem_of_nil in Ht; destruct Ht.
Defined.

(* ===================================================================== *)
(** * Sizes of the parts of a split conversation *)
(* ===================================================================== *)

Section SplitSizeFacts.
Import Notions.
Variable conversation : Conversation.
Variable maxSize : Z.

Lemma estimatedSize_app a b :
  estimatedSize (a ++ b) = (estimatedSize a + estimatedSize b)%Z.
Proof. induction a as [|m a IH]; simpl; [reflexivity | rewrite IH; lia]. Qed.

Lemma msgSize_pos msg : (0 < msgSize msg)%Z.
Proof.
  unfold msgSize, OVERHEAD_PER_MSG.
  assert (H : forall l acc, (0 <= acc)%Z ->
            (0 <= fold_left (fun sum p => sum + Z.of_nat (length (frag_text p)))
                            l acc)%Z).
  { induction l as [|p l IH]; simpl; intros acc Hacc; [exact Hacc|].
    apply IH. lia. }
  specialize (H (contentParts msg) 0%Z). lia.
Qed.

Lemma estimatedSize_nonneg msgs : (0 <= estimatedSize msgs)%Z.
Proof.
  induction msgs as [|m msgs IH]; simpl; [lia|].
  pose proof (msgSize_pos m). lia.
Qed.

Lemma estimatedSize_concat (groups : list (list Message)) g :
  g ∈ groups -> (estimatedSize g <= estimatedSize (concat groups))%Z.
Proof.
  induction 1 as [g groups | g g0 groups Hin IH]; simpl;
    rewrite estimatedSize_app.
  - pose proof (estimatedSize_nonneg (concat groups)). lia.
  - pose proof (estimatedSize_nonneg g0). lia.
Qed.

Lemma closed_when_full_snoc groups cur msg :
  closed_when_full maxSize (groups ++ [cur]) ->
  (maxSize < estimatedSize cur + msgSize msg)%Z ->
  closed_when_full maxSize ((groups ++ [cur]) ++ [[msg]]).
Proof.
  intros Hold Hfull k g g' Hk Hk'.
  destruct (decide (S k < length (groups ++ [cur]))) as [Hlt|Hge].
  - rewrite lookup_app_l in Hk by lia. rewrite lookup_app_l in Hk' by lia.
    eapply Hold; eassumption.
  - apply lookup_lt_Some in Hk' as Hlen. rewrite length_app in Hlen.
    simpl in Hlen.
    assert (Hk1 : S k = length (groups ++ [cur])) by lia.
    rewrite lookup_app_r in Hk' by lia.
    replace (S k - length (groups ++ [cur])) with 0 in Hk' by lia.
    simpl in Hk'. inversion Hk'; subst g'.
    rewrite lookup_app_l in Hk by lia.
    rewrite length_app in Hk1. simpl in Hk1.
    rewrite lookup_app_r in Hk by lia.
    replace (k - length groups) with 0 in Hk by lia.
    simpl in Hk. inversion Hk; subst g.
    exists msg. split; [reflexivity | exact Hfull].
Qed.

Lemma closed_when_full_extend groups cur msg :
  closed_when_full maxSize (groups ++ [cur]) ->
  closed_when_full maxSize (groups ++ [cur ++ [msg]]).
Proof.
  intros Hold k g g' Hk Hk'.
  apply lookup_lt_Some in Hk' as Hlen. rewrite length_app in Hlen.
  simpl in Hlen.
  rewrite lookup_app_l in Hk by lia.
  destruct (decide (S k < length groups)) as [Hlt|Hge].
  - rewrite lookup_app_l in Hk' by lia.
    apply (Hold k g g').
    + rewrite lookup_app_l by lia. exact Hk.
    + rewrite lookup_app_l by lia. exact Hk'.
  - rewrite lookup_app_r in Hk' by lia.
    replace (S k - length groups) with 0 in Hk' by lia.
    simpl in Hk'. inversion Hk'; subst g'.
    destruct (Hold k g cur) as (m & Hm & Hfull).
    + rewrite lookup_app_l by lia. exact Hk.
    + rewrite lookup_app_r by lia.
      replace (S k - length groups) with 0 by lia. reflexivity.
    + exists m. split; [|exact Hfull].
      destruct cur; [discriminate | exact Hm].
Qed.

Lemma split_step_size_inv st msg :
  split_size_inv maxSize st ->
  split_size_inv maxSize (split_step conversation maxSize st msg).
Proof.
  destruct st as [[[parts cur] size] num].
  intros (Hsize & Hfits & Hfull). unfold split_step.
  destruct ((size + msgSize msg >? maxSize)%Z
            && negb (bool_decide (length cur = 0))) eqn:Hflush.
  - apply andb_true_iff in Hflush as [Hgt _].
    unfold split_size_inv. rewrite map_app. simpl. split; [|split].
    + simpl. lia.
    + apply Forall_app. split; [exact Hfits|].
      constructor; [left; simpl; lia | constructor].
    + apply closed_when_full_snoc; [exact Hfull|]. lia.
  - unfold split_size_inv. split; [|split].
    + rewrite estimatedSize_app. simpl. lia.
    + apply Forall_app in Hfits as [Hparts Hcur].
      apply Forall_app. split; [exact Hparts|].
      constructor; [|constructor].
      apply andb_false_iff in Hflush as [Hle|Hempty].
      * right. rewrite estimatedSize_app. simpl. lia.
      * apply negb_false_iff, bool_decide_eq_true in Hempty.
        left. rewrite length_app, Hempty. simpl. lia.
    + apply closed_when_full_extend, Hfull.
Qed.

Lemma split_fold_size_inv msgs : forall st,
  split_size_inv maxSize st ->
  split_size_inv maxSize (fold_left (split_step conversation maxSize) msgs st).
Proof.
  induction msgs as [|msg msgs IH]; intros st Hinv; simpl; [exact Hinv|].
  apply IH, split_step_size_inv, Hinv.
Qed.

Lemma splitAtMessages_sizes :
  Forall (fun part => fits maxSize (messages part))
         (splitAtMessages conversation maxSize)
  /\ closed_when_full maxSize
       (List.map messages (splitAtMessages conversation maxSize)).
Proof.
  assert (Hone : forall c : Conversation,
            closed_when_full maxSize (List.map messages [c])).
  { intros c k g g' _ Hk'. destruct k; discriminate. }
  unfold splitAtMessages.
  destruct (messages conversation) as [|m0 ms] eqn:Hm.
  { split; [|apply Hone].
    constructor; [left; rewrite Hm; simpl; lia | constructor]. }
  pose proof (split_fold_size_inv (m0 :: ms) ([], [], 0%Z, 1)) as Hinv.
  pose proof (split_fold_inv conversation maxSize (m0 :: ms) []
                ([], [], 0%Z, 1)) as Hcat.
  destruct (fold_left _ (m0 :: ms) _) as [[[parts cur] size] num].
  destruct Hinv as (_ & Hfits & Hfull).
  { split; [reflexivity|]. split.
    - constructor; [left; simpl; lia | constructor].
    - intros k g g' _ Hk'. destruct k; discriminate. }
  destruct Hcat as (Hcat & _ & _ & _ & Hcur).
  { unfold split_inv. repeat split; try reflexivity.
    - constructor.
    - intros k part Hk. discriminate.
    - intros H. contradiction. }
  simpl app in Hcat.
  destruct cur as [|c cur']; [exfalso; apply Hcur; [discriminate | reflexivity]|].
  set (lastPart := makePart conversation (c :: cur') num).
  destruct parts as [|p1 rest].
  - simpl. split; [|apply Hone].
    constructor; [|constructor]. rewrite Hm.
    simpl in Hcat. rewrite <- Hcat.
    apply Forall_app in Hfits as [_ Hlast].
    apply Forall_inv in Hlast. exact Hlast.
  - assert (Hres : match (p1 :: rest) ++ [lastPart] with
                   | [_] => [conversation]
                   | _ => (p1 :: rest) ++ [lastPart]
                   end = (p1 :: rest) ++ [lastPart])
      by (destruct rest; reflexivity).
    rewrite Hres, map_app. simpl List.map at 2.
    split; [|exact Hfull].
    apply List.Forall_map. rewrite map_app. exact Hfits.
Qed.

End SplitSizeFacts.

(** X5.  Size of the parts.  Every conversation [splitAtMessages] returns
    holds at most one message, or its messages have an estimated size (the
    text lengths plus 50 for each message) within the threshold. *)
Theorem X5_parts_within_threshold :
  forall (conversation : Conversation) (maxSize : Z) (part : Conversation),
    part ∈ splitAtMessages conversation maxSize ->
    length (messages part) <= 1
    \/ (Notions.estimatedSize (messages part) <= maxSize)%Z.
Proof.
  intros conversation maxSize part Hpart.
  pose proof (splitAtMessages_sizes conversation maxSize) as [Hfits _].
  rewrite List.Forall_forall in Hfits.
  apply (Hfits part), list_elem_of_In, Hpart.
Qed.

(** Three messages of size 55 and a threshold of 120: two parts. *)
Lemma X5_witness :
  List.map (fun part => Notions.estimatedSize (messages part))
           (splitAtMessages Samples.chat 120) = [110%Z; 55%Z]
  /\ (length (take 2 (messages Samples.chat)) <= 1
      \/ (Notions.estimatedSize (take 2 (messages Samples.chat)) <= 120)%Z).
Proof.
  split; [vm_compute; reflexivity|].
  apply (X5_parts_within_threshold Samples.chat 120
           (makePart Samples.chat (take 2 (messages Samples.chat)) 1)).
  apply (list_elem_of_lookup_2 _ 0). vm_compute. reflexivity.
Defined.

(** X6.  Parts are filled greedily.  Of two consecutive conversations
    returned by [splitAtMessages], the first could not have taken the first
    message of the second: its estimated size plus the size of that message
    is over the threshold. *)
Theorem X6_parts_closed_when_full :
  forall (conversation : Conversation) (maxSize : Z) (k : nat)
         (part next : Conversation),
    splitAtMessages conversation maxSize !! k = Some part ->
    splitAtMessages conversation maxSize !! S k = Some next ->
    exists msg, head (messages next) = Some msg
      /\ (maxSize < Notions.estimatedSize (messages part) + msgSize msg)%Z.
Proof.
  intros conversation maxSize k part next Hk Hk'.
  pose proof (splitAtMessages_sizes conversation maxSize) as [_ Hfull].
  apply (Hfull k (messages part) (messages next)).
  - change (List.map ?f ?l) with (f <$> l). rewrite list_lookup_fmap, Hk.
    reflexivity.
  - change (List.map ?f ?l) with (f <$> l). rewrite list_lookup_fmap, Hk'.
    reflexivity.
Qed.

Lemma X6_witness :
  exists msg,
    head (messages (makePart Samples.chat
                      [Samples.message_of "m3" "user" "again" None] 2))
    = Some msg
    /\ (120 < Notions.estimatedSize
                (messages (makePart Samples.chat
                             (take 2 (messages Samples.chat)) 1))
              + msgSize msg)%Z.
Proof.
  apply (X6_parts_closed_when_full Samples.chat 120 0); vm_compute; reflexivity.
Defined.

(** X7.  No split without need.  When the estimated size of all the
    messages is within the threshold, [splitAtMessages] returns the
    conversation itself, alone and unchanged. *)
Theorem X7_no_split_when_within_threshold :
  forall (conversation : Conversation) (maxSize : Z),
    (Notions.estimatedSize (messages conversation) <= maxSize)%Z ->
    splitAtMessages conversation maxSize = [conversation].
Proof.
  intros conversation maxSize Hle.
  destruct (messages conversation) as [|m0 ms] eqn:Hm.
  { unfold splitAtMessages. rewrite Hm. reflexivity. }
  destruct (splitAtMessages_spec conversation maxSize)
    as ([Hsame | [Hlen _]] & _ & Hcat); [rewrite Hm; discriminate | exact Hsame |].
  exfalso.
  pose proof (splitAtMessages_sizes conversation maxSize) as [_ Hfull].
  destruct (splitAtMessages conversation maxSize) as [|p [|q rest]];
    simpl in Hlen; try lia.
  destruct (Hfull 0 (messages p) (messages q) eq_refl eq_refl)
    as (m & Hhead & Hover).
  rewrite Hm in Hcat. rewrite <- Hcat in Hle. simpl in Hle.
  rewrite !estimatedSize_app in Hle.
  destruct (messages q) as [|m' q']; [discriminate|].
  simpl in Hhead. inversion Hhead; subst m'. simpl in Hle.
  pose proof (estimatedSize_nonneg q').
  pose proof (estimatedSize_nonneg (concat (List.map messages rest))).
  lia.
Qed.

Lemma X7_witness : splitAtMessages Samples.chat 165 = [Samples.chat].
Proof.
  apply (X7_no_split_when_within_threshold Samples.chat 165).
  vm_compute. discriminate.
Defined.

(* ===================================================================== *)
(** * Fragments produced by the content handlers *)
(* ===================================================================== *)

Section FragmentFacts.
Import Notions.

Lemma nonblank_nonempty s : nonblank s = true -> s <> [].
Proof. intros H ->. discriminate. Qed.

Lemma or_str_nonempty o d : d <> [] -> or_str o d <> [].
Proof. intros Hd. destruct o as [[|c s]|]; simpl; [exact Hd | discriminate | exact Hd]. Qed.

Lemma handleStructuredPart_fragments part :
  Forall (fun f => contentType f = TEXT /\ frag_text f <> [])
         (handleStructuredPart part).
Proof.
  unfold handleStructuredPart.
  destruct (includes _ (lit "image")).
  { constructor; [|constructor]. split; [reflexivity|]. simpl.
    destruct (or_str (asset_pointer part) []); discriminate. }
  destruct (_ || _).
  { constructor; [|constructor]. split; [reflexivity | discriminate]. }
  destruct (part_text part) as [[|c s]|]; simpl; constructor;
    [|constructor]. split; [reflexivity | discriminate].
Qed.

Lemma text_part_fragments part :
  Forall (fun f => contentType f = TEXT /\ frag_text f <> []) (text_part part).
Proof.
  destruct part as [s|o|]; simpl; [|apply handleStructuredPart_fragments|constructor].
  destruct (nonblank s) eqn:Hs; constructor; [|constructor].
  split; [reflexivity | apply nonblank_nonempty, Hs].
Qed.

Lemma Forall_flat_map {A B : Type} (P : B -> Prop) (f : A -> list B) l :
  (forall a, Forall P (f a)) -> Forall P (flat_map f l).
Proof.
  intros Hf. induction l as [|a l IH]; simpl; [constructor|].
  apply Forall_app. split; [apply Hf | exact IH].
Qed.

Lemma handleText_fragments content :
  Forall (fun f => contentType f = TEXT /\ frag_text f <> []) (handleText content).
Proof. apply Forall_flat_map, text_part_fragments. Qed.

Lemma handleUnknown_fragments content :
  handleUnknown content <> []
  /\ Forall (fun f => contentType f = UNKNOWN /\ frag_text f <> [])
            (handleUnknown content).
Proof.
  unfold handleUnknown.
  destruct (or_str (text content) []) as [|c s] eqn:Ht.
  - assert (Hparts : Forall (fun f => contentType f = UNKNOWN /\ frag_text f <> [])
                       (flat_map unknown_part (default [] (parts content)))).
    { apply Forall_flat_map. intros [s|o|]; simpl; try constructor.
      destruct (nonblank s) eqn:Hs; constructor; [|constructor].
      split; [reflexivity | apply nonblank_nonempty, Hs]. }
    destruct (flat_map unknown_part _) as [|f fs].
    + split; [discriminate|]. constructor; [|constructor].
      split; [reflexivity | discriminate].
    + split; [discriminate | exact Hparts].
  - split; [discriminate|]. constructor; [|constructor].
    split; [reflexivity | discriminate].
Qed.

Lemma select_handler_Own ct h :
  select_handler ct = Own h ->
  h = handleText \/ h = handleCode \/ h = handleExecutionOutput
  \/ h = handleBrowsingDisplay \/ h = handleBrowsingQuote
  \/ h = handleMultimodalText \/ h = handleUnknown.
Proof.
  unfold select_handler, HANDLERS. cbn [assoc].
  repeat (case_bool_decide; [intros Hsel; inversion Hsel; tauto|]).
  destruct (inherited ct); intros Hsel; inversion Hsel; tauto.
Qed.

End FragmentFacts.

(** X8.  Fragments carry text.  No fragment [renderContent] returns has the
    content type [multimodal_text], and only fragments of code and of quotes
    can have an empty text. *)
Theorem X8_fragments_carry_text :
  forall (rawContent : RawContent) (frags : list Fragment) (f : Fragment),
    renderContent rawContent = Ok frags ->
    f ∈ frags ->
    contentType f <> MULTIMODAL_TEXT
    /\ (frag_text f = [] ->
        contentType f = CODE \/ contentType f = BROWSING_QUOTE).
Proof.
  intros rawContent frags f Hrun Hf. unfold renderContent in Hrun.
  destruct (select_handler _) as [h|] eqn:Hsel; [|discriminate].
  inversion Hrun; subst frags. clear Hrun.
  assert (Htext : forall frags,
            Forall (fun f => contentType f = TEXT /\ frag_text f <> []) frags ->
            f ∈ frags ->
            contentType f <> MULTIMODAL_TEXT
            /\ (frag_text f = [] ->
                contentType f = CODE \/ contentType f = BROWSING_QUOTE)).
  { intros frags Hall Hin. rewrite List.Forall_forall in Hall.
    destruct (Hall f) as [Hct Hne]; [apply list_elem_of_In, Hin|].
    rewrite Hct. split; [discriminate | intros; contradiction]. }
  destruct (select_handler_Own _ _ Hsel)
    as [->|[->|[->|[->|[->|[->| ->]]]]]].
  - apply (Htext _ (handleText_fragments rawContent) Hf).
  - unfold handleCode in Hf. apply list_elem_of_singleton in Hf. subst f.
    simpl. split; [discriminate | intros; left; reflexivity].
  - unfold handleExecutionOutput in Hf.
    destruct (or_str (text rawContent) []) as [|c s];
      [apply elem_of_nil in Hf; destruct Hf|].
    apply list_elem_of_singleton in Hf. subst f. simpl.
    split; discriminate.
  - unfold handleBrowsingDisplay in Hf.
    destruct (or_str (result rawContent) []) as [|c s];
      [apply elem_of_nil in Hf; destruct Hf|].
    apply list_elem_of_singleton in Hf. subst f. simpl.
    split; discriminate.
  - unfold handleBrowsingQuote in Hf. apply list_elem_of_singleton in Hf.
    subst f. simpl. split; [discriminate | intros; right; reflexivity].
  - apply (Htext _ (handleText_fragments rawContent) Hf).
  - destruct (handleUnknown_fragments rawContent) as [_ Hall].
    rewrite List.Forall_forall in Hall.
    destruct (Hall f) as [Hct Hne]; [apply list_elem_of_In, Hf|].
    rewrite Hct. split; [discriminate | intros; contradiction].
Qed.

(** A code payload without text: one fragment, of code, with empty text. *)
Lemma X8_witness :
  contentType {| contentType := CODE; frag_text := [];
                 extra := Language (lit "python") |} <> MULTIMODAL_TEXT
  /\ (frag_text {| contentType := CODE; frag_text := [];
                   extra := Language (lit "python") |} = [] ->
      contentType {| contentType := CODE; frag_text := [];
                     extra := Language (lit "python") |} = CODE
      \/ contentType {| contentType := CODE; frag_text := [];
                        extra := Language (lit "python") |} = BROWSING_QUOTE).
Proof.
  apply (X8_fragments_carry_text
           {| content_type := Some (lit "code"); parts := None; text := None;
              language := None; result := None; title := None; url := None |}
           [ {| contentType := CODE; frag_text := [];
                extra := Language (lit "python") |} ]).
  - reflexivity.
  - apply list_elem_of_here.
Defined.

(** X9.  The fallback renderer is never silent.  A payload whose declared
    content type is none of the six handled ones, and no member of
    [Object.prototype], renders to at least one fragment; every fragment
    has the content type [unknown] and a non-empty text. *)
Theorem X9_unknown_type_never_empty :
  forall (rawContent : RawContent) (ct : jsstring),
    content_type rawContent = Some ct ->
    ct <> [] ->
    ct ∉ List.map fst HANDLERS ->
    inherited ct = false ->
    exists frags,
      renderContent rawContent = Ok frags
      /\ frags <> []
      /\ Forall (fun f => contentType f = UNKNOWN /\ frag_text f <> []) frags.
Proof.
  intros rawContent ct Hct Hne Hkeys Hinh.
  exists (handleUnknown rawContent).
  split; [|apply handleUnknown_fragments].
  unfold renderContent, select_handler. rewrite Hct.
  destruct ct as [|c r]; [contradiction|]. cbn [or_str].
  apply assoc_None_keys in Hkeys. rewrite Hkeys, Hinh. reflexivity.
Qed.

Lemma X9_witness :
  exists frags,
    renderContent
      {| content_type := Some (lit "model_editable_context"); parts := None;
         text := None; language := None; result := None; title := None;
         url := None |} = Ok frags
    /\ frags <> []
    /\ Forall (fun f => contentType f = UNKNOWN /\ frag_text f <> []) frags.
Proof.
  apply (X9_unknown_type_never_empty _ (lit "model_editable_context"));
    [reflexivity | discriminate | | reflexivity].
  apply (bool_decide_unpack _). vm_compute. exact I.
Defined.

(* ===================================================================== *)
(** * The two modes of the parser *)
(* ===================================================================== *)

Section VisitFacts.
Import Notions.
Variable mapping : Mapping.

Lemma visits_suffix cur ids :
  visits mapping cur ids ->
  forall id, id ∈ ids ->
    exists pre suf, ids = pre ++ id :: suf
                    /\ visits mapping (Some id) (id :: suf).
Proof.
  induction 1 as [|id0 Hnone|id0 node rest Hnode Hrest IH]; intros id Hid.
  - apply elem_of_nil in Hid. destruct Hid.
  - apply elem_of_nil in Hid. destruct Hid.
  - destruct (decide (id = id0)) as [->|Hne].
    + exists [], rest. split; [reflexivity|].
      eapply visits_node; eassumption.
    + apply elem_of_cons in Hid as [Heq|Hid]; [contradiction|].
      destruct (IH id Hid) as (pre & suf & Heq & Hv).
      exists (id0 :: pre), suf. split; [rewrite Heq; reflexivity | exact Hv].
Qed.

Lemma visits_NoDup cur ids : visits mapping cur ids -> NoDup ids.
Proof.
  induction 1 as [|id Hnone|id node rest Hnode Hrest IH];
    try apply NoDup_nil_2.
  apply NoDup_cons. split; [|exact IH].
  intros Hin.
  destruct (visits_suffix _ _ Hrest id Hin) as (pre & suf & Heq & Hv).
  assert (Hsame : id :: rest = id :: suf).
  { apply (visits_functional mapping (Some id)); [|exact Hv].
    eapply visits_node; eassumption. }
  inversion Hsame as [Hrs]. rewrite Hrs in Heq.
  apply (f_equal length) in Heq. rewrite length_app in Heq. simpl in Heq. lia.
Qed.

(** The messages pushed along distinct nodes that satisfy [P] are no more
    than the entries of the mapping whose message satisfies [P]. *)
Lemma path_count (P : RawMessage -> bool) ids :
  NoDup ids ->
  length (List.filter P (path_messages mapping ids))
  <= length (entries_with P mapping).
Proof.
  intros Hnd.
  set (hit := fun id => match pushed mapping id with
                        | msg :: _ => P msg
                        | [] => false
                        end).
  set (entry_of := fun id : jsstring =>
                     (id, default blank_node (assoc id mapping))).
  assert (Hlen : length (List.filter P (path_messages mapping ids))
                 = length (entry_of <$> List.filter hit ids)).
  { rewrite length_fmap. clear Hnd. unfold path_messages.
    induction ids as [|id ids IH]; [reflexivity|]. simpl.
    rewrite List.filter_app, length_app, IH. unfold hit at 2.
    destruct (pushed mapping id) as [|msg l] eqn:Hp; [reflexivity|].
    destruct (pushed_entry mapping id msg) as [Hone _];
      [rewrite Hp; apply list_elem_of_here|].
    rewrite Hp in Hone. inversion Hone; subst l. simpl.
    destruct (P msg); reflexivity. }
  rewrite Hlen. apply submseteq_length, NoDup_submseteq.
  - apply NoDup_fmap_2; [|apply NoDup_bool_filter, Hnd].
    intros a b Hab. inversion Hab. reflexivity.
  - intros e He. apply list_elem_of_fmap in He as (id & -> & Hid).
    apply elem_of_bool_filter in Hid as [_ Hhit]. unfold hit in Hhit.
    destruct (pushed mapping id) as [|msg l] eqn:Hp; [discriminate|].
    unfold pushed, get in Hp.
    destruct (assoc id mapping) as [node'|] eqn:Ha;
      [|destruct (inherited id); discriminate].
    apply elem_of_bool_filter. unfold entry_of. rewrite Ha. simpl.
    split; [apply assoc_elem, Ha|].
    destruct (message node') as [m|]; [|discriminate].
    destruct (kept m); [|discriminate]. inversion Hp; subst. exact Hhit.
Qed.

Lemma traverseTree_count (P : RawMessage -> bool) fuel out :
  traverseTree fuel mapping = Ok out ->
  length (List.filter P out) <= length (entries_with P mapping).
Proof.
  unfold traverseTree. destruct mapping as [|e rest] eqn:Hm.
  { intros H. inversion H. simpl. lia. }
  rewrite <- Hm. destruct (find_root mapping) as [rootId|].
  2:{ intros H. inversion H. simpl. lia. }
  destruct (walk_forward fuel mapping rootId) as [leafId| |];
    cbn [mbind Res_bind]; try discriminate.
  destruct (walk_back fuel mapping (Some leafId) []) as [msgs| |] eqn:Hback;
    cbn [mbind Res_bind mret Res_ret]; try discriminate.
  intros H. inversion H; subst out.
  apply walk_back_visits in Hback as (ids & Hv & ->). simpl app.
  assert (Hrev : forall l : list RawMessage,
            length (List.filter P (rev l)) = length (List.filter P l)).
  { induction l as [|x l IH]; [reflexivity|]. simpl.
    rewrite List.filter_app, length_app, IH. simpl.
    destruct (P x); simpl; lia. }
  rewrite Hrev. apply path_count. eapply visits_NoDup, Hv.
Qed.

End VisitFacts.

Lemma parseMessage_role (raw : RawMessage) m :
  parseMessage raw = Ok m ->
  authorRole m ∈ VALID_ROLES
  /\ (authorRole m = lit "tool" -> role_of raw = lit "tool").
Proof.
  unfold parseMessage.
  destruct (renderContent _) as [frags| |]; cbn [mbind Res_bind mret Res_ret];
    try discriminate.
  intros H. inversion H; subst m. clear H. cbn [authorRole]. unfold role_of.
  case_bool_decide as Hvalid.
  - split; [exact Hvalid|]. intros Htool.
    destruct (from_option role None (author raw)) as [[|c s]|];
      cbn [or_str] in *; try discriminate. exact Htool.
  - split; [|discriminate]. apply list_elem_of_here.
Qed.

Lemma parseOne_messages fuel rawConv c m :
  parseOne fuel false rawConv = Ok (Full c) ->
  m ∈ messages c ->
  exists raws raw,
    traverseTree fuel (default [] (mapping rawConv)) = Ok raws
    /\ raw ∈ raws
    /\ parseMessage raw = Ok m.
Proof.
  intros Hone Hm. unfold parseOne in Hone.
  destruct (traverseAndParse fuel _) as [msgs| |] eqn:Hparse;
    cbn [mbind Res_bind mret Res_ret] in Hone; try discriminate.
  inversion Hone; subst c. clear Hone. cbn [messages] in Hm.
  unfold traverseAndParse in Hparse.
  destruct (default [] (mapping rawConv)) as [|e rest] eqn:Hmap.
  { inversion Hparse; subst msgs. apply elem_of_nil in Hm. destruct Hm. }
  rewrite <- Hmap in Hparse.
  destruct (traverseTree fuel _) as [raws| |] eqn:Htree;
    cbn [mbind Res_bind] in Hparse; try discriminate.
  apply (mapM_Ok_elem _ _ _ _ Hparse) in Hm as (raw & Hraw & Hmsg).
  exists raws, raw. rewrite <- Hmap. auto.
Qed.

(** X10.  Roles after a full parse.  Every message of every conversation
    [parseConversations] returns in full mode has one of the roles [user],
    [assistant] and [system]: never [tool], and never a role outside
    [VALID_ROLES]. *)
Theorem X10_parsed_roles :
  forall (fuel : nat) (rawData : list RawConversation) (out : list Parsed)
         (c : Conversation) (m : Message),
    parseConversations fuel false rawData = Ok out ->
    Full c ∈ out ->
    m ∈ messages c ->
    authorRole m ∈ [lit "user"; lit "assistant"; lit "system"].
Proof.
  intros fuel rawData out c m Hrun Hc Hm.
  apply (mapM_Ok_elem _ _ _ _ Hrun) in Hc as (r & _ & Hone).
  destruct (parseOne_messages fuel r c m Hone Hm)
    as (raws & raw & Htree & Hraw & Hmsg).
  destruct (traverseTree_pushed _ _ _ _ Htree Hraw) as [Hkept _].
  apply kept_roles in Hkept as [Hnot_tool _].
  destruct (parseMessage_role raw m Hmsg) as [Hvalid Htool].
  unfold VALID_ROLES in Hvalid.
  repeat (apply elem_of_cons in Hvalid as [Hv|Hvalid];
          [rewrite Hv in *; first [set_solver | exfalso; auto]|]).
  apply elem_of_nil in Hvalid. destruct Hvalid.
Qed.

(** A chain of three messages: the second has the role [assistant]. *)
Lemma X10_witness :
  exists out c m,
    parseConversations 5 false [Samples.record "chain" (Some Samples.chain3)]
    = Ok out
    /\ Full c ∈ out
    /\ m ∈ messages c
    /\ msg_id m = lit "mb"
    /\ authorRole m ∈ [lit "user"; lit "assistant"; lit "system"].
Proof.
  eexists _, _, _.
  split; [vm_compute; reflexivity|].
  split; [apply list_elem_of_here|].
  split; [simpl; apply list_elem_of_further, list_elem_of_here|].
  split; [reflexivity|].
  eapply (X10_parsed_roles 5 [Samples.record "chain" (Some Samples.chain3)]).
  - vm_compute; reflexivity.
  - apply list_elem_of_here.
  - simpl; apply list_elem_of_further, list_elem_of_here.
Defined.

Lemma mapM_Ok_lookup {A B : Type} (f : A -> Res B) xs : forall ys i y,
  mapM f xs = Ok ys -> ys !! i = Some y ->
  exists x, xs !! i = Some x /\ f x = Ok y.
Proof.
  induction xs as [|x xs IH]; intros ys i y Hrun Hi.
  - inversion Hrun; subst ys. discriminate.
  - rewrite mapM_cons in Hrun.
    destruct (f x) as [y0| |] eqn:Hx; try discriminate.
    destruct (mapM f xs) as [ys0| |] eqn:Hxs; try discriminate.
    inversion Hrun; subst ys. destruct i as [|i]; simpl in Hi.
    + inversion Hi; subst y0. exists x. split; [reflexivity | exact Hx].
    + apply (IH ys0 i y eq_refl Hi).
Qed.

(** X11.  Model slugs of the two modes.  For one list of records parsed in
    both modes, every model slug of a conversation of the full parse is
    among the model slugs the metadata-only parse reports for the same
    record. *)
Theorem X11_full_slugs_among_metadata_slugs :
  forall (fuel fuel' : nat) (rawData : list RawConversation)
         (fulls metas : list Parsed) (i : nat) (c : Conversation)
         (meta : ConversationMeta) (slug : jsstring),
    parseConversations fuel false rawData = Ok fulls ->
    parseConversations fuel' true rawData = Ok metas ->
    fulls !! i = Some (Full c) ->
    metas !! i = Some (Meta meta) ->
    slug ∈ modelSlugs c ->
    slug ∈ meta_modelSlugs meta.
Proof.
  intros fuel fuel' rawData fulls metas i c meta slug Hfull Hmeta Hc Hm Hslug.
  destruct (mapM_Ok_lookup _ _ _ _ _ Hfull Hc) as (r & Hr & Hone).
  destruct (mapM_Ok_lookup _ _ _ _ _ Hmeta Hm) as (r' & Hr' & Hone').
  rewrite Hr in Hr'. inversion Hr'; subst r'. clear Hr'.
  unfold parseOne in Hone'. cbn [mret Res_ret] in Hone'.
  inversion Hone'; subst meta. clear Hone'. cbn [meta_modelSlugs].
  destruct (parseOne_wellformed fuel r c Hone) as [_ Hslugs].
  rewrite Hslugs in Hslug.
  apply slugs_of_elem in Hslug as (m & Hmsg & Hms & Hne).
  destruct (parseOne_messages fuel r c m Hone Hmsg)
    as (raws & raw & Htree & Hraw & Hparse).
  destruct (traverseTree_pushed _ _ _ _ Htree Hraw)
    as [_ (id & node & Hget & Hnode)].
  assert (Hentry : (id, node) ∈ default [] (mapping r)).
  { unfold get in Hget.
    destruct (assoc id (default [] (mapping r))) as [node'|] eqn:Ha.
    - inversion Hget; subst node'. apply assoc_elem, Ha.
    - destruct (inherited id); [|discriminate].
      inversion Hget; subst node. discriminate. }
  unfold parseMessage in Hparse.
  destruct (renderContent _) as [frags| |];
    cbn [mbind Res_bind mret Res_ret] in Hparse; try discriminate.
  inversion Hparse; subst m. clear Hparse. cbn [modelSlug] in Hms.
  unfold extractModelSlugs. apply Set_from_elem, list_elem_of_In, in_flat_map.
  exists (id, node). split; [apply list_elem_of_In, Hentry|].
  simpl. rewrite Hnode.
  destruct (metadata raw) as [md|]; [|discriminate].
  rewrite Hms. left. reflexivity.
Qed.

(** The answer on the last-child branch names [gpt-4]; the metadata-only
    parse reports it, after the slug of the branch left aside. *)
Lemma X11_witness :
  exists fulls metas c meta,
    parseConversations 5 false [Samples.record "r" (Some Samples.with_models)]
    = Ok fulls
    /\ parseConversations 0 true [Samples.record "r" (Some Samples.with_models)]
       = Ok metas
    /\ fulls !! 0 = Some (Full c)
    /\ metas !! 0 = Some (Meta meta)
    /\ modelSlugs c = [lit "gpt-4"]
    /\ meta_modelSlugs meta = [lit "gpt-3.5"; lit "gpt-4"]
    /\ lit "gpt-4" ∈ meta_modelSlugs meta.
Proof.
  eexists _, _, _, _.
  split; [vm_compute; reflexivity|].
  split; [vm_compute; reflexivity|].
  split; [reflexivity|]. split; [reflexivity|].
  split; [reflexivity|]. split; [reflexivity|].
  eapply (X11_full_slugs_among_metadata_slugs 5 0
            [Samples.record "r" (Some Samples.with_models)] _ _ 0).
  - vm_compute; reflexivity.
  - vm_compute; reflexivity.
  - reflexivity.
  - reflexivity.
  - apply list_elem_of_here.
Defined.

(** X12.  The reconstructed path against the whole mapping.  The messages
    [traverseTree] returns are no more than the mapping has nodes, and those
    of them written by the user or the assistant are no more than
    [countMessages] counts over the whole mapping. *)
Theorem X12_path_within_mapping :
  forall (fuel : nat) (mapping : Mapping) (out : list RawMessage),
    traverseTree fuel mapping = Ok out ->
    length out <= length mapping
    /\ length (List.filter Notions.user_or_assistant out)
       <= countMessages mapping.
Proof.
  intros fuel mapping out Hrun. split.
  - pose proof (traverseTree_count mapping (fun _ => true) fuel out Hrun) as H.
    assert (Hall : forall l : list RawMessage,
              List.filter (fun _ => true) l = l).
    { induction l as [|x l IH]; simpl; [|rewrite IH]; reflexivity. }
    rewrite Hall in H. etransitivity; [exact H|].
    unfold Notions.entries_with. apply List.filter_length_le.
  - exact (traverseTree_count mapping Notions.user_or_assistant fuel out Hrun).
Qed.

(** Of the four nodes of the regenerated answer two are on the path; both
    are counted, with the two left aside. *)
Lemma X12_witness :
  exists out,
    traverseTree 5 Samples.branching = Ok out
    /\ length out = 2
    /\ countMessages Samples.branching = 4
    /\ length out <= length Samples.branching
    /\ length (List.filter Notions.user_or_assistant out)
       <= countMessages Samples.branching.
Proof.
  eexists.
  split; [vm_compute; reflexivity|].
  split; [reflexivity|]. split; [reflexivity|].
  apply (X12_path_within_mapping 5 Samples.branching).
  vm_compute; reflexivity.
Defined.

(* ===================================================================== *)
(** * File names and output paths *)
(* ===================================================================== *)

Section NameFacts.
Import Organizer.

Lemma skip_while_head p s c : head (skip_while p s) = Some c -> p c = false.
Proof.
  induction s as [|d r IH]; simpl; [discriminate|].
  destruct (p d) eqn:Hd; [exact IH|]. simpl. intros H. inversion H; subst.
  exact Hd.
Qed.

Lemma skip_while_end_snoc p s c :
  skip_while_end p (s ++ [c])
  = if p c then skip_while_end p s else s ++ [c].
Proof.
  unfold skip_while_end. rewrite rev_app_distr. simpl.
  destruct (p c); [reflexivity|]. simpl. rewrite rev_involutive. reflexivity.
Qed.

Lemma skip_while_end_last p s c :
  last (skip_while_end p s) = Some c -> p c = false.
Proof.
  induction s as [|d r IH] using rev_ind; [discriminate|].
  rewrite skip_while_end_snoc. destruct (p d) eqn:Hd; [exact IH|].
  rewrite last_snoc. intros H. inversion H; subst. exact Hd.
Qed.

Lemma skip_while_end_prefix p s :
  exists cut, s = skip_while_end p s ++ cut.
Proof.
  induction s as [|d r IH] using rev_ind; [exists []; reflexivity|].
  rewrite skip_while_end_snoc. destruct (p d).
  - destruct IH as [cut Hcut]. exists (cut ++ [d]).
    rewrite app_assoc, <- Hcut. reflexivity.
  - exists []. rewrite app_nil_r. reflexivity.
Qed.

Lemma skip_while_end_head p s c :
  head (skip_while_end p s) = Some c -> head s = Some c.
Proof.
  destruct (skip_while_end_prefix p s) as [cut Hcut]. intros H.
  rewrite Hcut. destruct (skip_while_end p s); [discriminate | exact H].
Qed.

Lemma skip_while_id p s :
  (forall c, head s = Some c -> p c = false) -> skip_while p s = s.
Proof.
  destruct s as [|c r]; [reflexivity|]. intros H. simpl.
  rewrite (H c eq_refl). reflexivity.
Qed.

Lemma skip_while_end_id p s :
  (forall c, last s = Some c -> p c = false) -> skip_while_end p s = s.
Proof.
  destruct s as [|d r _] using rev_ind; [reflexivity|]. intros H.
  rewrite skip_while_end_snoc, (H d); [reflexivity | apply last_snoc].
Qed.

Lemma strip_seps_ends s :
  (forall c, head (strip_seps s) = Some c -> is_sep c = false)
  /\ (forall c, last (strip_seps s) = Some c -> is_sep c = false).
Proof.
  unfold strip_seps. split; intros c Hc.
  - apply skip_while_end_head in Hc. eapply skip_while_head, Hc.
  - eapply skip_while_end_last, Hc.
Qed.

Lemma name_char_allowed c :
  is_name_char c = true -> forbidden c = false /\ is_space c = false.
Proof.
  unfold is_name_char, is_word, forbidden, is_space, in_range.
  rewrite !orb_true_iff, !andb_true_iff, !N.leb_le, !N.eqb_eq.
  intros Hc. split.
  - apply orb_false_iff. split; [apply N.leb_gt; lia|].
    apply bool_decide_eq_false. rewrite !elem_of_cons, elem_of_nil. lia.
  - rewrite !orb_false_iff, !andb_false_iff, !N.leb_gt, !N.eqb_neq. lia.
Qed.

Lemma bool_filter_id {A : Type} (p : A -> bool) (s : list A) :
  Forall (fun c => p c = true) s -> List.filter p s = s.
Proof.
  induction 1 as [|c r Hc Hr IH]; simpl; [reflexivity|].
  rewrite Hc, IH. reflexivity.
Qed.

Lemma collapse_spaces_id s :
  Forall (fun c => is_space c = false) s -> collapse_spaces false s = s.
Proof.
  induction 1 as [|c r Hc Hr IH]; simpl; [reflexivity|].
  rewrite Hc, IH. reflexivity.
Qed.

(** A name that [sanitizeFilename] has nothing to change in. *)
Lemma surviving_id s :
  Forall (fun c => is_name_char c = true) s ->
  (forall c, head s = Some c -> is_sep c = false) ->
  (forall c, last s = Some c -> is_sep c = false) ->
  surviving s = s.
Proof.
  intros Hall Hhead Hlast. unfold surviving.
  assert (Hallowed : Forall (fun c => negb (forbidden c) = true) s).
  { eapply List.Forall_impl; [|exact Hall]. intros c Hc. simpl in Hc.
    apply name_char_allowed in Hc as [-> _]. reflexivity. }
  assert (Hnospace : Forall (fun c => is_space c = false) s).
  { eapply List.Forall_impl; [|exact Hall]. intros c Hc. simpl in Hc.
    apply name_char_allowed in Hc as [_ Hc]. exact Hc. }
  rewrite (bool_filter_id _ s Hallowed).
  assert (Htrim : trim s = s).
  { unfold trim. rewrite skip_while_id.
    - apply skip_while_end_id. intros c Hc.
      rewrite List.Forall_forall in Hnospace. apply Hnospace.
      apply list_elem_of_In. apply last_Some in Hc as [l' ->].
      apply elem_of_app. right. apply list_elem_of_here.
    - intros c Hc. rewrite List.Forall_forall in Hnospace. apply Hnospace.
      destruct s; inversion Hc; subst. left. reflexivity. }
  rewrite Htrim, (collapse_spaces_id s Hnospace), (bool_filter_id _ s Hall).
  unfold strip_seps. rewrite (skip_while_id _ s Hhead).
  apply skip_while_end_id, Hlast.
Qed.

Lemma sanitizeFilename_untruncated title maxLength :
  length (sanitizeFilename title maxLength) < maxLength ->
  sanitizeFilename title maxLength
  = match surviving title with [] => lit "untitled" | _ => surviving title end.
Proof.
  unfold sanitizeFilename. intros Hlen.
  rewrite length_take in Hlen. apply take_ge. lia.
Qed.

Lemma untitled_clean :
  Forall (fun c => is_name_char c = true) (lit "untitled")
  /\ (forall c, head (lit "untitled") = Some c -> is_sep c = false)
  /\ (forall c, last (lit "untitled") = Some c -> is_sep c = false).
Proof.
  split; [|split].
  - apply List.Forall_forall. intros c Hc. vm_compute in Hc.
    repeat (destruct Hc as [<- | Hc]; [reflexivity|]). destruct Hc.
  - intros c Hc. inversion Hc. reflexivity.
  - intros c Hc. vm_compute in Hc. inversion Hc. reflexivity.
Qed.

Lemma sanitizeFilename_head title maxLength c :
  head (sanitizeFilename title maxLength) = Some c -> is_sep c = false.
Proof.
  unfold sanitizeFilename. intros Hc.
  assert (Hhead : head (match surviving title with
                        | [] => lit "untitled"
                        | _ => surviving title
                        end) = Some c).
  { destruct maxLength as [|n]; [rewrite take_0 in Hc; discriminate|].
    destruct (surviving title) as [|d r]; exact Hc. }
  destruct (surviving title) as [|d r] eqn:Hs.
  - inversion Hhead. reflexivity.
  - rewrite <- Hs in Hhead. unfold surviving in Hhead.
    eapply (proj1 (strip_seps_ends _)), Hhead.
Qed.

End NameFacts.

(** X13.  No hidden or relative names.  For every title and every limit,
    the name [sanitizeFilename] returns does not begin with a dot or an
    underscore, and holds no slash and no backslash. *)
Theorem X13_sanitized_name_is_plain :
  forall (title : jsstring) (maxLength : nat),
    (forall c, head (Organizer.sanitizeFilename title maxLength) = Some c ->
               c <> 46%N /\ c <> 95%N)
    /\ (47%N ∉ Organizer.sanitizeFilename title maxLength)
    /\ (92%N ∉ Organizer.sanitizeFilename title maxLength).
Proof.
  intros title maxLength.
  assert (Hall : Forall (fun c => Organizer.is_name_char c = true)
                        (Organizer.sanitizeFilename title maxLength)).
  { unfold Organizer.sanitizeFilename. apply Forall_take.
    pose proof (surviving_name_chars title) as Hs.
    destruct (Organizer.surviving title); [apply untitled_clean | exact Hs]. }
  rewrite List.Forall_forall in Hall.
  split; [|split].
  - intros c Hc. apply sanitizeFilename_head in Hc.
    unfold Organizer.is_sep in Hc.
    apply orb_false_iff in Hc as [H1 H2].
    apply N.eqb_neq in H1, H2. split; assumption.
  - intros Hin. apply list_elem_of_In, Hall in Hin. discriminate.
  - intros Hin. apply list_elem_of_In, Hall in Hin. discriminate.
Qed.

(** X14.  Sanitizing twice.  When the name [sanitizeFilename] returns is
    shorter than the limit, so that nothing was cut off, the name does not
    end with a dot or an underscore, and sanitizing it again returns it
    unchanged. *)
Theorem X14_sanitize_idempotent :
  forall (title : jsstring) (maxLength : nat),
    length (Organizer.sanitizeFilename title maxLength) < maxLength ->
    (forall c, last (Organizer.sanitizeFilename title maxLength) = Some c ->
               c <> 46%N /\ c <> 95%N)
    /\ Organizer.sanitizeFilename
         (Organizer.sanitizeFilename title maxLength) maxLength
       = Organizer.sanitizeFilename title maxLength.
Proof.
  intros title maxLength Hlen.
  pose proof (sanitizeFilename_untruncated title maxLength Hlen) as Heq.
  set (name := Organizer.sanitizeFilename title maxLength) in *.
  assert (Hclean : Forall (fun c => Organizer.is_name_char c = true) name
                   /\ (forall c, head name = Some c -> Organizer.is_sep c = false)
                   /\ (forall c, last name = Some c -> Organizer.is_sep c = false)
                   /\ name <> []).
  { rewrite Heq. destruct (Organizer.surviving title) as [|d r] eqn:Hs.
    - destruct untitled_clean as (H1 & H2 & H3).
      repeat split; try assumption. discriminate.
    - rewrite <- Hs. split; [apply surviving_name_chars|].
      split; [apply strip_seps_ends|]. split; [apply strip_seps_ends|].
      rewrite Hs. discriminate. }
  destruct Hclean as (Hall & Hhead & Hlast & Hne).
  split.
  - intros c Hc. apply Hlast in Hc. unfold Organizer.is_sep in Hc.
    apply orb_false_iff in Hc as [H1 H2].
    apply N.eqb_neq in H1, H2. split; assumption.
  - unfold Organizer.sanitizeFilename at 1.
    rewrite (surviving_id name Hall Hhead Hlast).
    destruct name as [|d r] eqn:Hname; [contradiction|].
    apply take_ge. lia.
Qed.

Lemma X14_witness :
  Organizer.sanitizeFilename (lit "  What is 2/3? ") 100 = lit "What_is_23"
  /\ Organizer.sanitizeFilename (lit "What_is_23") 100 = lit "What_is_23".
Proof.
  split; [vm_compute; reflexivity|].
  destruct (X14_sanitize_idempotent (lit "  What is 2/3? ") 100) as [_ Hagain].
  - vm_compute. lia.
  - exact Hagain.
Defined.

Section SuffixFacts.
Import Organizer.

Lemma lit_inj a b : lit a = lit b -> a = b.
Proof.
  unfold lit. intros H.
  rewrite <- (string_of_list_ascii_of_string a),
          <- (string_of_list_ascii_of_string b).
  f_equal. revert H.
  generalize (list_ascii_of_string a) (list_ascii_of_string b).
  induction l as [|x l IH]; intros [|y l'] H; simpl in H; try discriminate;
    [reflexivity|].
  inversion H as [[Hxy Hl]]. f_equal; [|apply IH, Hl].
  rewrite <- (ascii_N_embedding x), <- (ascii_N_embedding y), Hxy.
  reflexivity.
Qed.

Lemma decimal_inj a b : decimal a = decimal b -> a = b.
Proof.
  unfold decimal. intros H. apply lit_inj in H.
  apply Unsigned.to_uint_inj.
  pose proof (NilEmpty.usu (Nat.to_uint a)) as Ha.
  pose proof (NilEmpty.usu (Nat.to_uint b)) as Hb.
  rewrite H in Ha. congruence.
Qed.

(** Where [with_suffix] cuts a path, whatever the count. *)
Lemma with_suffix_shape path :
  exists stem ext,
    path = stem ++ ext
    /\ forall count,
         with_suffix path count = stem ++ lit "_" ++ decimal count ++ ext.
Proof.
  unfold with_suffix. destruct (lastIndexOf 46 path) as [[|d]|].
  - exists path, []. split; [rewrite app_nil_r; reflexivity|].
    intros count. rewrite app_nil_r. reflexivity.
  - exists (take (S d) path), (drop (S d) path).
    split; [rewrite take_drop; reflexivity | reflexivity].
  - exists path, []. split; [rewrite app_nil_r; reflexivity|].
    intros count. rewrite app_nil_r. reflexivity.
Qed.

Lemma with_suffix_inj path a b :
  with_suffix path a = with_suffix path b -> a = b.
Proof.
  destruct (with_suffix_shape path) as (stem & ext & _ & Hshape).
  rewrite !Hshape. intros H.
  apply app_inv_head in H. apply app_inv_head in H.
  apply app_inv_tail in H. apply decimal_inj, H.
Qed.

Lemma with_suffix_longer path count :
  length path < length (with_suffix path count).
Proof.
  destruct (with_suffix_shape path) as (stem & ext & Hpath & Hshape).
  rewrite Hshape. rewrite Hpath at 1. rewrite !length_app. simpl. lia.
Qed.

Lemma prior_registrations_grow (toLowerCase : jsstring -> jsstring)
    paths i j p :
  i < j -> paths !! i = Some p ->
  prior_registrations toLowerCase paths i p
  < prior_registrations toLowerCase paths j p.
Proof.
  intros Hij Hi. unfold prior_registrations.
  assert (Hsplit : take j paths
                   = take i paths ++ p :: drop (S i) (take j paths)).
  { rewrite <- (take_drop (S i) (take j paths)) at 1.
    rewrite take_take, Nat.min_l by lia.
    rewrite (take_S_r _ _ _ Hi), <- app_assoc. reflexivity. }
  rewrite Hsplit, List.filter_app, length_app. simpl.
  rewrite bool_decide_eq_true_2 by reflexivity. simpl. lia.
Qed.

End SuffixFacts.

(** X15.  One path registered twice.  In a run of registrations against
    one initially empty map, two registrations of the same path return two
    different paths. *)
Theorem X15_same_path_distinct_names :
  forall (toLowerCase : jsstring -> jsstring) (paths : list jsstring)
         (i j : nat) (p : jsstring),
    i < j ->
    paths !! i = Some p ->
    paths !! j = Some p ->
    exists a b,
      (Organizer.registerAll toLowerCase paths ∅).1 !! i = Some a
      /\ (Organizer.registerAll toLowerCase paths ∅).1 !! j = Some b
      /\ a <> b.
Proof.
  intros toLowerCase paths i j p Hij Hi Hj.
  pose proof (registerAll_lookup toLowerCase paths ∅ i p Hi) as Hai.
  pose proof (registerAll_lookup toLowerCase paths ∅ j p Hj) as Haj.
  rewrite lookup_empty in Hai, Haj.
  pose proof (prior_registrations_grow toLowerCase paths i j p Hij Hi) as Hlt.
  eexists _, _. split; [exact Hai|]. split; [exact Haj|].
  destruct (Organizer.prior_registrations toLowerCase paths j p) as [|kj];
    [lia|].
  destruct (Organizer.prior_registrations toLowerCase paths i p) as [|ki].
  - intros Heq. pose proof (with_suffix_longer p (S kj)) as Hlen.
    rewrite <- Heq in Hlen. lia.
  - intros Heq. apply with_suffix_inj in Heq. lia.
Qed.

Lemma X15_witness :
  exists a b,
    (Organizer.registerAll Organizer.ascii_lower
       [lit "out/Chat.md"; lit "out/Plan.md"; lit "out/Chat.md"] ∅).1 !! 0
    = Some a
    /\ (Organizer.registerAll Organizer.ascii_lower
          [lit "out/Chat.md"; lit "out/Plan.md"; lit "out/Chat.md"] ∅).1 !! 2
       = Some b
    /\ a <> b.
Proof.
  apply (X15_same_path_distinct_names Organizer.ascii_lower
           [lit "out/Chat.md"; lit "out/Plan.md"; lit "out/Chat.md"]
           0 2 (lit "out/Chat.md")).
  - lia.
  - reflexivity.
  - reflexivity.
Defined.

Section PathFacts.
Import Organizer.
Variable utcYear : JsValue -> jsstring.
Variable utcMonth : JsValue -> jsstring.

(** The directory [resolveOutputPath] puts a conversation in. *)
Lemma resolveOutputPath_shape conversation mode baseDir :
  exists dir,
    resolveOutputPath utcYear utcMonth conversation mode baseDir
    = dir ++ lit "/"
      ++ sanitizeFilename (conv_title conversation) DEFAULT_MAX_LENGTH
      ++ lit ".md"
    /\ (mode = lit "flat" -> dir = baseDir)
    /\ (mode <> lit "flat" -> createdAt conversation = TsNull ->
        dir = baseDir ++ lit "/undated").
Proof.
  unfold resolveOutputPath.
  generalize (sanitizeFilename (conv_title conversation) DEFAULT_MAX_LENGTH).
  intros name. case_bool_decide as Hflat.
  - exists baseDir. split; [reflexivity|]. split; [reflexivity|].
    intros Hne. contradiction.
  - destruct (createdAt conversation) as [|d].
    + exists (baseDir ++ lit "/undated"). split.
      * rewrite <- (app_assoc baseDir). reflexivity.
      * split; [intros Habs; contradiction | reflexivity].
    + exists (baseDir ++ lit "/"
              ++ (if bool_decide (mode = lit "monthly")
                  then utcYear d ++ lit "-" ++ utcMonth d else utcYear d)).
      split.
      * rewrite <- (app_assoc baseDir), <- (app_assoc (lit "/")).
        reflexivity.
      * split; [intros Habs; contradiction | discriminate].
Qed.

End PathFacts.

(** X16.  The path of a conversation.  [resolveOutputPath] returns a
    directory, a slash, the sanitized title and [.md]: the directory is
    [baseDir] in the mode [flat] and [baseDir/undated] in the other modes
    for a conversation without creation date.  When the key of that path
    is registered with count [n], [deduplicatePath] returns the same
    directory and name with [_] and [n + 1] in front of [.md], wherever the
    directory or the name have dots. *)
Theorem X16_output_path_and_suffix :
  forall (utcYear utcMonth : JsValue -> jsstring)
         (toLowerCase : jsstring -> jsstring)
         (conversation : Conversation) (mode baseDir : jsstring)
         (usedPaths : gmap jsstring nat) (n : nat),
    usedPaths !! toLowerCase
      (Organizer.resolveOutputPath utcYear utcMonth conversation mode baseDir)
    = Some n ->
    exists dir,
      Organizer.resolveOutputPath utcYear utcMonth conversation mode baseDir
      = dir ++ lit "/"
        ++ Organizer.sanitizeFilename (conv_title conversation)
             Organizer.DEFAULT_MAX_LENGTH
        ++ lit ".md"
      /\ (mode = lit "flat" -> dir = baseDir)
      /\ (mode <> lit "flat" -> createdAt conversation = TsNull ->
          dir = baseDir ++ lit "/undated")
      /\ (Organizer.deduplicatePath toLowerCase
            (Organizer.resolveOutputPath utcYear utcMonth conversation mode
               baseDir) usedPaths).1
         = dir ++ lit "/"
           ++ Organizer.sanitizeFilename (conv_title conversation)
                Organizer.DEFAULT_MAX_LENGTH
           ++ lit "_" ++ decimal (n + 1) ++ lit ".md".
Proof.
  intros utcYear utcMonth toLowerCase conversation mode baseDir usedPaths n Hn.
  destruct (resolveOutputPath_shape utcYear utcMonth conversation mode baseDir)
    as (dir & Hpath & Hflat & Hundated).
  exists dir. split; [exact Hpath|]. split; [exact Hflat|].
  split; [exact Hundated|].
  unfold Organizer.deduplicatePath. rewrite Hn. cbn [fst].
  rewrite Hpath.
  generalize (Organizer.sanitizeFilename (conv_title conversation)
                Organizer.DEFAULT_MAX_LENGTH).
  intros name.
  assert (Hcut : dir ++ lit "/" ++ name ++ lit ".md"
                 = (dir ++ lit "/" ++ name) ++ 46%N :: lit "md").
  { rewrite <- (app_assoc dir), <- (app_assoc (lit "/")). reflexivity. }
  rewrite Hcut, with_suffix_extension.
  - rewrite <- (app_assoc dir), <- (app_assoc (lit "/")). reflexivity.
  - destruct dir; discriminate.
  - intros Hin. simpl in Hin. destruct Hin as [H|[H|[]]]; discriminate.
Qed.

(** The second conversation called [v1.2 notes] in the flat mode. *)
Lemma X16_witness :
  (Organizer.deduplicatePath Organizer.ascii_lower
     (Organizer.resolveOutputPath (fun _ => lit "2024") (fun _ => lit "01")
        (Samples.titled "v1.2 notes") (lit "flat") (lit "out"))
     {[ lit "out/v1.2_notes.md" := 0 ]}).1
  = lit "out/v1.2_notes_1.md".
Proof.
  destruct (X16_output_path_and_suffix (fun _ => lit "2024") (fun _ => lit "01")
              Organizer.ascii_lower (Samples.titled "v1.2 notes") (lit "flat")
              (lit "out") {[ lit "out/v1.2_notes.md" := 0 ]} 0)
    as (dir & _ & Hflat & _ & Hdedup).
  - vm_compute. reflexivity.
  - rewrite Hdedup, (Hflat eq_refl). vm_compute. reflexivity.
Defined.
